(** * Chatterbox TTS inference engine: a shallow embedding of the core

    The development follows the C++ sources:

    - [VoiceConditionals] (record, [IsValid], [Save], [Load]) from
      include/tts/ChatterboxTTS.h and src/tts/ChatterboxTTS.cpp;
    - [VoiceConditionalsCache] from VoiceConditionalsCache.cpp;
    - [OnnxSessionManager] from OnnxSessionManager.cpp;
    - [TensorUtils] ([GetElementCount], [ExtractFloatSlice]) from
      TensorUtils.cpp;
    - [ChatterboxTTS] ([LoadModels], [PrepareConditionals],
      [ApplyRepetitionPenalty], [ApplyTopK], [SampleToken], [Generate]) from
      src/tts/ChatterboxTTS.cpp;
    - [Text] (the two text normalisers) from src/tts/ChatterboxTTS.cpp and
      Tokenizer.cpp;
    - [WavWriter] from WavWriter.cpp;
    - [Main] ([ResolveVoice]) from main.cpp.

    Conventions.  A C++ [int64_t], [int], [uint32_t], [uint64_t] or [size_t]
    is a [Z]; where the program can leave the range of the type the
    wrap-around is written out.  A [float] that the program computes with is
    an IEEE-754 binary32 value ([spec_float] at precision 24); a [float] that
    the program only stores and copies is its 32-bit pattern.  A
    [std::vector] is a [list], a [std::unordered_map] a [gmap].  A function
    that can leave through a C++ exception or through undefined behaviour
    returns an [outcome].  The neural networks, the tensor constructor, the
    audio decoder and the pseudo-random generator are fields of a [Runtime]
    record; logging, profiling and the progress callback are left out.

    What is taken for granted about the platform: object representations
    are little-endian; memory is only ever refused to a vector that cannot
    fit the address space; a regular file can always be read, and a file
    that could be opened for writing is written in full; the locale is
    the C locale, which the program never changes.  Whether a path can be
    removed, and what a directory lists in which order, is for the
    operating system to say: functions that ask take the answer as an
    argument.

    Paths.  The program is built for Windows.  A name that the user
    writes, the argument of [ExtractKey], is taken apart as the library
    of that build does it ([NativePath]): at slashes and backslashes,
    behind a drive or another root name, with the file name cut at its
    first colon.  The text is taken to be in a single-byte code page that
    agrees with ASCII, so that a character of a name is one byte.  The
    names of the cache files, which the program composes itself from the
    cache directory and a key, are written in the generic format
    ([Path]), one name for one file, the slash standing for the separator
    that the library puts between the directory and the file name; on a
    relative name without backslash and colon the two ways of taking it
    apart agree ([native_agrees_with_generic]). *)

From Stdlib Require Import ZArith List Lia Bool Ascii String.
From Stdlib Require Import Strings.Byte.
From Stdlib Require Import Floats.SpecFloat.
From stdpp Require Import base option gmap strings list.

Local Open Scope Z_scope.

(** ** Outcomes of fallible code *)

(** Ways in which a call can leave other than by returning. *)
Inductive abort : Type :=
  | LengthError        (* std::length_error / std::bad_alloc out of a vector *)
  | BufferOverrun      (* a read that stores past the end of its buffer *)
  | FilesystemError    (* std::filesystem::filesystem_error *)
  | OrtException       (* Ort::Exception outside of a try block *)
  | RuntimeError (what : string).   (* std::runtime_error *)

Inductive outcome (A : Type) : Type :=
  | Ret (a : A)
  | Abort (e : abort).
Arguments Ret {A} a.
Arguments Abort {A} e.

#[global] Instance outcome_ret : MRet outcome := fun A a => Ret a.
#[global] Instance outcome_bind : MBind outcome := fun A B k m =>
  match m with
  | Ret a => k a
  | Abort e => Abort e
  end.

(** ** Machine integers *)

Definition PTRDIFF_MAX : Z := 2 ^ 63 - 1.

(** Two's-complement reading of a 64-bit pattern, and the value an
    [int64_t] operation leaves behind. *)
Definition to_signed64 (u : Z) : Z :=
  if u mod 2 ^ 64 <? 2 ^ 63 then u mod 2 ^ 64 else u mod 2 ^ 64 - 2 ^ 64.
Definition wrap64 (z : Z) : Z := to_signed64 z.
Definition add64 (a b : Z) : Z := wrap64 (a + b).
Definition mul64 (a b : Z) : Z := wrap64 (a * b).

Definition in_int64 (z : Z) : Prop := - 2 ^ 63 <= z < 2 ^ 63.
Definition in_uint32 (z : Z) : Prop := 0 <= z < 2 ^ 32.

(** A [std::vector<T>] of [count] elements of [width] bytes can only be
    created when it fits the address space: [count] arrives as a [size_t]
    (a negative [int64_t] becomes a value above [PTRDIFF_MAX]), and beyond
    [max_size()] the vector throws.  Smaller requests are taken to succeed. *)
Definition vector_fits (width count : Z) : bool :=
  (0 <=? count) && (count * width <=? PTRDIFF_MAX).

(** ** binary32 arithmetic *)

Module F32.
Definition prec : Z := 24.
Definition emax : Z := 128.
Definition of_Z (z : Z) : spec_float := binary_normalize prec emax z 0 false.
Definition zero : spec_float := S754_zero false.
Definition one : spec_float := Eval cbv in of_Z 1.
Definition five : spec_float := Eval cbv in of_Z 5.
Definition mul : spec_float -> spec_float -> spec_float := SFmul prec emax.
Definition div : spec_float -> spec_float -> spec_float := SFdiv prec emax.
Definition ltb : spec_float -> spec_float -> bool := SFltb.
Definition eqb : spec_float -> spec_float -> bool := SFeqb.
Definition add : spec_float -> spec_float -> spec_float := SFadd prec emax.
Definition leb : spec_float -> spec_float -> bool := SFleb.
End F32.

(** ** Little-endian object representations *)

Definition byte_of_Z (z : Z) : byte :=
  default x00 (Byte.of_N (Z.to_N (z mod 256))).
Definition Z_of_byte (b : byte) : Z := Z.of_N (Byte.to_N b).

(** The [n] low-order bytes of [z], least significant first. *)
Fixpoint le_encode (n : nat) (z : Z) : list byte :=
  match n with
  | O => []
  | S n' => byte_of_Z z :: le_encode n' (z / 256)
  end.

Fixpoint le_decode (bs : list byte) : Z :=
  match bs with
  | [] => 0
  | b :: bs' => Z_of_byte b + 256 * le_decode bs'
  end.

(** The bytes of a vector whose elements are [width] bytes wide, and the
    elements of a buffer of such bytes. *)
Definition encode_elems (width : nat) (l : list Z) : list byte :=
  concat (map (le_encode width) l).

Fixpoint decode_elems (width : nat) (signed : bool) (count : nat) (bs : list byte)
  : list Z :=
  match count with
  | O => []
  | S c =>
      let u := le_decode (take width bs) in
      (if signed then to_signed64 u else u)
        :: decode_elems width signed c (drop width bs)
  end.

(** ** std::filesystem::path, generic (POSIX) pathname format *)

(** The decomposition of a path written with slashes, used for the names
    of the cache files.  It is the one of the program for a relative path
    without a backslash and without a colon; what the library of the
    Windows build does with a backslash, a drive or a colon is in
    [NativePath] below. *)

Module Path.
Definition is_sep (c : ascii) : bool := Ascii.eqb c "/"%char.
Definition is_dot (c : ascii) : bool := Ascii.eqb c "."%char.

(** [path::filename()]: the text after the last separator. *)
Fixpoint filename_chars (l : list ascii) : list ascii :=
  match l with
  | [] => []
  | c :: r =>
      if existsb is_sep r then filename_chars r
      else if is_sep c then r else c :: r
  end.

(** [path::parent_path()]: the text before the last separator, the root
    directory being its own parent. *)
Fixpoint parent_chars (l : list ascii) : list ascii :=
  match l with
  | [] => []
  | c :: r =>
      if existsb is_sep r then c :: parent_chars r else []
  end.

(** [std::string::rfind('.')]. *)
Fixpoint rfind_dot (l : list ascii) : option nat :=
  match l with
  | [] => None
  | c :: r =>
      match rfind_dot r with
      | Some p => Some (S p)
      | None => if is_dot c then Some O else None
      end
  end.

(** Where the extension of a file name starts: nowhere for ".", ".." and
    names whose only dot is the first character. *)
Definition find_extension (f : list ascii) : option nat :=
  match f with
  | [] => None
  | c :: r =>
      if (Nat.leb (length f) 2) && is_dot c then None
      else match rfind_dot f with
           | Some (S p) => Some (S p)
           | _ => None
           end
  end.

Definition stem_chars (l : list ascii) : list ascii :=
  let f := filename_chars l in
  match find_extension f with
  | Some p => take p f
  | None => f
  end.

Definition has_extension (s : string) : bool :=
  match find_extension (filename_chars (list_ascii_of_string s)) with
  | Some _ => true
  | None => false
  end.
Definition has_parent_path (s : string) : bool :=
  existsb is_sep (list_ascii_of_string s).
Definition filename (s : string) : string :=
  string_of_list_ascii (filename_chars (list_ascii_of_string s)).
Definition stem (s : string) : string :=
  string_of_list_ascii (stem_chars (list_ascii_of_string s)).
Definition parent_path (s : string) : string :=
  match list_ascii_of_string s with
  | c :: r =>
      if is_sep c && negb (existsb is_sep r) then "/"%string
      else string_of_list_ascii (parent_chars (c :: r))
  | [] => ""%string
  end.

(** [path::extension()], the dot included. *)
Definition extension (s : string) : string :=
  let f := filename_chars (list_ascii_of_string s) in
  match find_extension f with
  | Some p => string_of_list_ascii (drop p f)
  | None => ""%string
  end.

Definition is_absolute (s : string) : bool :=
  match list_ascii_of_string s with
  | c :: _ => is_sep c
  | [] => false
  end.
Definition ends_with_sep (s : string) : bool :=
  match last (list_ascii_of_string s) with
  | Some c => is_sep c
  | None => false
  end.

(** [operator/]: an absolute right operand replaces the left one. *)
Definition append (p q : string) : string :=
  if is_absolute q then q
  else if String.eqb p "" then q
  else if ends_with_sep p then (p ++ q)%string
  else (p ++ "/" ++ q)%string.
End Path.

(** ** std::filesystem::path as the Windows build parses it *)

(** The program is built for Windows, where the library takes the slash
    and the backslash for separators, knows root names (a drive letter
    with its colon, a server, a device), and cuts a file name at its first
    colon, the start of an alternate data stream, before it looks for the
    extension.  The parser works on the text converted to wide
    characters; with one byte for a character these are the bytes. *)

Module NativePath.

Definition backslash : ascii := ascii_of_nat 92.

Definition is_slash (c : ascii) : bool :=
  Ascii.eqb c backslash || Ascii.eqb c "/"%char.

Definition is_colon (c : ascii) : bool := Ascii.eqb c ":"%char.

(** A letter of the Latin alphabet, of either case. *)
Definition is_drive_letter (c : ascii) : bool :=
  let n := nat_of_ascii c in
  (Nat.leb 65 n && Nat.leb n 90) || (Nat.leb 97 n && Nat.leb n 122).

(** The text starts with a drive: a letter and a colon. *)
Definition has_drive_letter_prefix (l : list ascii) : bool :=
  match l with
  | c :: d :: _ => is_drive_letter c && is_colon d
  | _ => false
  end.

Definition char_at (l : list ascii) (i : nat) : ascii :=
  default Ascii.zero (l !! i).

(** [std::find_if]: the index of the first character that [f] holds
    for, the length of the text when there is none. *)
Fixpoint find_if (f : ascii -> bool) (l : list ascii) : nat :=
  match l with
  | [] => 0
  | c :: r => if f c then 0 else S (find_if f r)
  end.

(** Where the root name ends: after the drive, after the three characters
    of a device prefix, after the server name, or at the start. *)
Definition find_root_name_end (l : list ascii) : nat :=
  let n := length l in
  if Nat.ltb n 2 then 0
  else if has_drive_letter_prefix l then 2
  else if negb (is_slash (char_at l 0)) then 0
  else if Nat.leb 4 n && is_slash (char_at l 3)
          && (Nat.eqb n 4 || negb (is_slash (char_at l 4)))
          && ((is_slash (char_at l 1)
               && (Ascii.eqb (char_at l 2) "?" || Ascii.eqb (char_at l 2) "."))
              || (Ascii.eqb (char_at l 1) "?" && Ascii.eqb (char_at l 2) "?"))
  then 3
  else if Nat.leb 3 n && is_slash (char_at l 1) && negb (is_slash (char_at l 2))
  then 3 + find_if is_slash (drop 3 l)
  else 0.

(** Where the relative path starts: behind the root name and the slashes
    of the root directory. *)
Definition find_relative_path (l : list ascii) : nat :=
  let r := find_root_name_end l in
  r + find_if (fun c => negb (is_slash c)) (drop r l).

(** The text behind the last slash, and the text up to and with it. *)
Fixpoint after_last_slash (l : list ascii) : list ascii :=
  match l with
  | [] => []
  | c :: r =>
      if existsb is_slash r then after_last_slash r
      else if is_slash c then r else c :: r
  end.

Fixpoint up_to_last_slash (l : list ascii) : list ascii :=
  match l with
  | [] => []
  | c :: r =>
      if existsb is_slash r then c :: up_to_last_slash r
      else if is_slash c then [c] else []
  end.

(** The text without the slashes at its end. *)
Fixpoint strip_slashes (l : list ascii) : list ascii :=
  match l with
  | [] => []
  | c :: r =>
      match strip_slashes r with
      | [] => if is_slash c then [] else [c]
      | r' => c :: r'
      end
  end.

(** [path::filename()]: what follows the last slash of the relative
    path. *)
Definition filename_chars (l : list ascii) : list ascii :=
  after_last_slash (drop (find_relative_path l) l).

(** [path::parent_path()]: the file name is taken off the relative path,
    then the slashes that end it. *)
Definition parent_chars (l : list ascii) : list ascii :=
  take (find_relative_path l) l
    ++ strip_slashes (up_to_last_slash (drop (find_relative_path l) l)).

(** The part of the file name in which the extension is looked for: the
    text before the first colon. *)
Definition before_colon (f : list ascii) : list ascii :=
  take (find_if is_colon f) f.

(** [path::stem()] and [path::extension()].  Within the text before the
    colon the extension starts at the last dot, except in ".", ".." and a
    name whose only dot is its first character, as in the generic
    format. *)
Definition stem_chars (l : list ascii) : list ascii :=
  let g := before_colon (filename_chars l) in
  match Path.find_extension g with
  | Some p => take p g
  | None => g
  end.

Definition extension_chars (l : list ascii) : list ascii :=
  let g := before_colon (filename_chars l) in
  match Path.find_extension g with
  | Some p => drop p g
  | None => []
  end.

Definition has_extension (s : string) : bool :=
  match extension_chars (list_ascii_of_string s) with
  | [] => false
  | _ => true
  end.
Definition has_parent_path (s : string) : bool :=
  match parent_chars (list_ascii_of_string s) with
  | [] => false
  | _ => true
  end.
Definition filename (s : string) : string :=
  string_of_list_ascii (filename_chars (list_ascii_of_string s)).
Definition stem (s : string) : string :=
  string_of_list_ascii (stem_chars (list_ascii_of_string s)).

End NativePath.

(** ** The file system *)

(** Regular files with their contents, directories, and the paths at which
    nothing can be created or opened for writing.  Every regular file can be
    read, and a write that could be opened runs to completion. *)
Record FileSystem : Type := {
  fs_files : gmap string (list byte);
  fs_dirs : gset string;
  fs_readonly : gset string
}.

Definition fs_exists (fs : FileSystem) (p : string) : bool :=
  bool_decide (is_Some (fs_files fs !! p)) || bool_decide (p ∈ fs_dirs fs).

Definition fs_write (fs : FileSystem) (p : string) (bs : list byte) : FileSystem :=
  {| fs_files := <[p := bs]> (fs_files fs);
     fs_dirs := fs_dirs fs;
     fs_readonly := fs_readonly fs |}.

Definition fs_mkdir (fs : FileSystem) (p : string) : FileSystem :=
  {| fs_files := fs_files fs;
     fs_dirs := {[p]} ∪ fs_dirs fs;
     fs_readonly := fs_readonly fs |}.

(** [fs::create_directories(p)]: [Some] of the new file system, with
    whether a directory was created, or [None] when it cannot be made. *)
Definition create_directories (fs : FileSystem) (p : string)
  : option (bool * FileSystem) :=
  if bool_decide (p ∈ fs_dirs fs) then Some (false, fs)
  else if bool_decide (is_Some (fs_files fs !! p)) || bool_decide (p ∈ fs_readonly fs)
       then None
       else Some (true, fs_mkdir fs p).

(** [std::ofstream(path, std::ios::binary).is_open()]. *)
Definition can_open_for_write (fs : FileSystem) (p : string) : bool :=
  negb (bool_decide (p ∈ fs_dirs fs)) && negb (bool_decide (p ∈ fs_readonly fs)).

(** [entry.is_regular_file()]. *)
Definition is_regular_file (fs : FileSystem) (p : string) : bool :=
  bool_decide (is_Some (fs_files fs !! p)).

(** What [fs::remove(p, ec)] leaves when it removes [p]. *)
Definition fs_remove (fs : FileSystem) (p : string) : FileSystem :=
  {| fs_files := delete p (fs_files fs);
     fs_dirs := fs_dirs fs ∖ {[p]};
     fs_readonly := fs_readonly fs |}.

(** ** std::ifstream *)

Record ifstream : Type := {
  rest : list byte;      (* the bytes not yet extracted *)
  failbit : bool
}.

(** [file.read(buf, n)]: the bytes stored into [buf].  Fewer than [n] are
    left: all of them are extracted and the stream fails.  A failed stream
    extracts nothing. *)
Definition stream_read (n : Z) (s : ifstream) : list byte * ifstream :=
  if failbit s then ([], s)
  else if n <=? Z.of_nat (length (rest s))
       then (take (Z.to_nat n) (rest s),
             {| rest := drop (Z.to_nat n) (rest s); failbit := false |})
       else (rest s, {| rest := []; failbit := true |}).

(** Reading into a scalar local that was not initialised: the bytes that
    arrive overwrite the low addresses of the variable, the others keep
    whatever the variable held ([prior]). *)
Definition read_scalar (width : nat) (prior : Z) (s : ifstream) : Z * ifstream :=
  let '(bs, s') := stream_read (Z.of_nat width) s in
  (le_decode (bs ++ drop (length bs) (le_encode width prior)), s').

(** Reading [nbytes] bytes into the storage of a vector that was just
    resized to [count] zero elements of [width] bytes. *)
Definition read_elems (width : nat) (signed : bool) (count nbytes : Z) (s : ifstream)
  : outcome (list Z * ifstream) :=
  let '(bs, s') := stream_read nbytes s in
  let capacity := (Z.to_nat count * width)%nat in
  if Nat.ltb capacity (length bs) then Abort BufferOverrun
  else Ret (decode_elems width signed (Z.to_nat count)
              (bs ++ replicate (capacity - length bs) x00), s').

(** ** VoiceConditionals *)

Module VoiceConditionals.

Record t : Type := {
  condEmb : list Z;                 (* float bit patterns *)
  promptToken : list Z;             (* int64_t *)
  speakerEmbeddings : list Z;       (* float bit patterns *)
  speakerFeatures : list Z;         (* float bit patterns *)
  condEmbShape : list Z;
  promptTokenShape : list Z;
  speakerEmbeddingsShape : list Z;
  speakerFeaturesShape : list Z
}.

Definition empty : t :=
  {| condEmb := []; promptToken := []; speakerEmbeddings := [];
     speakerFeatures := []; condEmbShape := []; promptTokenShape := [];
     speakerEmbeddingsShape := []; speakerFeaturesShape := [] |}.

Definition is_empty {A : Type} (l : list A) : bool :=
  match l with [] => true | _ => false end.

Definition IsValid (v : t) : bool :=
  negb (is_empty (condEmb v)) && negb (is_empty (promptToken v)).

Definition MAGIC : Z := 0x434F4E44.
Definition VERSION : Z := 1.

(** The [writeArray] lambda of [Save]: [numDims] is the size of the shape
    cast to [uint32_t], [dataSize] the byte count as a [uint64_t]. *)
Definition writeArray (width : nat) (data shape : list Z) : list byte :=
  le_encode 4 (Z.of_nat (length shape))
    ++ encode_elems 8 shape
    ++ le_encode 8 (Z.of_nat (length data) * Z.of_nat width)
    ++ encode_elems width data.

(** Everything [Save] streams into the file. *)
Definition serialize (v : t) : list byte :=
  le_encode 4 MAGIC ++ le_encode 4 VERSION
    ++ writeArray 4 (condEmb v) (condEmbShape v)
    ++ writeArray 8 (promptToken v) (promptTokenShape v)
    ++ writeArray 4 (speakerEmbeddings v) (speakerEmbeddingsShape v)
    ++ writeArray 4 (speakerFeatures v) (speakerFeaturesShape v).

Definition Save (fs : FileSystem) (v : t) (path : string)
  : outcome bool * FileSystem :=
  if negb (IsValid v) then (Ret false, fs)
  else
    let made :=
      if Path.has_parent_path path
      then create_directories fs (Path.parent_path path)
      else Some (false, fs) in
    match made with
    | None => (Abort FilesystemError, fs)
    | Some (_, fs1) =>
        if negb (can_open_for_write fs1 path) then (Ret false, fs1)
        else (Ret true, fs_write fs1 path (serialize v))
    end.

(** [readFloatArray] and [readInt64Array] of [Load] differ in the element
    type only.  [junk site] is what the uninitialised [numDims]
    ([site]) and [dataSize] ([site + 1]) hold before the read. *)
Definition readArray (width : nat) (signed : bool) (junk : nat -> Z) (site : nat)
    (s : ifstream) : outcome (list Z * list Z * ifstream) :=
  let '(numDims, s1) := read_scalar 4 (junk site) s in
  if negb (vector_fits 8 numDims) then Abort LengthError
  else
    '(shape, s2) ← read_elems 8 true numDims (numDims * 8) s1;
    let '(dataSize, s3) := read_scalar 8 (junk (S site)) s2 in
    let count := dataSize / Z.of_nat width in
    if negb (vector_fits (Z.of_nat width) count) then Abort LengthError
    else
      '(data, s4) ← read_elems width signed count dataSize s3;
      Ret (data, shape, s4).

(** The body of [Load] once the file is open on [bytes]; [junk 0] and
    [junk 1] are what [magic] and [version] hold before they are read. *)
Definition parse (junk : nat -> Z) (bytes : list byte) : outcome (option t) :=
  let s0 := {| rest := bytes; failbit := false |} in
  let '(magic, s1) := read_scalar 4 (junk 0%nat) s0 in
  if negb (magic =? MAGIC) then Ret None
  else
    let '(version, s2) := read_scalar 4 (junk 1%nat) s1 in
    if negb (version =? VERSION) then Ret None
    else
      '(ce, ces, s3) ← readArray 4 false junk 2 s2;
      '(pt, pts, s4) ← readArray 8 true junk 4 s3;
      '(se, ses, s5) ← readArray 4 false junk 6 s4;
      '(sf, sfs, s6) ← readArray 4 false junk 8 s5;
      if failbit s6 then Ret None
      else Ret (Some {| condEmb := ce; promptToken := pt;
                        speakerEmbeddings := se; speakerFeatures := sf;
                        condEmbShape := ces; promptTokenShape := pts;
                        speakerEmbeddingsShape := ses;
                        speakerFeaturesShape := sfs |}).

(** [Load]: a path that is not a regular file does not open. *)
Definition Load (junk : nat -> Z) (fs : FileSystem) (path : string)
  : outcome (option t) :=
  match fs_files fs !! path with
  | None => Ret None
  | Some bytes => parse junk bytes
  end.

(** The elements and sizes of a record are those of its C++ types. *)
Record well_typed (v : t) : Prop := {
  wt_condEmb : Forall in_uint32 (condEmb v);
  wt_promptToken : Forall in_int64 (promptToken v);
  wt_speakerEmbeddings : Forall in_uint32 (speakerEmbeddings v);
  wt_speakerFeatures : Forall in_uint32 (speakerFeatures v);
  wt_condEmbShape : Forall in_int64 (condEmbShape v);
  wt_promptTokenShape : Forall in_int64 (promptTokenShape v);
  wt_speakerEmbeddingsShape : Forall in_int64 (speakerEmbeddingsShape v);
  wt_speakerFeaturesShape : Forall in_int64 (speakerFeaturesShape v)
}.

(** The sizes fit the fields of the file format: a rank is a [uint32_t],
    a byte count the size of a vector in memory. *)
Definition array_fits (width : Z) (data shape : list Z) : Prop :=
  Z.of_nat (length shape) < 2 ^ 32 /\
  Z.of_nat (length data) * width <= PTRDIFF_MAX.

Record representable (v : t) : Prop := {
  rp_condEmb : array_fits 4 (condEmb v) (condEmbShape v);
  rp_promptToken : array_fits 8 (promptToken v) (promptTokenShape v);
  rp_speakerEmbeddings :
    array_fits 4 (speakerEmbeddings v) (speakerEmbeddingsShape v);
  rp_speakerFeatures :
    array_fits 4 (speakerFeatures v) (speakerFeaturesShape v)
}.

(** The reading of "valid" that asks for all four arrays and their shape
    headers to be non-empty and consistent: every shape is the shape of
    its array. *)
Definition shape_consistent (data shape : list Z) : Prop :=
  data <> [] /\ shape <> [] /\
  Z.of_nat (length data) = fold_right Z.mul 1 shape.

Definition all_arrays_consistent (v : t) : Prop :=
  shape_consistent (condEmb v) (condEmbShape v) /\
  shape_consistent (promptToken v) (promptTokenShape v) /\
  shape_consistent (speakerEmbeddings v) (speakerEmbeddingsShape v) /\
  shape_consistent (speakerFeatures v) (speakerFeaturesShape v).

End VoiceConditionals.

(** ** VoiceConditionalsCache *)

Module VoiceConditionalsCache.

Record t : Type := {
  m_cacheDir : string;
  m_cache : gmap string VoiceConditionals.t
}.

Definition with_cache (c : t) (m : gmap string VoiceConditionals.t) : t :=
  {| m_cacheDir := m_cacheDir c; m_cache := m |}.

Definition Has (c : t) (key : string) : bool :=
  bool_decide (is_Some (m_cache c !! key)).

Definition Get (c : t) (key : string) : option VoiceConditionals.t :=
  m_cache c !! key.

Definition GetCachePath (c : t) (key : string) : string :=
  Path.append (m_cacheDir c) (key ++ ".cond")%string.

Definition ExistsOnDisk (fs : FileSystem) (c : t) (key : string) : bool :=
  fs_exists fs (GetCachePath c key).

Definition EnsureCacheDir (fs : FileSystem) (c : t) : bool * FileSystem :=
  if fs_exists fs (m_cacheDir c) then (true, fs)
  else match create_directories fs (m_cacheDir c) with
       | Some (true, fs') => (true, fs')
       | _ => (false, fs)
       end.

Definition SaveToDisk (fs : FileSystem) (c : t) (key : string)
    (conds : VoiceConditionals.t) : outcome bool * FileSystem :=
  let '(ok, fs1) := EnsureCacheDir fs c in
  if negb ok then (Ret false, fs1)
  else VoiceConditionals.Save fs1 conds (GetCachePath c key).

Definition Put (fs : FileSystem) (c : t) (key : string)
    (conds : VoiceConditionals.t) (saveToDisk : bool)
  : outcome bool * t * FileSystem :=
  if negb (VoiceConditionals.IsValid conds) then (Ret false, c, fs)
  else
    let c' := with_cache c (<[key := conds]> (m_cache c)) in
    if saveToDisk
    then let '(r, fs') := SaveToDisk fs c' key conds in (r, c', fs')
    else (Ret true, c', fs).

Definition LoadFromDisk (junk : nat -> Z) (fs : FileSystem) (c : t) (key : string)
  : outcome bool * t :=
  match VoiceConditionals.Load junk fs (GetCachePath c key) with
  | Abort e => (Abort e, c)
  | Ret None => (Ret false, c)
  | Ret (Some conds) => (Ret true, with_cache c (<[key := conds]> (m_cache c)))
  end.

(** [ExtractKey] takes apart what the user wrote, so by the rules of the
    Windows build. *)
Definition ExtractKey (pathOrKey : string) : string :=
  if NativePath.has_extension pathOrKey then NativePath.stem pathOrKey
  else if NativePath.has_parent_path pathOrKey then NativePath.filename pathOrKey
  else pathOrKey.

(** [Remove]: [removable path] tells whether the operating system lets
    [fs::remove] take the path away (a file in a directory that can be
    written, a directory that is empty). *)
Definition Remove (removable : string -> bool) (fs : FileSystem) (c : t)
    (key : string) : bool * t * FileSystem :=
  let removedFromMemory := Has c key in
  let c' := if removedFromMemory then with_cache c (delete key (m_cache c)) else c in
  let path := GetCachePath c key in
  let removedFromDisk := fs_exists fs path && removable path in
  (removedFromMemory || removedFromDisk, c',
   if removedFromDisk then fs_remove fs path else fs).

Definition ClearMemory (c : t) : t := with_cache c ∅.

Definition Size (c : t) : Z := Z.of_nat (size (m_cache c)).

(** [GetKeys]: the keys in the order in which the map is traversed, which
    the program does not control. *)
Definition GetKeys (c : t) : list string := (map_to_list (m_cache c)).*1.

(** The loop of [Clear] over the entries of the cache directory. *)
Fixpoint clear_entries (removable : string -> bool) (fs : FileSystem)
    (entries : list string) : FileSystem :=
  match entries with
  | [] => fs
  | entry :: entries' =>
      if is_regular_file fs entry && String.eqb (Path.extension entry) ".cond"
      then clear_entries removable
             (if removable entry then fs_remove fs entry else fs) entries'
      else clear_entries removable fs entries'
  end.

(** [Clear]: [list_dir d] is what [fs::directory_iterator(d)] yields; the
    iterator throws when the cache directory is a file. *)
Definition Clear (removable : string -> bool) (list_dir : string -> list string)
    (fs : FileSystem) (c : t) : outcome unit * t * FileSystem :=
  let c' := ClearMemory c in
  if fs_exists fs (m_cacheDir c)
  then if bool_decide (m_cacheDir c ∈ fs_dirs fs)
       then (Ret tt, c', clear_entries removable fs (list_dir (m_cacheDir c)))
       else (Abort FilesystemError, c', fs)
  else (Ret tt, c', fs).

(** The loop of [LoadAllFromDisk], [loaded] files having been loaded so
    far. *)
Fixpoint load_entries (junk : nat -> Z) (fs : FileSystem) (c : t)
    (entries : list string) (loaded : Z) : outcome Z * t :=
  match entries with
  | [] => (Ret loaded, c)
  | entry :: entries' =>
      if is_regular_file fs entry && String.eqb (Path.extension entry) ".cond"
      then match LoadFromDisk junk fs c (Path.stem entry) with
           | (Abort a, c') => (Abort a, c')
           | (Ret true, c') => load_entries junk fs c' entries' (loaded + 1)
           | (Ret false, c') => load_entries junk fs c' entries' loaded
           end
      else load_entries junk fs c entries' loaded
  end.

Definition LoadAllFromDisk (junk : nat -> Z) (list_dir : string -> list string)
    (fs : FileSystem) (c : t) : outcome Z * t :=
  if negb (fs_exists fs (m_cacheDir c)) then (Ret 0, c)
  else if bool_decide (m_cacheDir c ∈ fs_dirs fs)
  then load_entries junk fs c (list_dir (m_cacheDir c)) 0
  else (Abort FilesystemError, c).

End VoiceConditionalsCache.

(** ** OnnxSessionManager *)

(** An [Ort::Session] is known by the model file it was created from. *)
Record Session : Type := { session_model : string }.

#[global] Instance Session_eq_dec : EqDecision Session.
Proof. solve_decision. Defined.

Module OnnxSessionManager.

Record t : Type := { m_sessions : gmap string Session }.

Definition IsModelLoaded (sm : t) (name : string) : bool :=
  bool_decide (is_Some (m_sessions sm !! name)).

Definition GetSession (sm : t) (name : string) : option Session :=
  m_sessions sm !! name.

(** [create modelPath] is the [Ort::Session] constructor, [None] when it
    throws [Ort::Exception]. *)
Definition LoadModel (create : string -> option Session) (fs : FileSystem)
    (sm : t) (modelPath name : string) : outcome bool * t :=
  if IsModelLoaded sm name then (Ret true, sm)
  else if negb (fs_exists fs modelPath)
  then (Abort (RuntimeError ("Model file not found: " ++ modelPath)), sm)
  else match create modelPath with
       | Some session =>
           (Ret true, {| m_sessions := <[name := session]> (m_sessions sm) |})
       | None =>
           (Abort (RuntimeError ("Failed to load model '" ++ name ++ "'")), sm)
       end.

End OnnxSessionManager.

(** ** AudioData *)

Module AudioData.

Record t : Type := {
  samples : list Z;       (* float bit patterns *)
  sampleRate : Z;
  channels : Z
}.

Definition GetDuration (a : t) : spec_float :=
  if sampleRate a <=? 0 then F32.zero
  else F32.div (F32.of_Z (Z.of_nat (length (samples a)))) (F32.of_Z (sampleRate a)).

End AudioData.

(** ** The collaborators of the engine *)

Record Tensor : Type := {
  tensor_data : list Z;
  tensor_shape : list Z
}.

Record GenerationConfig : Type := {
  maxNewTokens : Z;
  repetitionPenalty : spec_float;
  temperature : spec_float;
  topK : Z;
  topP : spec_float;
  normalizeAudio : bool;
  seed : Z
}.

(** The tensors bound to the named inputs of the language model at one
    step.  The key/value cache that accompanies them is the output of the
    previous runs and so a function of the steps before. *)
Record LmInputs : Type := {
  embedsShape : list Z;
  attentionMask : list Z;
  maskShape : list Z;
  positionIds : list Z;
  posShape : list Z
}.

Record Runtime : Type := {
  (* Ort::Value::CreateTensor on a buffer of that many elements with that
     shape: false when it throws Ort::Exception *)
  create_tensor : nat -> list Z -> bool;
  (* AudioLoader::LoadFile at 24 kHz, normalised *)
  LoadFile : string -> option AudioData.t;
  (* speech_encoder session: its outputs, None for Ort::Exception *)
  speech_encoder : list Z -> option (list Tensor);
  (* when it is None: the outputs the session had returned and the number
     of assignments to m_conds made before the exception, none of either
     when Run itself threw *)
  speech_encoder_thrown : list Z -> list Tensor * nat;
  (* RunEmbedTokens: the embeddings, empty when the session failed *)
  RunEmbedTokens : list Z -> list Z;
  (* language_model session: its input names, and after [history] the
     logits of the last position, None for Ort::Exception *)
  lm_input_names : list string;
  language_model : list Z -> LmInputs -> option (list spec_float);
  (* temperature, top-k, top-p, softmax and SampleToken on the penalised
     logits, with the state of m_rng before and after *)
  sample : GenerationConfig -> list spec_float -> Z -> Z * Z;
  (* std::mt19937::seed *)
  rng_seed : Z -> Z;
  (* conditional_decoder session: its input names and its audio output *)
  decoder_input_names : list string;
  conditional_decoder : list (string * Tensor) -> option (list Z)
}.

(** ** TensorUtils *)

Module TensorUtils.

(** [GetElementCount]: the product is taken in [size_t], each dimension
    cast to it. *)
Definition GetElementCount (shape : list Z) : Z :=
  if VoiceConditionals.is_empty shape then 0
  else if existsb (Z.eqb 0) shape then 0
  else fold_left (fun a b => (a * (b mod 2 ^ 64)) mod 2 ^ 64) shape 1.

(** [ExtractFloatSlice] on a tensor of floats with the elements [data];
    [offset] and [count] are [size_t].  When their sum wraps around, the
    bounds check passes and the copy starts outside of the tensor. *)
Definition ExtractFloatSlice (data : list Z) (offset count : Z)
  : outcome (list Z) :=
  let totalCount := Z.of_nat (length data) in
  let count' :=
    if totalCount <? (offset + count) mod 2 ^ 64
    then if offset <? totalCount then totalCount - offset else 0
    else count in
  if count' =? 0 then Ret []
  else if totalCount <? offset + count'
  then Abort BufferOverrun
  else Ret (take (Z.to_nat count') (drop (Z.to_nat offset) data)).

End TensorUtils.

(** ** ChatterboxTTS *)

Module ChatterboxTTS.

Definition SAMPLE_RATE : Z := 24000.
Definition START_SPEECH_TOKEN : Z := 6561.
Definition STOP_SPEECH_TOKEN : Z := 6562.
Definition SILENCE_TOKEN : Z := 4299.

Definition SPEECH_ENCODER : string := "speech_encoder".
Definition EMBED_TOKENS : string := "embed_tokens".
Definition LANGUAGE_MODEL : string := "language_model".
Definition COND_DECODER : string := "conditional_decoder".

(** The texts that end up in [m_lastError]. *)
Inductive error_text : Type :=
  | NoError
  | ModelsNotLoaded
  | FailedToLoadAudio
  | AudioPromptTooShort (duration : spec_float)
  | SpeechEncoderNotLoaded
  | EncoderUnexpectedOutputs
  | OrtErrorSpeechEncoder
  | ConditionalsNotPrepared
  | NoInputTokens
  | RequiredSessionNotLoaded
  | FailedTextEmbeddings
  | FailedTokenEmbedding
  | OrtErrorLanguageModel
  | UnknownDecoderInput (name : string)
  | OrtErrorDecoder.

Record t : Type := {
  m_sessionManager : OnnxSessionManager.t;
  m_modelsLoaded : bool;
  m_dtype : string;
  m_conds : VoiceConditionals.t;
  m_rng : Z;
  m_lastError : error_text
}.

Definition set_lastError (e : t) (msg : error_text) : t :=
  {| m_sessionManager := m_sessionManager e; m_modelsLoaded := m_modelsLoaded e;
     m_dtype := m_dtype e; m_conds := m_conds e; m_rng := m_rng e;
     m_lastError := msg |}.

Definition set_conds (e : t) (c : VoiceConditionals.t) : t :=
  {| m_sessionManager := m_sessionManager e; m_modelsLoaded := m_modelsLoaded e;
     m_dtype := m_dtype e; m_conds := c; m_rng := m_rng e;
     m_lastError := m_lastError e |}.

Definition set_rng (e : t) (r : Z) : t :=
  {| m_sessionManager := m_sessionManager e; m_modelsLoaded := m_modelsLoaded e;
     m_dtype := m_dtype e; m_conds := m_conds e; m_rng := r;
     m_lastError := m_lastError e |}.

Definition IsReady (e : t) : bool :=
  m_modelsLoaded e
  && OnnxSessionManager.IsModelLoaded (m_sessionManager e) SPEECH_ENCODER
  && OnnxSessionManager.IsModelLoaded (m_sessionManager e) EMBED_TOKENS
  && OnnxSessionManager.IsModelLoaded (m_sessionManager e) LANGUAGE_MODEL
  && OnnxSessionManager.IsModelLoaded (m_sessionManager e) COND_DECODER.

Definition SetConditionals (e : t) (conds : VoiceConditionals.t) : t :=
  set_conds e conds.

(** What a call asked of the collaborators, in order. *)
Inductive call : Type :=
  | CallLoadFile (path : string)
  | CallSpeechEncoder (audio : list Z).

(** One assignment to a field of [m_conds]. *)
Definition assign_condEmb (x : list Z) (v : VoiceConditionals.t)
  : VoiceConditionals.t :=
  {| VoiceConditionals.condEmb := x;
     VoiceConditionals.promptToken := VoiceConditionals.promptToken v;
     VoiceConditionals.speakerEmbeddings := VoiceConditionals.speakerEmbeddings v;
     VoiceConditionals.speakerFeatures := VoiceConditionals.speakerFeatures v;
     VoiceConditionals.condEmbShape := VoiceConditionals.condEmbShape v;
     VoiceConditionals.promptTokenShape := VoiceConditionals.promptTokenShape v;
     VoiceConditionals.speakerEmbeddingsShape := VoiceConditionals.speakerEmbeddingsShape v;
     VoiceConditionals.speakerFeaturesShape := VoiceConditionals.speakerFeaturesShape v |}.

Definition assign_promptToken (x : list Z) (v : VoiceConditionals.t)
  : VoiceConditionals.t :=
  {| VoiceConditionals.condEmb := VoiceConditionals.condEmb v;
     VoiceConditionals.promptToken := x;
     VoiceConditionals.speakerEmbeddings := VoiceConditionals.speakerEmbeddings v;
     VoiceConditionals.speakerFeatures := VoiceConditionals.speakerFeatures v;
     VoiceConditionals.condEmbShape := VoiceConditionals.condEmbShape v;
     VoiceConditionals.promptTokenShape := VoiceConditionals.promptTokenShape v;
     VoiceConditionals.speakerEmbeddingsShape := VoiceConditionals.speakerEmbeddingsShape v;
     VoiceConditionals.speakerFeaturesShape := VoiceConditionals.speakerFeaturesShape v |}.

Definition assign_speakerEmbeddings (x : list Z) (v : VoiceConditionals.t)
  : VoiceConditionals.t :=
  {| VoiceConditionals.condEmb := VoiceConditionals.condEmb v;
     VoiceConditionals.promptToken := VoiceConditionals.promptToken v;
     VoiceConditionals.speakerEmbeddings := x;
     VoiceConditionals.speakerFeatures := VoiceConditionals.speakerFeatures v;
     VoiceConditionals.condEmbShape := VoiceConditionals.condEmbShape v;
     VoiceConditionals.promptTokenShape := VoiceConditionals.promptTokenShape v;
     VoiceConditionals.speakerEmbeddingsShape := VoiceConditionals.speakerEmbeddingsShape v;
     VoiceConditionals.speakerFeaturesShape := VoiceConditionals.speakerFeaturesShape v |}.

Definition assign_speakerFeatures (x : list Z) (v : VoiceConditionals.t)
  : VoiceConditionals.t :=
  {| VoiceConditionals.condEmb := VoiceConditionals.condEmb v;
     VoiceConditionals.promptToken := VoiceConditionals.promptToken v;
     VoiceConditionals.speakerEmbeddings := VoiceConditionals.speakerEmbeddings v;
     VoiceConditionals.speakerFeatures := x;
     VoiceConditionals.condEmbShape := VoiceConditionals.condEmbShape v;
     VoiceConditionals.promptTokenShape := VoiceConditionals.promptTokenShape v;
     VoiceConditionals.speakerEmbeddingsShape := VoiceConditionals.speakerEmbeddingsShape v;
     VoiceConditionals.speakerFeaturesShape := VoiceConditionals.speakerFeaturesShape v |}.

Definition assign_condEmbShape (x : list Z) (v : VoiceConditionals.t)
  : VoiceConditionals.t :=
  {| VoiceConditionals.condEmb := VoiceConditionals.condEmb v;
     VoiceConditionals.promptToken := VoiceConditionals.promptToken v;
     VoiceConditionals.speakerEmbeddings := VoiceConditionals.speakerEmbeddings v;
     VoiceConditionals.speakerFeatures := VoiceConditionals.speakerFeatures v;
     VoiceConditionals.condEmbShape := x;
     VoiceConditionals.promptTokenShape := VoiceConditionals.promptTokenShape v;
     VoiceConditionals.speakerEmbeddingsShape := VoiceConditionals.speakerEmbeddingsShape v;
     VoiceConditionals.speakerFeaturesShape := VoiceConditionals.speakerFeaturesShape v |}.

Definition assign_promptTokenShape (x : list Z) (v : VoiceConditionals.t)
  : VoiceConditionals.t :=
  {| VoiceConditionals.condEmb := VoiceConditionals.condEmb v;
     VoiceConditionals.promptToken := VoiceConditionals.promptToken v;
     VoiceConditionals.speakerEmbeddings := VoiceConditionals.speakerEmbeddings v;
     VoiceConditionals.speakerFeatures := VoiceConditionals.speakerFeatures v;
     VoiceConditionals.condEmbShape := VoiceConditionals.condEmbShape v;
     VoiceConditionals.promptTokenShape := x;
     VoiceConditionals.speakerEmbeddingsShape := VoiceConditionals.speakerEmbeddingsShape v;
     VoiceConditionals.speakerFeaturesShape := VoiceConditionals.speakerFeaturesShape v |}.

Definition assign_speakerEmbeddingsShape (x : list Z) (v : VoiceConditionals.t)
  : VoiceConditionals.t :=
  {| VoiceConditionals.condEmb := VoiceConditionals.condEmb v;
     VoiceConditionals.promptToken := VoiceConditionals.promptToken v;
     VoiceConditionals.speakerEmbeddings := VoiceConditionals.speakerEmbeddings v;
     VoiceConditionals.speakerFeatures := VoiceConditionals.speakerFeatures v;
     VoiceConditionals.condEmbShape := VoiceConditionals.condEmbShape v;
     VoiceConditionals.promptTokenShape := VoiceConditionals.promptTokenShape v;
     VoiceConditionals.speakerEmbeddingsShape := x;
     VoiceConditionals.speakerFeaturesShape := VoiceConditionals.speakerFeaturesShape v |}.

Definition assign_speakerFeaturesShape (x : list Z) (v : VoiceConditionals.t)
  : VoiceConditionals.t :=
  {| VoiceConditionals.condEmb := VoiceConditionals.condEmb v;
     VoiceConditionals.promptToken := VoiceConditionals.promptToken v;
     VoiceConditionals.speakerEmbeddings := VoiceConditionals.speakerEmbeddings v;
     VoiceConditionals.speakerFeatures := VoiceConditionals.speakerFeatures v;
     VoiceConditionals.condEmbShape := VoiceConditionals.condEmbShape v;
     VoiceConditionals.promptTokenShape := VoiceConditionals.promptTokenShape v;
     VoiceConditionals.speakerEmbeddingsShape := VoiceConditionals.speakerEmbeddingsShape v;
     VoiceConditionals.speakerFeaturesShape := x |}.

(** The eight assignments of [RunSpeechEncoder], in the order of the
    source: the data and the shape of each of the four outputs. *)
Definition assignments (o0 o1 o2 o3 : Tensor)
  : list (VoiceConditionals.t -> VoiceConditionals.t) :=
  [ assign_condEmb (tensor_data o0);
    assign_condEmbShape (tensor_shape o0);
    assign_promptToken (tensor_data o1);
    assign_promptTokenShape (tensor_shape o1);
    assign_speakerEmbeddings (tensor_data o2);
    assign_speakerEmbeddingsShape (tensor_shape o2);
    assign_speakerFeatures (tensor_data o3);
    assign_speakerFeaturesShape (tensor_shape o3) ].

(** [m_conds] after the first [k] of them. *)
Definition assign_first (k : nat) (o0 o1 o2 o3 : Tensor) (v : VoiceConditionals.t)
  : VoiceConditionals.t :=
  fold_left (fun v f => f v) (take k (assignments o0 o1 o2 o3)) v.

(** [m_conds] when the [try] block of [RunSpeechEncoder] was left by an
    exception.  Fewer than four outputs are not read at all; of four or
    more, the assignment that threw was not made, so seven were made at
    most. *)
Definition interrupted (thrown : list Tensor * nat) (v : VoiceConditionals.t)
  : VoiceConditionals.t :=
  match thrown with
  | (o0 :: o1 :: o2 :: o3 :: _, k) => assign_first (Nat.min k 7) o0 o1 o2 o3 v
  | _ => v
  end.

(** [RunSpeechEncoder].  The fields of [m_conds] are assigned one after the
    other inside the [try] block: an exception while an output is read is
    caught with the assignments before it made already. *)
Definition RunSpeechEncoder (rt : Runtime) (e : t) (audio : list Z)
  : bool * t * list call :=
  match OnnxSessionManager.GetSession (m_sessionManager e) SPEECH_ENCODER with
  | None => (false, set_lastError e SpeechEncoderNotLoaded, [])
  | Some _ =>
      match speech_encoder rt audio with
      | None =>
          (false,
           set_lastError
             (set_conds e (interrupted (speech_encoder_thrown rt audio) (m_conds e)))
             OrtErrorSpeechEncoder,
           [CallSpeechEncoder audio])
      | Some (o0 :: o1 :: o2 :: o3 :: _) =>
          (true,
           set_conds e
             {| VoiceConditionals.condEmb := tensor_data o0;
                VoiceConditionals.promptToken := tensor_data o1;
                VoiceConditionals.speakerEmbeddings := tensor_data o2;
                VoiceConditionals.speakerFeatures := tensor_data o3;
                VoiceConditionals.condEmbShape := tensor_shape o0;
                VoiceConditionals.promptTokenShape := tensor_shape o1;
                VoiceConditionals.speakerEmbeddingsShape := tensor_shape o2;
                VoiceConditionals.speakerFeaturesShape := tensor_shape o3 |},
           [CallSpeechEncoder audio])
      | Some _ =>
          (false, set_lastError e EncoderUnexpectedOutputs,
           [CallSpeechEncoder audio])
      end
  end.

Definition PrepareConditionals (rt : Runtime) (e : t) (audioPath : string)
  : bool * t * list call :=
  let e0 := set_lastError e NoError in
  if negb (IsReady e0) then (false, set_lastError e0 ModelsNotLoaded, [])
  else
    match LoadFile rt audioPath with
    | None => (false, set_lastError e0 FailedToLoadAudio, [CallLoadFile audioPath])
    | Some audioData =>
        let duration := AudioData.GetDuration audioData in
        if F32.ltb duration F32.five
        then (false, set_lastError e0 (AudioPromptTooShort duration),
              [CallLoadFile audioPath])
        else
          let '(r, e1, calls) :=
            RunSpeechEncoder rt e0 (AudioData.samples audioData) in
          (r, e1, CallLoadFile audioPath :: calls)
    end.

(** *** Logit post-processing *)

Definition penalize (penalty x : spec_float) : spec_float :=
  if F32.ltb x F32.zero then F32.mul x penalty else F32.div x penalty.

(** One turn of the loop over [generatedTokens]. *)
Definition penalty_step (penalty : spec_float) (logits : list spec_float)
    (token : Z) : list spec_float :=
  if (0 <=? token) && (token <? Z.of_nat (length logits))
  then match logits !! Z.to_nat token with
       | Some x => <[Z.to_nat token := penalize penalty x]> logits
       | None => logits
       end
  else logits.

Definition ApplyRepetitionPenalty (logits : list spec_float)
    (generatedTokens : list Z) (penalty : spec_float) : list spec_float :=
  if F32.eqb penalty F32.one then logits
  else fold_left (penalty_step penalty) generatedTokens logits.

(** *** The generation loop *)

(** The locals of [Generate] that live across iterations. *)
Record loop_state : Type := {
  generatedTokens : list Z;
  currentPosition : Z;
  attention : list Z;          (* the attentionMask vector *)
  positions : list Z;          (* the positionIds vector *)
  rng : Z
}.

(** The input tensors are created in the order of the input names of the
    model, before the [try] block of the run; a name of the key/value cache
    takes the tensor of the previous run or an empty one. *)
Definition lm_tensors_created (rt : Runtime) (embedsLength : nat) (ins : LmInputs)
  : bool :=
  forallb
    (fun name =>
       if String.eqb name "inputs_embeds"
       then create_tensor rt embedsLength (embedsShape ins)
       else if String.eqb name "attention_mask"
       then create_tensor rt (length (attentionMask ins)) (maskShape ins)
       else if String.eqb name "position_ids"
       then create_tensor rt (length (positionIds ins)) (posShape ins)
       else true)
    (lm_input_names rt).

Inductive step_end : Type :=
  | Failed (msg : error_text)      (* m_lastError set, return {} *)
  | Thrown (a : abort)
  | Stopped (st : loop_state)      (* the stop token was sampled: break *)
  | Continue (st : loop_state).

(** The body of the [for] loop at [step]; with it, the inputs built for
    the language model when the body got that far. *)
Definition loop_body (rt : Runtime) (config : GenerationConfig)
    (conds : VoiceConditionals.t) (textEmbeddings : list Z)
    (condSeqLen textSeqLen hiddenSize : Z) (step : nat) (st : loop_state)
  : option LmInputs * step_end :=
  let seqLen := if Nat.eqb step 0 then add64 condSeqLen textSeqLen else 1 in
  let inputsEmbeds :=
    if Nat.eqb step 0 then VoiceConditionals.condEmb conds ++ textEmbeddings
    else RunEmbedTokens rt (option_list (last (generatedTokens st))) in
  if negb (Nat.eqb step 0) && VoiceConditionals.is_empty inputsEmbeds
  then (None, Failed FailedTokenEmbedding)
  else
    let totalSeqLen :=
      if Nat.eqb step 0 then seqLen else add64 (currentPosition st) seqLen in
    if negb (vector_fits 8 totalSeqLen) then (None, Thrown LengthError)
    else
      let attentionMask' :=
        if Nat.eqb step 0 then replicate (Z.to_nat totalSeqLen) 1
        else resize (Z.to_nat totalSeqLen) 1 (attention st) in
      if negb (vector_fits 8 seqLen) then (None, Thrown LengthError)
      else
        let positionIds' :=
          (fun i => add64 (currentPosition st) i) <$> seqZ 0 seqLen in
        let inputs :=
          {| embedsShape := [1; seqLen; hiddenSize];
             attentionMask := attentionMask';
             maskShape := [1; totalSeqLen];
             positionIds := positionIds';
             posShape := [1; seqLen] |} in
        if negb (lm_tensors_created rt (length inputsEmbeds) inputs)
        then (None, Thrown OrtException)
        else
        match language_model rt (generatedTokens st) inputs with
        | None => (Some inputs, Failed OrtErrorLanguageModel)
        | Some nextLogits =>
            let penalised :=
              ApplyRepetitionPenalty nextLogits (generatedTokens st)
                (repetitionPenalty config) in
            let '(nextToken, rng') := sample rt config penalised (rng st) in
            let generated' := generatedTokens st ++ [nextToken] in
            if nextToken =? STOP_SPEECH_TOKEN
            then (Some inputs,
                  Stopped {| generatedTokens := generated';
                             currentPosition := currentPosition st;
                             attention := attentionMask';
                             positions := positionIds';
                             rng := rng' |})
            else (Some inputs,
                  Continue {| generatedTokens := generated';
                              currentPosition := add64 (currentPosition st) seqLen;
                              attention := attentionMask';
                              positions := positionIds';
                              rng := rng' |})
        end.

(** How the loop was left, with the locals at that point. *)
Inductive loop_end : Type :=
  | LoopFailed (msg : error_text) (st : loop_state)
  | LoopThrown (a : abort) (st : loop_state)
  | LoopDone (st : loop_state).

(** [for (int step = 0; step < config.maxNewTokens; ++step)]: [remaining]
    iterations are left when [step] is entered.  The language-model inputs
    of the iterations that ran are returned oldest first. *)
Fixpoint generation_loop (rt : Runtime) (config : GenerationConfig)
    (conds : VoiceConditionals.t) (textEmbeddings : list Z)
    (condSeqLen textSeqLen hiddenSize : Z)
    (remaining : nat) (step : nat) (st : loop_state)
  : list LmInputs * loop_end :=
  match remaining with
  | O => ([], LoopDone st)
  | S remaining' =>
      match loop_body rt config conds textEmbeddings condSeqLen textSeqLen
              hiddenSize step st with
      | (ins, Failed msg) => (option_list ins, LoopFailed msg st)
      | (ins, Thrown a) => (option_list ins, LoopThrown a st)
      | (ins, Stopped st') => (option_list ins, LoopDone st')
      | (ins, Continue st') =>
          let '(tr, r) :=
            generation_loop rt config conds textEmbeddings condSeqLen
              textSeqLen hiddenSize remaining' (S step) st' in
          (option_list ins ++ tr, r)
      end
  end.

(** *** Assembling the decoder input *)

Definition speech_tokens_of (generated : list Z) : list Z :=
  let size := length generated in
  let endIdx :=
    if Nat.ltb 0 size && bool_decide (generated !! (size - 1)%nat = Some STOP_SPEECH_TOKEN)
    then (size - 1)%nat else size in
  omap (fun i => generated !! i) (seq 1 (endIdx - 1))
    ++ replicate 3 SILENCE_TOKEN.

Definition decoder_tokens_of (conds : VoiceConditionals.t) (generated : list Z)
  : list Z :=
  VoiceConditionals.promptToken conds ++ speech_tokens_of generated.

Inductive decoder_build : Type :=
  | DecoderInputs (l : list (string * Tensor))
  | UnknownInput (name : string)
  | CreateTensorThrew.

(** The tensors for the decoder, created in the order of its input names,
    up to the first name that is none of the three or the first tensor that
    cannot be created. *)
Fixpoint decoder_inputs (rt : Runtime) (conds : VoiceConditionals.t)
    (decoderTokens : list Z) (names : list string) : decoder_build :=
  match names with
  | [] => DecoderInputs []
  | name :: names' =>
      let bind (x : Tensor) :=
        if negb (create_tensor rt (length (tensor_data x)) (tensor_shape x))
        then CreateTensorThrew
        else match decoder_inputs rt conds decoderTokens names' with
             | DecoderInputs l => DecoderInputs ((name, x) :: l)
             | other => other
             end in
      if String.eqb name "speech_tokens"
      then bind {| tensor_data := decoderTokens;
                   tensor_shape := [1; Z.of_nat (length decoderTokens)] |}
      else if String.eqb name "speaker_embeddings"
      then bind {| tensor_data := VoiceConditionals.speakerEmbeddings conds;
                   tensor_shape := VoiceConditionals.speakerEmbeddingsShape conds |}
      else if String.eqb name "speaker_features"
      then bind {| tensor_data := VoiceConditionals.speakerFeatures conds;
                   tensor_shape := VoiceConditionals.speakerFeaturesShape conds |}
      else UnknownInput name
  end.

(** *** Generate *)

Record result : Type := {
  returned : outcome (list Z);        (* the audio, [] after a failure *)
  engine : t;
  lm_calls : list LmInputs;           (* one entry per language-model run *)
  generated : list Z;                 (* generatedTokens when it returned *)
  decoder_call : option (list (string * Tensor))
}.

Definition fail_with (e : t) (msg : error_text) (calls : list LmInputs)
    (tokens : list Z) : result :=
  {| returned := Ret []; engine := set_lastError e msg; lm_calls := calls;
     generated := tokens; decoder_call := None |}.

Definition throw_with (e : t) (a : abort) (calls : list LmInputs)
    (tokens : list Z) : result :=
  {| returned := Abort a; engine := e; lm_calls := calls;
     generated := tokens; decoder_call := None |}.

Definition Generate (rt : Runtime) (e : t) (tokenIds : list Z)
    (config : GenerationConfig) : result :=
  let e0 := set_lastError e NoError in
  if negb (IsReady e0) then fail_with e0 ModelsNotLoaded [] []
  else if negb (VoiceConditionals.IsValid (m_conds e0))
  then fail_with e0 ConditionalsNotPrepared [] []
  else if VoiceConditionals.is_empty tokenIds
  then fail_with e0 NoInputTokens [] []
  else
    let e1 := if seed config =? 0 then e0 else set_rng e0 (rng_seed rt (seed config)) in
    let sm := m_sessionManager e1 in
    match OnnxSessionManager.GetSession sm LANGUAGE_MODEL,
          OnnxSessionManager.GetSession sm EMBED_TOKENS,
          OnnxSessionManager.GetSession sm COND_DECODER with
    | Some _, Some _, Some _ =>
        let conds := m_conds e1 in
        let start := [START_SPEECH_TOKEN] in
        let condSeqLen := default 0 (VoiceConditionals.condEmbShape conds !! 1%nat) in
        let hiddenSize := default 0 (VoiceConditionals.condEmbShape conds !! 2%nat) in
        let textSeqLen := Z.of_nat (length tokenIds) in
        let promptLen := add64 condSeqLen textSeqLen in
        if negb (vector_fits 8 (add64 promptLen (maxNewTokens config)))
           || negb (vector_fits 8 (Z.max promptLen 1))
           || negb (vector_fits 4 (mul64 promptLen hiddenSize))
        then throw_with e1 LengthError [] start
        else
          let textEmbeddings := RunEmbedTokens rt tokenIds in
          if VoiceConditionals.is_empty textEmbeddings
          then fail_with e1 FailedTextEmbeddings [] start
          else
            let st0 :=
              {| generatedTokens := start; currentPosition := 0;
                 attention := []; positions := []; rng := m_rng e1 |} in
            match generation_loop rt config conds textEmbeddings condSeqLen
                    textSeqLen hiddenSize (Z.to_nat (maxNewTokens config)) 0 st0 with
            | (calls, LoopFailed msg st) =>
                fail_with (set_rng e1 (rng st)) msg calls (generatedTokens st)
            | (calls, LoopThrown a st) =>
                throw_with (set_rng e1 (rng st)) a calls (generatedTokens st)
            | (calls, LoopDone st) =>
                let e2 := set_rng e1 (rng st) in
                let decoderTokens := decoder_tokens_of conds (generatedTokens st) in
                match decoder_inputs rt conds decoderTokens (decoder_input_names rt) with
                | UnknownInput bad =>
                    fail_with e2 (UnknownDecoderInput bad) calls (generatedTokens st)
                | CreateTensorThrew =>
                    throw_with e2 OrtException calls (generatedTokens st)
                | DecoderInputs decoderInputs =>
                    match conditional_decoder rt decoderInputs with
                    | None =>
                        {| returned := Ret [];
                           engine := set_lastError e2 OrtErrorDecoder;
                           lm_calls := calls; generated := generatedTokens st;
                           decoder_call := Some decoderInputs |}
                    | Some audioOutput =>
                        {| returned := Ret audioOutput; engine := e2;
                           lm_calls := calls; generated := generatedTokens st;
                           decoder_call := Some decoderInputs |}
                    end
                end
            end
    | _, _, _ => fail_with e1 RequiredSessionNotLoaded [] []
    end.

(** *** Sampling *)

(** The loop of [SampleToken] from index [i] on, [cumSum] being the sum of
    the probabilities before it. *)
Fixpoint sample_scan (r cumSum : spec_float) (i : Z) (probs : list spec_float)
  : option Z :=
  match probs with
  | [] => None
  | p :: probs' =>
      let cumSum' := F32.add cumSum p in
      if F32.leb r cumSum' then Some i else sample_scan r cumSum' (i + 1) probs'
  end.

(** [SampleToken], [r] being the number drawn from [m_rng].  The fallback
    computes [probs.size() - 1] in [size_t] and casts it to [int64_t]. *)
Definition SampleToken (r : spec_float) (probs : list spec_float) : Z :=
  match sample_scan r F32.zero 0 probs with
  | Some i => i
  | None => to_signed64 (Z.of_nat (length probs) - 1)
  end.

(** *** Top-k filtering *)

Definition is_nan (x : spec_float) : bool :=
  match x with S754_nan => true | _ => false end.

(** The values in the order of the comparison [logits[a] > logits[b]],
    largest first. *)
Fixpoint insert_desc (x : spec_float) (l : list spec_float) : list spec_float :=
  match l with
  | [] => [x]
  | y :: r => if F32.ltb y x then x :: l else y :: insert_desc x r
  end.
Definition sort_desc (l : list spec_float) : list spec_float :=
  fold_right insert_desc [] l.

(** [static_cast<int>] of a [size_t]. *)
Definition to_int (n : Z) : Z := (n + 2 ^ 31) mod 2 ^ 32 - 2 ^ 31.

(** [ApplyTopK]: the threshold is the value that [std::partial_sort]
    leaves at position [k - 1], the k-th largest.  With a NaN among the
    logits the comparison is no ordering and the sort is not defined:
    [None]. *)
Definition ApplyTopK (logits : list spec_float) (k : Z)
  : option (list spec_float) :=
  if (k <=? 0) || (to_int (Z.of_nat (length logits)) <=? k) then Some logits
  else if existsb is_nan logits then None
  else
    let threshold := default F32.zero (sort_desc logits !! Z.to_nat (k - 1)) in
    Some ((fun logit => if F32.ltb logit threshold then S754_infinity true
                        else logit) <$> logits).

(** *** Loading the models *)

Definition GetModelFilename (name dtype : string) : string :=
  if String.eqb dtype "fp32" then (name ++ ".onnx")%string
  else if String.eqb dtype "q8" then (name ++ "_quantized.onnx")%string
  else if String.eqb dtype "q4" then (name ++ "_q4.onnx")%string
  else if String.eqb dtype "q4f16" then (name ++ "_q4f16.onnx")%string
  else (name ++ "_" ++ dtype ++ ".onnx")%string.

(** The texts that [LoadModels] leaves in [m_lastError]; [error_text]
    lists those of the calls above, so the model of [LoadModels] returns
    its text beside the engine. *)
Inductive load_error : Type :=
  | ModelsDirectoryNotFound (pattern1 pattern2 pattern3 : string)
  | ModelFileNotFound (modelPath : string)
  | FailedToLoadModel (name : string).

(** The loop over the entries of the snapshots directory: the first
    directory with an [onnx] entry in it. *)
Fixpoint find_snapshot (fs : FileSystem) (entries : list string) : string :=
  match entries with
  | [] => ""
  | entry :: entries' =>
      if bool_decide (entry ∈ fs_dirs fs) && fs_exists fs (Path.append entry "onnx")
      then Path.append entry "onnx"
      else find_snapshot fs entries'
  end.

(** The loop over the four model names. *)
Fixpoint load_each (create : string -> option Session) (fs : FileSystem)
    (onnxDir dtype : string) (names : list string) (sm : OnnxSessionManager.t)
  : outcome (option load_error) * OnnxSessionManager.t :=
  match names with
  | [] => (Ret None, sm)
  | name :: names' =>
      let modelPath := Path.append onnxDir (GetModelFilename name dtype) in
      if negb (fs_exists fs modelPath)
      then (Ret (Some (ModelFileNotFound modelPath)), sm)
      else match OnnxSessionManager.LoadModel create fs sm modelPath name with
           | (Abort a, sm') => (Abort a, sm')
           | (Ret false, sm') => (Ret (Some (FailedToLoadModel name)), sm')
           | (Ret true, sm') => load_each create fs onnxDir dtype names' sm'
           end
  end.

Definition modelNames : list string :=
  [SPEECH_ENCODER; EMBED_TOKENS; LANGUAGE_MODEL; COND_DECODER].

(** [LoadModels]: [list_dir d] is what [fs::directory_iterator(d)] yields,
    in its order.  The session manager is made anew, so the sessions of an
    earlier call are gone whatever happens next. *)
Definition LoadModels (create : string -> option Session)
    (list_dir : string -> list string) (fs : FileSystem) (e : t)
    (modelDir dtype : string) : outcome bool * t * option load_error :=
  let with_models (sm : OnnxSessionManager.t) (loaded : bool) (d : string) : t :=
    {| m_sessionManager := sm; m_modelsLoaded := loaded; m_dtype := d;
       m_conds := m_conds e; m_rng := m_rng e; m_lastError := NoError |} in
  let sm0 := {| OnnxSessionManager.m_sessions := ∅ |} in
  let e0 := with_models sm0 false (m_dtype e) in
  let pattern1 := Path.append modelDir "onnx" in
  let pattern2 :=
    Path.append
      (Path.append modelDir "models--ResembleAI--chatterbox-turbo-ONNX")
      "snapshots" in
  let pattern3 := modelDir in
  let found : outcome string :=
    if fs_exists fs pattern1 then Ret pattern1
    else if fs_exists fs pattern2
    then if bool_decide (pattern2 ∈ fs_dirs fs)
         then Ret (find_snapshot fs (list_dir pattern2))
         else Abort FilesystemError
    else if fs_exists fs pattern3 then Ret pattern3
    else Ret ""%string in
  match found with
  | Abort a => (Abort a, e0, None)
  | Ret onnxDir =>
      if String.eqb onnxDir "" || negb (fs_exists fs onnxDir)
      then (Ret false, e0,
            Some (ModelsDirectoryNotFound pattern1 pattern2 pattern3))
      else match load_each create fs onnxDir dtype modelNames sm0 with
           | (Abort a, sm) => (Abort a, with_models sm false (m_dtype e), None)
           | (Ret (Some msg), sm) =>
               (Ret false, with_models sm false (m_dtype e), Some msg)
           | (Ret None, sm) => (Ret true, with_models sm true dtype, None)
           end
  end.

End ChatterboxTTS.

(** ** Text normalisation *)

Module Text.

(** The character classes of the C locale, which is the one in force. *)
Definition isspace (c : ascii) : bool :=
  let n := nat_of_ascii c in
  Nat.eqb n 32 || (Nat.leb 9 n && Nat.leb n 13).
Definition islower (c : ascii) : bool :=
  let n := nat_of_ascii c in Nat.leb 97 n && Nat.leb n 122.
Definition toupper (c : ascii) : ascii :=
  if islower c then ascii_of_nat (nat_of_ascii c - 32) else c.

Definition default_text : string := "You need to add some text for me to talk.".

Definition capitalize (s : list ascii) : list ascii :=
  match s with
  | c :: r => if islower c then toupper c :: r else s
  | [] => []
  end.

(** The loop that collapses every run of white space into one space. *)
Fixpoint collapse (lastWasSpace : bool) (s : list ascii) : list ascii :=
  match s with
  | [] => []
  | c :: r =>
      if isspace c
      then if lastWasSpace then collapse true r else " "%char :: collapse true r
      else c :: collapse false r
  end.

Fixpoint is_prefix (p s : list ascii) : bool :=
  match p, s with
  | [], _ => true
  | a :: p', b :: s' => Ascii.eqb a b && is_prefix p' s'
  | _ :: _, [] => false
  end.

(** The [find]/[replace] loop for one pair, on what is left of the text
    from [pos] on: an occurrence of [old] is replaced by [new] and the
    search resumes behind the text put in, so [skip] characters of the
    occurrence are still to be passed over.  [old] is not empty. *)
Fixpoint replace_from (old new : list ascii) (skip : nat) (s : list ascii)
  : list ascii :=
  match s with
  | [] => []
  | c :: r =>
      match skip with
      | S k => replace_from old new k r
      | O =>
          if is_prefix old s
          then new ++ replace_from old new (length old - 1) r
          else c :: replace_from old new 0 r
      end
  end.

Definition utf8 (a b c : nat) : list ascii :=
  [ascii_of_nat a; ascii_of_nat b; ascii_of_nat c].

Definition replacements : list (list ascii * list ascii) :=
  [ (utf8 226 128 166, [","; " "]%char);          (* ellipsis *)
    ([":"]%char, [","]%char);
    (utf8 226 128 148, ["-"]%char);               (* em dash *)
    (utf8 226 128 147, ["-"]%char);               (* en dash *)
    ([" "; ","]%char, [","]%char);
    (utf8 226 128 156, [ascii_of_nat 34]);        (* left double quote *)
    (utf8 226 128 157, [ascii_of_nat 34]);        (* right double quote *)
    (utf8 226 128 152, ["'"]%char);               (* left single quote *)
    (utf8 226 128 153, ["'"]%char) ].             (* right single quote *)

Definition replace_uncommon (s : list ascii) : list ascii :=
  fold_left (fun result '(old, new) => replace_from old new 0 result)
    replacements s.

(** The loop that pops white space off the end. *)
Fixpoint rstrip (s : list ascii) : list ascii :=
  match s with
  | [] => []
  | c :: r =>
      match rstrip r with
      | [] => if isspace c then [] else [c]
      | r' => c :: r'
      end
  end.

Definition is_ending (c : ascii) : bool :=
  Ascii.eqb c "." || Ascii.eqb c "!" || Ascii.eqb c "?" || Ascii.eqb c "-"
  || Ascii.eqb c ",".

Definition add_period (s : list ascii) : list ascii :=
  match last s with
  | Some c => if is_ending c then s else s ++ ["."%char]
  | None => s
  end.

(** [NormalizeTextForTTS] of Tokenizer.cpp. *)
Definition NormalizeTextForTTS (text : string) : string :=
  if String.eqb text "" then default_text
  else string_of_list_ascii
         (add_period
            (rstrip
               (replace_uncommon
                  (collapse false (capitalize (list_ascii_of_string text)))))).

(** [NormalizeText] of ChatterboxTTS.cpp, which does not collapse white
    space.  Its last loop hands [isspace] a plain [char]; a byte above
    0x7f is taken not to be white space there either. *)
Definition NormalizeText (text : string) : string :=
  if String.eqb text "" then default_text
  else string_of_list_ascii
         (add_period
            (rstrip (replace_uncommon (capitalize (list_ascii_of_string text))))).

End Text.

(** ** WavWriter *)

Module WavWriter.

Record WavFormat : Type := {
  sampleRate : Z;
  channels : Z;
  bitsPerSample : Z
}.

Definition default_format : WavFormat :=
  {| sampleRate := 24000; channels := 1; bitsPerSample := 16 |}.

Definition RIFF_HEADER : Z := 0x46464952.
Definition WAVE_HEADER : Z := 0x45564157.
Definition FMT_HEADER : Z := 0x20746d66.
Definition DATA_HEADER : Z := 0x61746164.
Definition WAVE_FORMAT_PCM : Z := 1.

(** What [WriteHeader] puts between the two size fields: the format tag,
    the [fmt] chunk and the tag of the data chunk.  Each field is stored in
    its width, which is where the casts and the unsigned products wrap
    around; the product for [blockAlign] is formed in [int] and taken not
    to leave it. *)
Definition format_part (format : WavFormat) : list byte :=
  let numChannels := channels format mod 2 ^ 16 in
  let rate := sampleRate format mod 2 ^ 32 in
  let bytesPerSample := Z.quot (bitsPerSample format) 8 in
  le_encode 4 WAVE_HEADER
    ++ le_encode 4 FMT_HEADER
    ++ le_encode 4 16
    ++ le_encode 2 WAVE_FORMAT_PCM
    ++ le_encode 2 numChannels
    ++ le_encode 4 rate
    ++ le_encode 4 (rate * numChannels * bytesPerSample)
    ++ le_encode 2 (numChannels * bytesPerSample)
    ++ le_encode 2 (bitsPerSample format)
    ++ le_encode 4 DATA_HEADER.

(** The 44 bytes of [WriteHeader]. *)
Definition WriteHeader (dataSize : Z) (format : WavFormat) : list byte :=
  le_encode 4 RIFF_HEADER
    ++ le_encode 4 (36 + dataSize)
    ++ format_part format
    ++ le_encode 4 dataSize.

(** [WriteFile] for 16-bit samples; the error text is left out.  The byte
    count is cast to [uint32_t], and that many bytes of the samples are
    written. *)
Definition WriteFile (fs : FileSystem) (path : string) (samples : list Z)
    (format : WavFormat) : outcome bool * FileSystem :=
  if VoiceConditionals.is_empty samples then (Ret false, fs)
  else
    let made :=
      if Path.has_parent_path path
      then create_directories fs (Path.parent_path path)
      else Some (false, fs) in
    match made with
    | None => (Abort FilesystemError, fs)
    | Some (_, fs1) =>
        if negb (can_open_for_write fs1 path) then (Ret false, fs1)
        else
          let dataSize := (Z.of_nat (length samples) * 2) mod 2 ^ 32 in
          (Ret true,
           fs_write fs1 path
             (WriteHeader dataSize format
                ++ take (Z.to_nat dataSize) (encode_elems 2 samples)))
    end.

(** [WriteFile] for float samples, [FloatToInt16] being the clamp to
    [-1, 1] and the cast of the product with 32767. *)
Definition WriteFile_float (FloatToInt16 : Z -> Z) (fs : FileSystem)
    (path : string) (samples : list Z) (format : WavFormat)
  : outcome bool * FileSystem :=
  WriteFile fs path (FloatToInt16 <$> samples) format.

(** The streaming writer: the path of the open file, whose contents are
    in the file system, the format and the count of samples. *)
Record t : Type := {
  m_file : option string;
  m_format : WavFormat;
  m_samplesWritten : Z
}.

(** [seekp(pos)] and a write of [bs] on a file with the contents [old]. *)
Definition write_at (pos : nat) (bs old : list byte) : list byte :=
  resize pos x00 old ++ bs ++ drop (pos + length bs) old.

Definition contents (fs : FileSystem) (path : string) : list byte :=
  default [] (fs_files fs !! path).

Definition UpdateHeader (fs : FileSystem) (w : t) : FileSystem :=
  match m_file w with
  | None => fs
  | Some path =>
      let dataSize := (m_samplesWritten w * 2) mod 2 ^ 32 in
      let fileSize := 36 + dataSize in
      fs_write fs path
        (write_at 40 (le_encode 4 dataSize)
           (write_at 4 (le_encode 4 fileSize) (contents fs path)))
  end.

Definition Close (fs : FileSystem) (w : t) : t * FileSystem :=
  match m_file w with
  | None => (w, fs)
  | Some _ =>
      ({| m_file := None; m_format := m_format w;
          m_samplesWritten := m_samplesWritten w |},
       UpdateHeader fs w)
  end.

Definition Open (fs : FileSystem) (w : t) (path : string) (format : WavFormat)
  : outcome bool * t * FileSystem :=
  let '(w0, fs0) := Close fs w in
  let made :=
    if Path.has_parent_path path
    then create_directories fs0 (Path.parent_path path)
    else Some (false, fs0) in
  match made with
  | None => (Abort FilesystemError, w0, fs0)
  | Some (_, fs1) =>
      if negb (can_open_for_write fs1 path) then (Ret false, w0, fs1)
      else (Ret true,
            {| m_file := Some path; m_format := format; m_samplesWritten := 0 |},
            fs_write fs1 path (WriteHeader 0 format))
  end.

Definition WriteSamples (FloatToInt16 : Z -> Z) (fs : FileSystem) (w : t)
    (samples : list Z) : bool * t * FileSystem :=
  match m_file w with
  | None => (false, w, fs)
  | Some path =>
      (true,
       {| m_file := Some path; m_format := m_format w;
          m_samplesWritten :=
            (m_samplesWritten w + Z.of_nat (length samples)) mod 2 ^ 64 |},
       fs_write fs path
         (contents fs path ++ encode_elems 2 (FloatToInt16 <$> samples)))
  end.

End WavWriter.

(** A whole streaming session: [Open], one [WriteSamples] for each chunk,
    [Close]. *)
Definition stream_chunks (FloatToInt16 : Z -> Z) (fs : FileSystem)
    (w : WavWriter.t) (path : string) (format : WavWriter.WavFormat)
    (chunks : list (list Z)) : outcome bool * FileSystem :=
  match WavWriter.Open fs w path format with
  | (Ret true, w1, fs1) =>
      let '(w2, fs2) :=
        fold_left
          (fun '(w, fs) chunk =>
             let '(_, w', fs') := WavWriter.WriteSamples FloatToInt16 fs w chunk in
             (w', fs'))
          chunks (w1, fs1) in
      (Ret true, snd (WavWriter.Close fs2 w2))
  | (r, _, fs1) => (r, fs1)
  end.

(** A writer with no file open. *)
Definition idle_writer : WavWriter.t :=
  {| WavWriter.m_file := None;
     WavWriter.m_format := WavWriter.default_format;
     WavWriter.m_samplesWritten := 0 |}.

(** ** The command-line front end *)

Module Main.

Definition CACHE_DIR : string := "cache".
Definition ASSETS_DIR : string := "assets".

(** What [ResolveVoice] leaves behind: the engine, the cache, the file
    system and what was asked of the collaborators. *)
Record resolved : Type := {
  res_returned : outcome bool;
  res_engine : ChatterboxTTS.t;
  res_cache : VoiceConditionalsCache.t;
  res_fs : FileSystem;
  res_calls : list ChatterboxTTS.call
}.

(** Step 3 of [ResolveVoice]: the file to process, empty when there is
    none. *)
Definition actualPath (fs : FileSystem) (voicePath key : string) : string :=
  if fs_exists fs voicePath then voicePath
  else if fs_exists fs (ASSETS_DIR ++ "/" ++ key ++ ".wav")
  then (ASSETS_DIR ++ "/" ++ key ++ ".wav")%string
  else if fs_exists fs (ASSETS_DIR ++ "/" ++ key ++ ".xwm")
  then (ASSETS_DIR ++ "/" ++ key ++ ".xwm")%string
  else ""%string.

(** Steps 3 and 4: process the voice file and cache the outcome. *)
Definition process_voice (rt : Runtime) (fs : FileSystem) (tts : ChatterboxTTS.t)
    (cache : VoiceConditionalsCache.t) (voicePath key : string) : resolved :=
  let path := actualPath fs voicePath key in
  if String.eqb path ""
  then {| res_returned := Ret false; res_engine := tts; res_cache := cache;
          res_fs := fs; res_calls := [] |}
  else
    let '(ok, tts', calls) := ChatterboxTTS.PrepareConditionals rt tts path in
    if negb ok
    then {| res_returned := Ret false; res_engine := tts'; res_cache := cache;
            res_fs := fs; res_calls := calls |}
    else
      let '(r, cache', fs') :=
        VoiceConditionalsCache.Put fs cache key (ChatterboxTTS.m_conds tts') true in
      {| res_returned := match r with Ret _ => Ret true | Abort a => Abort a end;
         res_engine := tts'; res_cache := cache'; res_fs := fs';
         res_calls := calls |}.

Definition ResolveVoice (rt : Runtime) (junk : nat -> Z) (fs : FileSystem)
    (tts : ChatterboxTTS.t) (cache : VoiceConditionalsCache.t)
    (voicePath : string) : resolved :=
  let key := VoiceConditionalsCache.ExtractKey voicePath in
  let hit (conds : VoiceConditionals.t) (cache' : VoiceConditionalsCache.t) :=
    {| res_returned := Ret true;
       res_engine := ChatterboxTTS.SetConditionals tts conds;
       res_cache := cache'; res_fs := fs; res_calls := [] |} in
  match VoiceConditionalsCache.Get cache key with
  | Some conds => hit conds cache
  | None =>
      if VoiceConditionalsCache.ExistsOnDisk fs cache key
      then match VoiceConditionalsCache.LoadFromDisk junk fs cache key with
           | (Abort a, cache') =>
               {| res_returned := Abort a; res_engine := tts;
                  res_cache := cache'; res_fs := fs; res_calls := [] |}
           | (Ret true, cache') =>
               match VoiceConditionalsCache.Get cache' key with
               | Some conds => hit conds cache'
               | None => process_voice rt fs tts cache' voicePath key
               end
           | (Ret false, cache') => process_voice rt fs tts cache' voicePath key
           end
      else process_voice rt fs tts cache voicePath key
  end.

End Main.

(** ** Vocabulary of the statements about generation *)

(** A path written with a backslash: assets, backslash, malebrute.wav. *)
Definition backslash_path : string :=
  ("assets" ++ String NativePath.backslash "malebrute.wav")%string.

(** A token sequence with its trailing stop token removed when present. *)
Definition without_trailing_stop (l : list Z) : list Z :=
  match last l with
  | Some t => if t =? ChatterboxTTS.STOP_SPEECH_TOKEN then removelast l else l
  | None => l
  end.

(** The sequence axis of [inputs_embeds], the [L] of a step. *)
Definition seq_axis (ins : LmInputs) : Z := default 0 (embedsShape ins !! 1%nat).

Definition sum_Z (l : list Z) : Z := fold_right Z.add 0 l.

(** The position and the mask agree when an iteration is entered. *)
Definition in_step (st : ChatterboxTTS.loop_state) : Prop :=
  ChatterboxTTS.currentPosition st = Z.of_nat (length (ChatterboxTTS.attention st))
  /\ ChatterboxTTS.currentPosition st < 2 ^ 60.

(** What an iteration after the first hands to the language model. *)
Definition later_inputs (hiddenSize : Z) (st : ChatterboxTTS.loop_state) : LmInputs :=
  {| embedsShape := [1; 1; hiddenSize];
     attentionMask := ChatterboxTTS.attention st ++ [1];
     maskShape := [1; ChatterboxTTS.currentPosition st + 1];
     positionIds := [ChatterboxTTS.currentPosition st];
     posShape := [1; 1] |}.

(** What the first iteration hands to the language model. *)
Definition first_inputs (condSeqLen textSeqLen hiddenSize : Z) : LmInputs :=
  let L := add64 condSeqLen textSeqLen in
  {| embedsShape := [1; L; hiddenSize];
     attentionMask := replicate (Z.to_nat L) 1;
     maskShape := [1; L];
     positionIds := (fun i => add64 0 i) <$> seqZ 0 L;
     posShape := [1; L] |}.

(** The state in which the generation loop was left. *)
Definition end_state (e : ChatterboxTTS.loop_end) : ChatterboxTTS.loop_state :=
  match e with
  | ChatterboxTTS.LoopFailed _ st => st
  | ChatterboxTTS.LoopThrown _ st => st
  | ChatterboxTTS.LoopDone st => st
  end.

(** The record that [RunSpeechEncoder] stores for the first four outputs
    of the encoder. *)
Definition conditionals_of (o0 o1 o2 o3 : Tensor) : VoiceConditionals.t :=
  {| VoiceConditionals.condEmb := tensor_data o0;
     VoiceConditionals.promptToken := tensor_data o1;
     VoiceConditionals.speakerEmbeddings := tensor_data o2;
     VoiceConditionals.speakerFeatures := tensor_data o3;
     VoiceConditionals.condEmbShape := tensor_shape o0;
     VoiceConditionals.promptTokenShape := tensor_shape o1;
     VoiceConditionals.speakerEmbeddingsShape := tensor_shape o2;
     VoiceConditionals.speakerFeaturesShape := tensor_shape o3 |}.

(** A character that is not white space. *)
Definition nonspace (c : ascii) : bool := negb (Text.isspace c).

(** No value is below one that comes after it. *)
Fixpoint descending (l : list spec_float) : Prop :=
  match l with
  | [] => True
  | x :: r => Forall (fun y => F32.ltb x y = false) r /\ descending r
  end.

(** How many of the values [f] holds for. *)
Definition count_of (f : spec_float -> bool) (l : list spec_float) : nat :=
  length (List.filter f l).

(** ** Vocabulary of the statements about the file format *)

(** An element that the reader gives back as it was written. *)
Definition reads_back (width : nat) (signed : bool) (z : Z) : Prop :=
  (if signed then to_signed64 (z mod 256 ^ Z.of_nat width)
   else z mod 256 ^ Z.of_nat width) = z.

(** The environment lets [Save] write [path]: the parent directory is
    there or can be made, and the file can be opened. *)
Definition can_save (fs : FileSystem) (path : string) : bool :=
  match (if Path.has_parent_path path
         then create_directories fs (Path.parent_path path)
         else Some (false, fs)) with
  | Some (_, fs1) => can_open_for_write fs1 path
  | None => false
  end.

(** A cache file that ends after the byte count of its first array, the
    count announcing more bytes than any file holds. *)
Definition cut_short_file : list byte :=
  le_encode 4 VoiceConditionals.MAGIC ++ le_encode 4 VoiceConditionals.VERSION
    ++ le_encode 4 0 ++ le_encode 8 (2 ^ 64 - 1).

(** A cache file that ends after its magic and version. *)
Definition header_only_file : list byte :=
  le_encode 4 VoiceConditionals.MAGIC ++ le_encode 4 VoiceConditionals.VERSION.

(** Uninitialised locals that hold zero, except the [dataSize] of the first
    array, which holds the largest [uint64_t]. *)
Definition junk_big_dataSize (site : nat) : Z :=
  if Nat.eqb site 3 then 2 ^ 64 - 1 else 0.

Definition disk_with (path : string) (bytes : list byte) : FileSystem :=
  {| fs_files := {[ path := bytes ]}; fs_dirs := {[ "cache"%string ]};
     fs_readonly := ∅ |}.

(** The two element types of the file format. *)
Definition elem_type (width : nat) (signed : bool) : Prop :=
  (width = 4%nat /\ signed = false) \/ (width = 8%nat /\ signed = true).

(** ** Exhaustive checks over a range *)

(** [f] holds at the [n] integers from [z] on. *)
Fixpoint all_from (n : nat) (z : Z) (f : Z -> bool) : bool :=
  match n with
  | O => true
  | S n' => f z && all_from n' (z + 1) f
  end.

(** The duration test of [PrepareConditionals] on [n] samples at 24 kHz. *)
Definition short_at_24kHz (n : Z) : bool :=
  F32.ltb (F32.div (F32.of_Z n) (F32.of_Z ChatterboxTTS.SAMPLE_RATE)) F32.five.

(** ** Sample values *)

Module Sample.
Import ChatterboxTTS.

Definition sessions : OnnxSessionManager.t :=
  {| OnnxSessionManager.m_sessions :=
       list_to_map
         [(SPEECH_ENCODER, {| session_model := "speech_encoder_q4.onnx" |});
          (EMBED_TOKENS, {| session_model := "embed_tokens_q4.onnx" |});
          (LANGUAGE_MODEL, {| session_model := "language_model_q4.onnx" |});
          (COND_DECODER, {| session_model := "conditional_decoder_q4.onnx" |})] |}.

(** Conditionals with [cond_emb] of shape [1, 2, 4] and two prompt
    tokens. *)
Definition conds : VoiceConditionals.t :=
  {| VoiceConditionals.condEmb := replicate 8 0;
     VoiceConditionals.promptToken := [11; 12];
     VoiceConditionals.speakerEmbeddings := [0; 0];
     VoiceConditionals.speakerFeatures := [0; 0; 0; 0];
     VoiceConditionals.condEmbShape := [1; 2; 4];
     VoiceConditionals.promptTokenShape := [1; 2];
     VoiceConditionals.speakerEmbeddingsShape := [1; 2];
     VoiceConditionals.speakerFeaturesShape := [1; 2; 2] |}.

Definition engine : t :=
  {| m_sessionManager := sessions; m_modelsLoaded := true; m_dtype := "q4";
     m_conds := conds; m_rng := 0; m_lastError := NoError |}.

(** Three seconds of silence at 24 kHz. *)
Definition three_seconds : AudioData.t :=
  {| AudioData.samples := replicate (Z.to_nat 72000) 0;
     AudioData.sampleRate := 24000; AudioData.channels := 1 |}.

(** Collaborators whose sampler counts its draws in the generator state
    and emits the stop token at the sixth draw, the one of step 5. *)
Definition runtime : Runtime :=
  {| create_tensor := fun _ _ => true;
     LoadFile := fun _ => Some three_seconds;
     speech_encoder := fun _ => None;
     speech_encoder_thrown := fun _ => ([], 0%nat);
     RunEmbedTokens := fun ids => replicate (4 * length ids) 0;
     lm_input_names :=
       ["inputs_embeds"; "attention_mask"; "position_ids";
        "past_key_values.0.key"; "past_key_values.0.value"]%string;
     language_model := fun _ _ => Some [F32.zero; F32.zero];
     sample := fun _ _ draws =>
       (if draws =? 5 then STOP_SPEECH_TOKEN else 100, draws + 1);
     rng_seed := fun _ => 0;
     decoder_input_names :=
       ["speech_tokens"; "speaker_embeddings"; "speaker_features"]%string;
     conditional_decoder := fun _ => Some [0; 0; 0] |}.

Definition config : GenerationConfig :=
  {| maxNewTokens := 8; repetitionPenalty := F32.one;
     temperature := F32.one; topK := 0; topP := F32.one;
     normalizeAudio := true; seed := 0 |}.

Definition tokenIds : list Z := [10; 20; 30; 50256; 50256].
End Sample.

(** A record with one float of conditioning, one prompt token and nothing
    else. *)
Definition only_cond_and_prompt : VoiceConditionals.t :=
  {| VoiceConditionals.condEmb := [0];
     VoiceConditionals.promptToken := [0];
     VoiceConditionals.speakerEmbeddings := [];
     VoiceConditionals.speakerFeatures := [];
     VoiceConditionals.condEmbShape := [];
     VoiceConditionals.promptTokenShape := [];
     VoiceConditionals.speakerEmbeddingsShape := [];
     VoiceConditionals.speakerFeaturesShape := [] |}.

Definition empty_disk : FileSystem :=
  {| fs_files := ∅; fs_dirs := ∅; fs_readonly := ∅ |}.

Definition fresh_cache : VoiceConditionalsCache.t :=
  {| VoiceConditionalsCache.m_cacheDir := "cache";
     VoiceConditionalsCache.m_cache := ∅ |}.

(** A file system with a cache file for the key hero. *)
Definition stale_disk : FileSystem :=
  {| fs_files := {[ "cache/hero.cond"%string := [] ]};
     fs_dirs := {[ "cache"%string ]}; fs_readonly := ∅ |}.

(** A file system in which the cache directory cannot be created. *)
Definition locked_disk : FileSystem :=
  {| fs_files := ∅; fs_dirs := ∅; fs_readonly := {[ "cache"%string ]} |}.

(** The sample configuration with a seed. *)
Definition seeded_config : GenerationConfig :=
  {| maxNewTokens := 8; repetitionPenalty := F32.one;
     temperature := F32.one; topK := 0; topP := F32.one;
     normalizeAudio := true; seed := 42 |}.

(** Five seconds of silence at 24 kHz. *)
Definition five_seconds : AudioData.t :=
  {| AudioData.samples := replicate (Z.to_nat 120000) 0;
     AudioData.sampleRate := 24000; AudioData.channels := 1 |}.

(** Collaborators whose loader returns five seconds of audio and whose
    speech encoder returns the four arrays of the sample voice. *)
Definition voice_runtime : Runtime :=
  {| create_tensor := fun _ _ => true;
     LoadFile := fun _ => Some five_seconds;
     speech_encoder := fun _ =>
       Some [ {| tensor_data := VoiceConditionals.condEmb Sample.conds;
                 tensor_shape := VoiceConditionals.condEmbShape Sample.conds |};
              {| tensor_data := VoiceConditionals.promptToken Sample.conds;
                 tensor_shape := VoiceConditionals.promptTokenShape Sample.conds |};
              {| tensor_data := VoiceConditionals.speakerEmbeddings Sample.conds;
                 tensor_shape :=
                   VoiceConditionals.speakerEmbeddingsShape Sample.conds |};
              {| tensor_data := VoiceConditionals.speakerFeatures Sample.conds;
                 tensor_shape :=
                   VoiceConditionals.speakerFeaturesShape Sample.conds |} ];
     speech_encoder_thrown := fun _ => ([], 0%nat);
     RunEmbedTokens := fun ids => replicate (4 * length ids) 0;
     lm_input_names := [];
     language_model := fun _ _ => None;
     sample := fun _ _ draws => (0, draws);
     rng_seed := fun _ => 0;
     decoder_input_names := [];
     conditional_decoder := fun _ => None |}.

(** Collaborators whose speech encoder returns four outputs and throws
    when the shape of the second is read: three assignments were made. *)
Definition throwing_runtime : Runtime :=
  {| create_tensor := fun _ _ => true;
     LoadFile := fun _ => Some five_seconds;
     speech_encoder := fun _ => None;
     speech_encoder_thrown := fun _ =>
       (replicate 4 {| tensor_data := [7]; tensor_shape := [1; 1] |}, 3%nat);
     RunEmbedTokens := fun ids => replicate (4 * length ids) 0;
     lm_input_names := [];
     language_model := fun _ _ => None;
     sample := fun _ _ draws => (0, draws);
     rng_seed := fun _ => 0;
     decoder_input_names := [];
     conditional_decoder := fun _ => None |}.

(** A models directory with the four files of the q4 models. *)
Definition models_disk : FileSystem :=
  {| fs_files :=
       list_to_map
         [("models/onnx/speech_encoder_q4.onnx"%string, []);
          ("models/onnx/embed_tokens_q4.onnx"%string, []);
          ("models/onnx/language_model_q4.onnx"%string, []);
          ("models/onnx/conditional_decoder_q4.onnx"%string, [])];
     fs_dirs := {[ "models"%string; "models/onnx"%string ]};
     fs_readonly := ∅ |}.

(** A file system with one voice file and nothing else. *)
Definition voice_disk : FileSystem :=
  {| fs_files := {[ "a/hero.wav"%string := [] ]}; fs_dirs := {[ "a"%string ]};
     fs_readonly := ∅ |}.

(** A session manager that holds the language model and nothing else. *)
Definition one_model : OnnxSessionManager.t :=
  {| OnnxSessionManager.m_sessions :=
       {[ "language_model"%string := {| session_model := "lm_q4.onnx" |} ]} |}.

Definition two : spec_float := Eval cbv in F32.of_Z 2.

(** * Properties *)

(** ** Machine integers *)

Lemma wrap64_id (z : Z) : - 2 ^ 63 <= z < 2 ^ 63 -> wrap64 z = z.
Proof.
  intros H. unfold wrap64, to_signed64.
  destruct (Z.ltb_spec (z mod 2 ^ 64) (2 ^ 63)) as [Hlt | Hge].
  - destruct (Z.neg_nonneg_cases z) as [Hneg | Hpos].
    + rewrite <- (Z.mod_add z 1 (2 ^ 64)) in Hlt by lia.
      rewrite Z.mod_small in Hlt; lia.
    + apply Z.mod_small. lia.
  - destruct (Z.neg_nonneg_cases z) as [Hneg | Hpos].
    + rewrite <- (Z.mod_add z 1 (2 ^ 64)) by lia.
      rewrite Z.mod_small; lia.
    + rewrite Z.mod_small in Hge; lia.
Qed.

Lemma vector_fits_spec (width count : Z) :
  vector_fits width count = true <-> 0 <= count /\ count * width <= PTRDIFF_MAX.
Proof. unfold vector_fits. rewrite andb_true_iff, Z.leb_le, Z.leb_le. reflexivity. Qed.

Lemma vector_fits_8_range (count : Z) :
  vector_fits 8 count = true -> 0 <= count < 2 ^ 60.
Proof. rewrite vector_fits_spec. unfold PTRDIFF_MAX. lia. Qed.

(** ** Validity of a record *)

Section Validity.
Import VoiceConditionals.

Lemma is_empty_false {A : Type} (l : list A) : is_empty l = false <-> l <> [].
Proof. destruct l; simpl; split; congruence. Qed.

Lemma is_empty_true {A : Type} (l : list A) : is_empty l = true <-> l = [].
Proof. destruct l; simpl; split; congruence. Qed.

(** C5, as stated, fails: [IsValid] accepts a record whose speaker arrays
    and all of whose shape headers are empty. *)
Lemma IsValid_ignores_speaker_arrays_and_shapes :
  ~ (IsValid only_cond_and_prompt = true
     <-> all_arrays_consistent only_cond_and_prompt).
Proof.
  intros [H _]. specialize (H eq_refl).
  destruct H as (_ & _ & (Hne & _) & _). now apply Hne.
Qed.

(** C5, amended: [IsValid v] holds exactly when [condEmb] and
    [promptToken] are both non-empty; the speaker arrays and the four shape
    headers are not looked at. *)
Theorem IsValid_iff_condEmb_and_promptToken (v : t) :
  IsValid v = true <-> condEmb v <> [] /\ promptToken v <> [].
Proof.
  unfold IsValid. rewrite andb_true_iff, !negb_true_iff, !is_empty_false.
  reflexivity.
Qed.

(** The demanding reading implies the one of the code. *)
Lemma all_arrays_consistent_IsValid (v : t) :
  all_arrays_consistent v -> IsValid v = true.
Proof.
  intros ((H1 & _) & (H2 & _) & _). unfold IsValid.
  apply is_empty_false in H1, H2. now rewrite H1, H2.
Qed.

Lemma IsValid_false_iff (v : t) :
  IsValid v = false <-> condEmb v = [] \/ promptToken v = [].
Proof.
  unfold IsValid. rewrite andb_false_iff, !negb_false_iff, !is_empty_true.
  reflexivity.
Qed.
End Validity.

(** ** The cache refuses invalid records *)

Section PutInvalid.
Import VoiceConditionalsCache.

(** C10: [Put] of a record that is not valid returns false and leaves the
    in-memory map and the file system as they were, whether or not it was
    asked to persist. *)
Theorem Put_invalid_rejected (fs : FileSystem) (c : t) (key : string)
    (conds : VoiceConditionals.t) (saveToDisk : bool) :
  VoiceConditionals.IsValid conds = false ->
  Put fs c key conds saveToDisk = (Ret false, c, fs).
Proof. intros H. unfold Put. now rewrite H. Qed.

Lemma Put_invalid_rejected_witness :
  VoiceConditionals.IsValid VoiceConditionals.empty = false /\
  Put empty_disk fresh_cache "voice" VoiceConditionals.empty true
    = (Ret false, fresh_cache, empty_disk).
Proof.
  split; [reflexivity |].
  apply (Put_invalid_rejected empty_disk fresh_cache "voice"
           VoiceConditionals.empty true).
  reflexivity.
Defined.

(** Neither tier can tell that the call happened. *)
Corollary Put_invalid_frame (fs : FileSystem) (c : t) (key : string)
    (conds : VoiceConditionals.t) (saveToDisk : bool) (k : string) :
  VoiceConditionals.IsValid conds = false ->
  let '(r, c', fs') := Put fs c key conds saveToDisk in
  r = Ret false /\ Get c' k = Get c k /\ fs_files fs' = fs_files fs
  /\ fs_dirs fs' = fs_dirs fs.
Proof. intros H. unfold Put. rewrite H. simpl. auto. Qed.
End PutInvalid.

(** ** Loading a model twice *)

Section LoadModelTwice.
Import OnnxSessionManager.

(** C8, as stated, fails: a second load under a name that is taken reports
    success. *)
Lemma LoadModel_same_name_reports_success :
  ~ (IsModelLoaded one_model "language_model" = true ->
     fst (LoadModel (fun p => Some {| session_model := p |}) empty_disk
            one_model "other.onnx" "language_model") <> Ret true).
Proof. intros H. now apply H. Qed.

(** C8, amended: when a model is loaded under [name], a further load under
    [name] returns true without looking at the path, and the session
    stored under [name], like every other, stays the one it was. *)
Theorem LoadModel_already_loaded (create : string -> option Session)
    (fs : FileSystem) (sm : t) (modelPath name : string) :
  IsModelLoaded sm name = true ->
  LoadModel create fs sm modelPath name = (Ret true, sm).
Proof. intros H. unfold LoadModel. now rewrite H. Qed.

Lemma LoadModel_already_loaded_witness :
  IsModelLoaded one_model "language_model" = true /\
  LoadModel (fun _ => None) empty_disk one_model "missing.onnx" "language_model"
    = (Ret true, one_model).
Proof.
  split; [reflexivity |].
  apply (LoadModel_already_loaded (fun _ => None) empty_disk one_model
           "missing.onnx" "language_model").
  reflexivity.
Defined.
End LoadModelTwice.

(** ** A reference that is too short *)

Section ReferenceTooShort.
Import ChatterboxTTS.

(** C9: on a ready engine, a reference whose duration is below 5.0 makes
    [PrepareConditionals] return false with the too-short message; the only
    collaborator it asked was the audio loader, so the speech encoder did
    not run, and the stored conditionals are the ones from before. *)
Theorem PrepareConditionals_too_short (rt : Runtime) (e : t)
    (audioPath : string) (audioData : AudioData.t) :
  IsReady e = true ->
  LoadFile rt audioPath = Some audioData ->
  F32.ltb (AudioData.GetDuration audioData) F32.five = true ->
  exists e',
    PrepareConditionals rt e audioPath = (false, e', [CallLoadFile audioPath])
    /\ m_lastError e' = AudioPromptTooShort (AudioData.GetDuration audioData)
    /\ m_conds e' = m_conds e
    /\ m_sessionManager e' = m_sessionManager e
    /\ m_rng e' = m_rng e.
Proof.
  intros Hready Hload Hshort. unfold PrepareConditionals.
  replace (IsReady (set_lastError e NoError)) with (IsReady e) by reflexivity.
  rewrite Hready, Hload, Hshort. simpl.
  eexists. split; [reflexivity |]. simpl. auto.
Qed.

(** The test on the duration is the one on the number of samples: at the
    24 kHz the loader delivers, every waveform of fewer than 120000
    samples, five seconds, is below 5.0. *)
Lemma GetDuration_length (a : AudioData.t) :
  AudioData.sampleRate a = SAMPLE_RATE ->
  AudioData.GetDuration a
  = F32.div (F32.of_Z (Z.of_nat (length (AudioData.samples a)))) (F32.of_Z SAMPLE_RATE).
Proof. intros H. unfold AudioData.GetDuration. now rewrite H. Qed.

Lemma all_from_spec (f : Z -> bool) (n : nat) :
  forall z, all_from n z f = true ->
  forall k, z <= k < z + Z.of_nat n -> f k = true.
Proof.
  induction n as [| n IH]; intros z H k Hk; [lia |].
  simpl in H. apply andb_true_iff in H as [Hz Hrest].
  destruct (Z.eq_dec k z) as [-> | Hne]; [exact Hz |].
  apply (IH (z + 1) Hrest). lia.
Qed.

Lemma below_five_seconds_at_24kHz (a : AudioData.t) :
  AudioData.sampleRate a = SAMPLE_RATE ->
  Z.of_nat (length (AudioData.samples a)) < 5 * SAMPLE_RATE ->
  F32.ltb (AudioData.GetDuration a) F32.five = true.
Proof.
  intros Hrate Hlen. rewrite (GetDuration_length a Hrate).
  assert (Hall : all_from (Z.to_nat (5 * SAMPLE_RATE)) 0 short_at_24kHz = true)
    by (vm_compute; reflexivity).
  apply (all_from_spec _ _ _ Hall (Z.of_nat (length (AudioData.samples a)))).
  rewrite Z2Nat.id; [lia | discriminate].
Qed.
End ReferenceTooShort.

Lemma PrepareConditionals_too_short_witness :
  exists e',
    ChatterboxTTS.PrepareConditionals Sample.runtime Sample.engine "ref_3s.wav"
    = (false, e', [ChatterboxTTS.CallLoadFile "ref_3s.wav"])
    /\ ChatterboxTTS.m_lastError e'
       = ChatterboxTTS.AudioPromptTooShort (AudioData.GetDuration Sample.three_seconds)
    /\ ChatterboxTTS.m_conds e' = Sample.conds.
Proof.
  destruct (PrepareConditionals_too_short Sample.runtime Sample.engine "ref_3s.wav"
              Sample.three_seconds) as (e' & Hrun & Herr & Hconds & _).
  - vm_compute. reflexivity.
  - reflexivity.
  - vm_compute. reflexivity.
  - exists e'. auto.
Defined.

(** ** The repetition penalty *)

Section RepetitionPenalty.
Import ChatterboxTTS.

Lemma penalty_step_length (penalty : spec_float) (logits : list spec_float)
    (token : Z) :
  length (penalty_step penalty logits token) = length logits.
Proof.
  unfold penalty_step.
  destruct (_ && _); [| reflexivity].
  destruct (logits !! Z.to_nat token); [apply length_insert | reflexivity].
Qed.

(** A turn of the loop changes the logit the token names and no other. *)
Lemma penalty_step_lookup (penalty : spec_float) (logits : list spec_float)
    (token : Z) (i : nat) :
  penalty_step penalty logits token !! i
  = if Z.eq_dec token (Z.of_nat i)
    then penalize penalty <$> logits !! i
    else logits !! i.
Proof.
  unfold penalty_step.
  destruct (Z.eq_dec token (Z.of_nat i)) as [-> | Hne].
  - rewrite Nat2Z.id.
    destruct (Z.leb_spec 0 (Z.of_nat i)); [| lia]. simpl.
    destruct (Z.ltb_spec (Z.of_nat i) (Z.of_nat (length logits))) as [Hlt | Hge].
    + destruct (logits !! i) as [x |] eqn:Hx.
      * simpl. apply list_lookup_insert_eq. lia.
      * simpl. exact Hx.
    + rewrite (lookup_ge_None_2 logits i) by lia. reflexivity.
  - destruct (Z.leb_spec 0 token); [| reflexivity]. simpl.
    destruct (Z.ltb_spec token (Z.of_nat (length logits))); [| reflexivity].
    destruct (logits !! Z.to_nat token); [| reflexivity].
    apply list_lookup_insert_ne. lia.
Qed.

Lemma penalty_fold_length (penalty : spec_float) (G : list Z) :
  forall logits,
    length (fold_left (penalty_step penalty) G logits) = length logits.
Proof.
  induction G as [| t G IH]; intros logits; simpl; [reflexivity |].
  rewrite IH. apply penalty_step_length.
Qed.

Lemma penalty_fold_lookup (penalty : spec_float) (G : list Z) (i : nat) :
  forall logits,
    fold_left (penalty_step penalty) G logits !! i
    = Nat.iter (count_occ Z.eq_dec G (Z.of_nat i)) (penalize penalty)
        <$> logits !! i.
Proof.
  induction G as [| t G IH]; intros logits.
  - simpl. now destruct (logits !! i).
  - cbn [fold_left]. rewrite IH, penalty_step_lookup.
    destruct (Z.eq_dec t (Z.of_nat i)) as [-> | Hne].
    + rewrite count_occ_cons_eq by reflexivity.
      destruct (logits !! i) as [x |]; simpl; [| reflexivity].
      now rewrite <- Nat.iter_succ_r.
    + now rewrite count_occ_cons_neq by exact Hne.
Qed.

(** C1, as stated, fails: with the start token and token 0 sampled twice
    in the history, the logit of token 0 is divided twice, 2.0 becoming 0.5
    and not 1.0. *)
Lemma ApplyRepetitionPenalty_twice_for_two_occurrences :
  ~ (F32.ltb F32.one two = true -> In 0 [START_SPEECH_TOKEN; 0; 0] ->
     ApplyRepetitionPenalty [two] [START_SPEECH_TOKEN; 0; 0] two !! 0%nat
     = Some (penalize two two)).
Proof.
  intros H. specialize (H eq_refl (or_intror (or_introl eq_refl))).
  vm_compute in H. discriminate H.
Qed.

(** C1, amended: the transform keeps the length of the logits and leaves
    them as they are when the penalty is 1; otherwise the logit of a token
    value [i] is put through the step, times the penalty when negative and
    divided by it when not, once for every occurrence of [i] in the
    history, each time on the value the step before left.  A value that
    occurs once is transformed once, one that does not occur is kept, and
    history entries outside the vocabulary change nothing. *)
Theorem ApplyRepetitionPenalty_once_per_occurrence
    (logits : list spec_float) (G : list Z) (penalty : spec_float) :
  length (ApplyRepetitionPenalty logits G penalty) = length logits
  /\ (F32.eqb penalty F32.one = true ->
      ApplyRepetitionPenalty logits G penalty = logits)
  /\ (F32.eqb penalty F32.one = false ->
      forall (i : nat) (x : spec_float),
        logits !! i = Some x ->
        ApplyRepetitionPenalty logits G penalty !! i
        = Some (Nat.iter (count_occ Z.eq_dec G (Z.of_nat i))
                  (penalize penalty) x)).
Proof.
  unfold ApplyRepetitionPenalty.
  destruct (F32.eqb penalty F32.one); repeat split; try discriminate; auto.
  - apply penalty_fold_length.
  - intros _ i x Hx. now rewrite penalty_fold_lookup, Hx.
Qed.

Lemma ApplyRepetitionPenalty_once_per_occurrence_witness :
  ApplyRepetitionPenalty [two; two; two] [6561; 1; 0; 1] two
  = [penalize two two; penalize two (penalize two two); two].
Proof.
  pose proof (ApplyRepetitionPenalty_once_per_occurrence
                [two; two; two] [6561; 1; 0; 1] two) as (Hlen & _ & H).
  specialize (H eq_refl).
  apply list_eq. intros [| [| [| i]]].
  - now rewrite (H 0%nat two eq_refl).
  - now rewrite (H 1%nat two eq_refl).
  - now rewrite (H 2%nat two eq_refl).
  - rewrite lookup_ge_None_2; [reflexivity |]. rewrite Hlen. simpl. lia.
Defined.

(** The claim holds for the values that the history names once. *)
Corollary ApplyRepetitionPenalty_single_occurrence
    (logits : list spec_float) (G : list Z) (penalty : spec_float)
    (i : nat) (x : spec_float) :
  F32.eqb penalty F32.one = false ->
  count_occ Z.eq_dec G (Z.of_nat i) = 1%nat ->
  logits !! i = Some x ->
  ApplyRepetitionPenalty logits G penalty !! i = Some (penalize penalty x).
Proof.
  intros Hne Hocc Hx. unfold ApplyRepetitionPenalty.
  rewrite Hne, penalty_fold_lookup, Hx, Hocc. reflexivity.
Qed.
End RepetitionPenalty.

(** ** Paths in the generic format *)

Section GenericPaths.
Import Path.

Lemma filename_chars_no_sep (l : list ascii) :
  existsb is_sep (filename_chars l) = false.
Proof.
  induction l as [| c r IH]; simpl; [reflexivity |].
  destruct (existsb is_sep r) eqn:Hr; [exact IH |].
  destruct (is_sep c) eqn:Hc; [exact Hr |].
  simpl. now rewrite Hc, Hr.
Qed.

Lemma filename_chars_id (l : list ascii) :
  existsb is_sep l = false -> filename_chars l = l.
Proof.
  destruct l as [| c r]; simpl; [reflexivity |].
  intros H. apply orb_false_iff in H as [Hc Hr]. now rewrite Hr, Hc.
Qed.

Lemma existsb_take_false {A : Type} (f : A -> bool) (l : list A) (n : nat) :
  existsb f l = false -> existsb f (take n l) = false.
Proof.
  revert n. induction l as [| x l IH]; intros [| n]; simpl; auto.
  intros H. apply orb_false_iff in H as [Hx Hl]. rewrite Hx. simpl. auto.
Qed.

Lemma stem_chars_no_sep (l : list ascii) :
  existsb is_sep (stem_chars l) = false.
Proof.
  unfold stem_chars. destruct (find_extension _).
  - apply existsb_take_false, filename_chars_no_sep.
  - apply filename_chars_no_sep.
Qed.

Lemma rfind_dot_lt (l : list ascii) (p : nat) :
  rfind_dot l = Some p -> (p < length l)%nat.
Proof.
  revert p. induction l as [| c r IH]; intros p; simpl; [discriminate |].
  destruct (rfind_dot r) as [q |].
  - intros [= <-]. specialize (IH q eq_refl). lia.
  - destruct (is_dot c); [intros [= <-]; lia | discriminate].
Qed.

Lemma find_extension_lt (f : list ascii) (p : nat) :
  find_extension f = Some p -> (p < length f)%nat.
Proof.
  unfold find_extension. destruct f as [| c r]; [discriminate |].
  destruct (_ && _); [discriminate |].
  destruct (rfind_dot (c :: r)) as [[| q] |] eqn:Hr; try discriminate.
  intros [= <-]. now apply rfind_dot_lt.
Qed.

(** The stem of a name with an extension is shorter than the name. *)
Lemma stem_chars_shorter (l : list ascii) (p : nat) :
  find_extension (filename_chars l) = Some p ->
  (length (stem_chars l) < length (filename_chars l))%nat.
Proof.
  intros H. unfold stem_chars. rewrite H, length_take.
  apply find_extension_lt in H. lia.
Qed.

Lemma has_parent_path_of_chars (l : list ascii) :
  has_parent_path (string_of_list_ascii l) = existsb is_sep l.
Proof.
  unfold has_parent_path. now rewrite list_ascii_of_string_of_list_ascii.
Qed.
End GenericPaths.

(** ** Key normalisation *)

Section KeyNormalisation.
Import NativePath VoiceConditionalsCache.






















(** The second half fails as well: without an extension but with a parent
    path the result is the file name, not the argument. *)
Lemma ExtractKey_strips_directories :
  has_extension "voices/malebrute" = false
  /\ ExtractKey "voices/malebrute" = "malebrute"%string.
Proof. split; reflexivity. Qed.

(** Nor is a key without an extension always fixed: what follows the last
    slash can start with a letter and a colon, which is a drive when it
    stands alone. *)
Lemma ExtractKey_drive_key :
  ExtractKey "dir/a:b" = "a:b"%string
  /\ has_extension "a:b" = false
  /\ ExtractKey "a:b" = "b"%string.
Proof. repeat split; reflexivity. Qed.

(** The backslash separates as the slash does, and what follows a colon
    in the file name is not part of the stem. *)
Lemma ExtractKey_backslash :
  ExtractKey backslash_path = "malebrute"%string
  /\ ExtractKey "assets/malebrute.wav:low" = "malebrute"%string.
Proof. split; reflexivity. Qed.


End KeyNormalisation.

(** ** The two ways of reading a path *)

Section PathAgreement.
Import NativePath.

Lemma is_slash_generic (c : ascii) :
  Ascii.eqb c backslash = false -> is_slash c = Path.is_sep c.
Proof. intros H. unfold is_slash, Path.is_sep. now rewrite H. Qed.

Lemma existsb_is_slash_generic (l : list ascii) :
  existsb (fun c => Ascii.eqb c backslash) l = false ->
  existsb is_slash l = existsb Path.is_sep l.
Proof.
  induction l as [| c r IH]; simpl; [reflexivity |].
  intros H. apply orb_false_iff in H as [Hc Hr].
  now rewrite (is_slash_generic c Hc), (IH Hr).
Qed.

Lemma after_last_slash_generic (l : list ascii) :
  existsb (fun c => Ascii.eqb c backslash) l = false ->
  after_last_slash l = Path.filename_chars l.
Proof.
  induction l as [| c r IH]; simpl; [reflexivity |].
  intros H. apply orb_false_iff in H as [Hc Hr].
  rewrite (existsb_is_slash_generic r Hr), (is_slash_generic c Hc), (IH Hr).
  reflexivity.
Qed.

Lemma existsb_filename_chars_false (f : ascii -> bool) (l : list ascii) :
  existsb f l = false -> existsb f (Path.filename_chars l) = false.
Proof.
  induction l as [| c r IH]; simpl; [reflexivity |].
  intros H. apply orb_false_iff in H as [Hc Hr].
  destruct (existsb Path.is_sep r); [auto |].
  destruct (Path.is_sep c); [exact Hr |]. simpl. now rewrite Hc, Hr.
Qed.

Lemma before_colon_id (f : list ascii) :
  existsb is_colon f = false -> before_colon f = f.
Proof.
  unfold before_colon. induction f as [| c r IH]; simpl; [reflexivity |].
  intros H. apply orb_false_iff in H as [Hc Hr]. rewrite Hc. simpl.
  now rewrite (IH Hr).
Qed.

(** On a relative name without a backslash and without a colon, such as
    the name of a cache file for a plain key, the library of the Windows
    build and the generic format find the same file name, the same stem
    and the same extension. *)
Lemma native_agrees_with_generic (c : ascii) (r : list ascii) :
  Path.is_sep c = false ->
  existsb (fun c => Ascii.eqb c backslash) (c :: r) = false ->
  existsb is_colon (c :: r) = false ->
  filename_chars (c :: r) = Path.filename_chars (c :: r)
  /\ stem_chars (c :: r) = Path.stem_chars (c :: r)
  /\ extension_chars (c :: r)
     = match Path.find_extension (Path.filename_chars (c :: r)) with
       | Some p => drop p (Path.filename_chars (c :: r))
       | None => []
       end.
Proof.
  intros Hrel Hback Hcolon.
  assert (Hc : is_slash c = false).
  { simpl in Hback. apply orb_false_iff in Hback as [Hb _].
    now rewrite (is_slash_generic c Hb). }
  assert (Hroot : find_root_name_end (c :: r) = 0%nat).
  { unfold find_root_name_end. destruct r as [| d r]; [reflexivity |].
    cbn [length Nat.ltb Nat.leb has_drive_letter_prefix].
    simpl in Hcolon. apply orb_false_iff in Hcolon as [_ Hd].
    apply orb_false_iff in Hd as [Hd _]. rewrite Hd, andb_false_r.
    unfold char_at. simpl. now rewrite Hc. }
  assert (Hfile : filename_chars (c :: r) = Path.filename_chars (c :: r)).
  { unfold filename_chars, find_relative_path. rewrite Hroot.
    cbn [drop Nat.add find_if]. rewrite Hc. cbn [negb drop].
    now apply after_last_slash_generic. }
  unfold stem_chars, extension_chars, Path.stem_chars. rewrite Hfile.
  rewrite (before_colon_id _ (existsb_filename_chars_false _ _ Hcolon)).
  auto.
Qed.
End PathAgreement.

(** ** The generation loop *)

Section GenerationLoop.
Import ChatterboxTTS.

Variable rt : Runtime.
Variable config : GenerationConfig.
Variable conds : VoiceConditionals.t.
Variable textEmbeddings : list Z.
Variables condSeqLen textSeqLen hiddenSize : Z.

Abbreviation body := (loop_body rt config conds textEmbeddings condSeqLen
                    textSeqLen hiddenSize).
Abbreviation loop := (generation_loop rt config conds textEmbeddings condSeqLen
                    textSeqLen hiddenSize).

Lemma body_later (step : nat) (st : loop_state) :
  in_step st ->
  forall ins e, body (S step) st = (ins, e) ->
    (ins = None \/ ins = Some (later_inputs hiddenSize st))
    /\ match e with
       | Continue st' =>
           ins = Some (later_inputs hiddenSize st) /\ in_step st'
           /\ attention st' = attention st ++ [1]
           /\ currentPosition st' = currentPosition st + 1
           /\ exists tok, tok <> STOP_SPEECH_TOKEN
                /\ generatedTokens st' = generatedTokens st ++ [tok]
       | Stopped st' =>
           generatedTokens st' = generatedTokens st ++ [STOP_SPEECH_TOKEN]
       | _ => True
       end.
Proof.
  intros [Hcp Hlt] ins e. unfold loop_body.
  change (Nat.eqb (S step) 0) with false. cbv iota. simpl negb.
  destruct (VoiceConditionals.is_empty _); simpl andb; cbv iota.
  { intros [= <- <-]. auto. }
  assert (Hadd : add64 (currentPosition st) 1 = currentPosition st + 1).
  { unfold add64. apply wrap64_id. lia. }
  rewrite Hadd.
  destruct (vector_fits 8 (currentPosition st + 1)) eqn:Hfit; simpl negb; cbv iota.
  2:{ intros [= <- <-]. auto. }
  change (vector_fits 8 1) with true. simpl negb. cbv iota.
  assert (Hmask : resize (Z.to_nat (currentPosition st + 1)) 1 (attention st)
                  = attention st ++ [1]).
  { rewrite resize_ge by lia.
    replace (Z.to_nat (currentPosition st + 1) - length (attention st))%nat
      with 1%nat by lia.
    reflexivity. }
  assert (Hpos : (fun i => add64 (currentPosition st) i) <$> seqZ 0 1
                 = [currentPosition st]).
  { change (seqZ 0 1) with [0]. simpl. unfold add64.
    rewrite Z.add_0_r, wrap64_id by lia. reflexivity. }
  rewrite Hmask, Hpos. fold (later_inputs hiddenSize st).
  destruct (lm_tensors_created rt _ _); simpl negb; cbv iota.
  2:{ intros [= <- <-]. auto. }
  destruct (language_model rt _ _) as [logits |].
  2:{ intros [= <- <-]. auto. }
  destruct (sample rt config _ _) as [tok rng'].
  destruct (Z.eqb_spec tok STOP_SPEECH_TOKEN) as [-> | Hne].
  - intros [= <- <-]. auto.
  - intros [= <- <-]. split; [auto |]. simpl.
    apply vector_fits_8_range in Hfit.
    split; [reflexivity |]. split.
    { unfold in_step. simpl. rewrite length_app. simpl. lia. }
    split; [reflexivity |]. split; [reflexivity |].
    exists tok. auto.
Qed.

Lemma loop_later (remaining : nat) :
  forall step st calls e,
    in_step st ->
    loop remaining (S step) st = (calls, e) ->
    forall k ins, calls !! k = Some ins ->
      embedsShape ins = [1; 1; hiddenSize]
      /\ attentionMask ins = attention st ++ replicate (S k) 1
      /\ maskShape ins = [1; currentPosition st + Z.of_nat k + 1]
      /\ positionIds ins = [currentPosition st + Z.of_nat k]
      /\ posShape ins = [1; 1].
Proof.
  induction remaining as [| r IH]; intros step st calls e Hst Hloop k ins Hk.
  - simpl in Hloop. injection Hloop as <- <-. discriminate Hk.
  - simpl in Hloop.
    destruct (body (S step) st) as [ins0 e0] eqn:Hbody.
    destruct (body_later step st Hst ins0 e0 Hbody) as [Hins He0].
    assert (Hfirst : forall l, (option_list ins0 ++ l) !! 0%nat = Some ins ->
                       ins0 = Some (later_inputs hiddenSize st) ->
                       ins = later_inputs hiddenSize st).
    { intros l H ->. simpl in H. congruence. }
    assert (Hzero : ins = later_inputs hiddenSize st ->
              embedsShape ins = [1; 1; hiddenSize]
              /\ attentionMask ins = attention st ++ replicate 1 1
              /\ maskShape ins = [1; currentPosition st + Z.of_nat 0 + 1]
              /\ positionIds ins = [currentPosition st + Z.of_nat 0]
              /\ posShape ins = [1; 1]).
    { intros ->. simpl. rewrite Z.add_0_r. auto. }
    destruct e0 as [msg | a | st' | st'].
    1-3: injection Hloop as <- <-;
         destruct Hins as [-> | ->]; [discriminate Hk |];
         destruct k; [| discriminate Hk];
         apply Hzero; simpl in Hk; congruence.
    destruct (loop r (S (S step)) st') as [tr e'] eqn:Htail.
    injection Hloop as <- <-.
    destruct He0 as (-> & Hst' & Hatt & Hcp & _).
    destruct k as [| k'].
    + apply Hzero. simpl in Hk. congruence.
    + simpl in Hk.
      destruct (IH (S step) st' tr e' Hst' Htail k' ins Hk)
        as (H1 & H2 & H3 & H4 & H5).
      rewrite H1, H2, H3, H4, H5, Hatt, Hcp.
      rewrite <- app_assoc.
      replace (currentPosition st + 1 + Z.of_nat k')
        with (currentPosition st + Z.of_nat (S k')) by lia.
      auto.
Qed.

(** Every iteration appends the token it sampled; the stop token ends the
    loop, so it can only be the last one. *)
Lemma body_generated (step : nat) (st : loop_state) :
  forall ins e, body step st = (ins, e) ->
    match e with
    | Continue st' =>
        (exists i, ins = Some i)
        /\ exists tok, tok <> STOP_SPEECH_TOKEN
             /\ generatedTokens st' = generatedTokens st ++ [tok]
    | Stopped st' =>
        (exists i, ins = Some i)
        /\ generatedTokens st' = generatedTokens st ++ [STOP_SPEECH_TOKEN]
    | _ => True
    end.
Proof.
  intros ins e. unfold loop_body.
  destruct (_ && _); [intros [= <- <-]; exact I |].
  destruct (negb (vector_fits 8 _)); [intros [= <- <-]; exact I |].
  destruct (negb (vector_fits 8 _)); [intros [= <- <-]; exact I |].
  destruct (negb (lm_tensors_created rt _ _)); [intros [= <- <-]; exact I |].
  destruct (language_model rt _ _); [| intros [= <- <-]; exact I].
  destruct (sample rt config _ _) as [tok rng'].
  destruct (Z.eqb_spec tok STOP_SPEECH_TOKEN) as [-> | Hne];
    intros [= <- <-]; simpl; eauto.
Qed.


Lemma loop_generated (remaining : nat) :
  forall step st calls st',
    loop remaining step st = (calls, LoopDone st') ->
    exists ts,
      generatedTokens st' = generatedTokens st ++ ts
      /\ length ts = length calls
      /\ (length ts <= remaining)%nat
      /\ forall i, (S i < length ts)%nat -> ts !! i <> Some STOP_SPEECH_TOKEN.
Proof.
  induction remaining as [| r IH]; intros step st calls st' Hloop.
  - simpl in Hloop. injection Hloop as <- <-.
    exists []. rewrite app_nil_r. simpl. repeat split; [lia |].
    intros i Hi. lia.
  - simpl in Hloop.
    destruct (body step st) as [ins0 e0] eqn:Hbody.
    pose proof (body_generated step st ins0 e0 Hbody) as Hgen.
    destruct e0 as [msg | a | st1 | st1]; try discriminate Hloop.
    + injection Hloop as <- <-. destruct Hgen as [[i ->] Hgen].
      exists [STOP_SPEECH_TOKEN]. simpl.
      repeat split; [exact Hgen | lia |].
      intros j Hj. lia.
    + destruct (loop r (S step) st1) as [tr e'] eqn:Htail.
      injection Hloop as <- ->.
      destruct (IH (S step) st1 tr st' Htail) as (ts & Hts & Hcalls & Hlen & Hstop).
      destruct Hgen as ([i ->] & tok & Htok & Hst1).
      exists (tok :: ts). rewrite Hts, Hst1, <- app_assoc. simpl.
      repeat split; [lia | lia |].
      intros [| j] Hj; simpl.
      * congruence.
      * apply Hstop. lia.
Qed.

Abbreviation L0 := (add64 condSeqLen textSeqLen).
Abbreviation first := (first_inputs condSeqLen textSeqLen hiddenSize).

Lemma body_first (st : loop_state) :
  currentPosition st = 0 ->
  forall ins e, body 0 st = (ins, e) ->
    (ins = None \/ (ins = Some first /\ 0 <= L0 < 2 ^ 60))
    /\ match e with
       | Continue st' =>
           ins = Some first /\ in_step st'
           /\ attention st' = replicate (Z.to_nat L0) 1
           /\ currentPosition st' = L0
       | _ => True
       end.
Proof.
  intros Hcp ins e. unfold loop_body.
  change (Nat.eqb 0 0) with true. cbv iota. simpl negb. simpl andb. cbv iota.
  rewrite Hcp.
  destruct (vector_fits 8 L0) eqn:Hfit; simpl negb; cbv iota.
  2:{ intros [= <- <-]. auto. }
  apply vector_fits_8_range in Hfit.
  fold first.
  destruct (lm_tensors_created rt _ _); simpl negb; cbv iota.
  2:{ intros [= <- <-]. auto. }
  destruct (language_model rt _ _) as [logits |].
  2:{ intros [= <- <-]. auto. }
  destruct (sample rt config _ _) as [tok rng'].
  destruct (Z.eqb_spec tok STOP_SPEECH_TOKEN) as [-> | Hne];
    intros [= <- <-]; (split; [auto |]); [exact I |].
  simpl. split; [reflexivity |]. unfold in_step. simpl.
  rewrite length_replicate.
  assert (Hadd : add64 0 L0 = L0).
  { unfold add64 at 1. rewrite Z.add_0_l. apply wrap64_id. lia. }
  rewrite Hadd. repeat split; lia.
Qed.

(** The inputs of the whole run: the prefill, then one position at a
    time. *)
Lemma loop_calls (remaining : nat) (st : loop_state) :
  currentPosition st = 0 ->
  forall calls e, loop remaining 0 st = (calls, e) ->
  forall s ins, calls !! S s = Some ins ->
    0 <= L0 < 2 ^ 60
    /\ calls !! 0%nat = Some first
    /\ embedsShape ins = [1; 1; hiddenSize]
    /\ attentionMask ins = replicate (Z.to_nat L0) 1 ++ replicate (S s) 1
    /\ maskShape ins = [1; L0 + Z.of_nat s + 1]
    /\ positionIds ins = [L0 + Z.of_nat s]
    /\ posShape ins = [1; 1].
Proof.
  intros Hcp calls e Hloop s ins Hs.
  destruct remaining as [| r]; simpl in Hloop.
  { injection Hloop as <- <-. discriminate Hs. }
  destruct (body 0 st) as [ins0 e0] eqn:Hbody.
  destruct (body_first st Hcp ins0 e0 Hbody) as [Hins He0].
  destruct e0 as [msg | a | st' | st'].
  1-3: injection Hloop as <- <-; destruct ins0; discriminate Hs.
  destruct (loop r 1 st') as [tr e'] eqn:Htail.
  injection Hloop as <- <-.
  destruct He0 as (-> & Hst' & Hatt & Hcp').
  destruct Hins as [Hins | [_ Hrange]]; [discriminate Hins |].
  simpl in Hs.
  destruct (loop_later r 0 st' tr e' Hst' Htail s ins Hs)
    as (H1 & H2 & H3 & H4 & H5).
  rewrite Hatt in H2. rewrite Hcp' in H3, H4. auto 8.
Qed.

End GenerationLoop.

Section GenerateCall.
Import ChatterboxTTS.

Variable rt : Runtime.
Variable e : t.
Variable tokenIds : list Z.
Variable config : GenerationConfig.

Abbreviation conds := (m_conds e).
Abbreviation run := (Generate rt e tokenIds config).
Abbreviation condSeqLen :=
  (default 0 (VoiceConditionals.condEmbShape conds !! 1%nat)).
Abbreviation hiddenSize :=
  (default 0 (VoiceConditionals.condEmbShape conds !! 2%nat)).
Abbreviation textSeqLen := (Z.of_nat (length tokenIds)).

(** Either [Generate] returned before the loop, or its language-model
    calls are those of the loop entered at position 0 with the start
    token, and the decoder was called, if at all, after the loop had
    finished and on the tokens assembled from what it generated. *)
Lemma Generate_inv :
  (lm_calls run = [] /\ decoder_call run = None)
  \/ exists st0 loop_end,
       generation_loop rt config conds (RunEmbedTokens rt tokenIds) condSeqLen
         textSeqLen hiddenSize (Z.to_nat (maxNewTokens config)) 0 st0
       = (lm_calls run, loop_end)
       /\ currentPosition st0 = 0
       /\ generatedTokens st0 = [START_SPEECH_TOKEN]
       /\ match loop_end with
          | LoopDone st =>
              generated run = generatedTokens st
              /\ forall ins, decoder_call run = Some ins ->
                   decoder_inputs rt conds (decoder_tokens_of conds (generatedTokens st))
                     (decoder_input_names rt) = DecoderInputs ins
          | _ => decoder_call run = None
          end.
Proof.
  unfold Generate.
  destruct (negb (IsReady _)); [left; split; reflexivity |].
  destruct (negb (VoiceConditionals.IsValid _)); [left; split; reflexivity |].
  destruct (VoiceConditionals.is_empty tokenIds); [left; split; reflexivity |].
  set (e1 := if seed config =? 0 then _ else _).
  assert (He1 : m_conds e1 = conds) by (subst e1; destruct (seed config =? 0); reflexivity).
  rewrite He1.
  destruct (OnnxSessionManager.GetSession _ LANGUAGE_MODEL);
    [| left; split; reflexivity].
  destruct (OnnxSessionManager.GetSession _ EMBED_TOKENS);
    [| left; split; reflexivity].
  destruct (OnnxSessionManager.GetSession _ COND_DECODER);
    [| left; split; reflexivity].
  destruct (_ || _); [left; split; reflexivity |].
  destruct (VoiceConditionals.is_empty (RunEmbedTokens rt tokenIds));
    [left; split; reflexivity |].
  right.
  match goal with
  | |- context [generation_loop _ _ _ _ _ _ _ _ _ ?st] => exists st
  end.
  destruct (generation_loop _ _ _ _ _ _ _ _ _ _) as [calls [msg st | a st | st]].
  - exists (LoopFailed msg st). simpl. auto.
  - exists (LoopThrown a st). simpl. auto.
  - exists (LoopDone st).
    destruct (decoder_inputs _ _ _ _) as [ins | bad |] eqn:Hdec.
    + destruct (conditional_decoder rt ins); simpl; repeat split; auto;
        intros ? [= <-]; reflexivity.
    + simpl. repeat split; auto. discriminate.
    + simpl. repeat split; auto. discriminate.
Qed.
End GenerateCall.

(** ** The decoder input *)

Section DecoderInput.
Import ChatterboxTTS.

Lemma omap_lookup_seq {A : Type} (l : list A) (n : nat) :
  forall a, (a + n <= length l)%nat ->
    omap (fun i => l !! i) (seq a n) = take n (drop a l).
Proof.
  induction n as [| n IH]; intros a Ha; [reflexivity |].
  destruct (lookup_lt_is_Some_2 l a ltac:(lia)) as [x Hx].
  rewrite (drop_S l x a Hx). simpl. rewrite Hx. simpl.
  f_equal. apply IH. lia.
Qed.

Lemma without_trailing_stop_stop (l : list Z) :
  last l = Some STOP_SPEECH_TOKEN -> without_trailing_stop l = removelast l.
Proof. intros H. unfold without_trailing_stop. now rewrite H, Z.eqb_refl. Qed.

Lemma without_trailing_stop_other (l : list Z) :
  last l <> Some STOP_SPEECH_TOKEN -> without_trailing_stop l = l.
Proof.
  intros H. unfold without_trailing_stop.
  destruct (last l) as [t |]; [| reflexivity].
  destruct (Z.eqb_spec t STOP_SPEECH_TOKEN) as [-> | Hne]; [now destruct H | reflexivity].
Qed.

(** The index loop of [Generate] computes what its comment says. *)
Lemma speech_tokens_of_start (speech : list Z) :
  speech_tokens_of (START_SPEECH_TOKEN :: speech)
  = without_trailing_stop speech ++ replicate 3 SILENCE_TOKEN.
Proof.
  unfold speech_tokens_of. f_equal.
  cbn [length]. change (Nat.ltb 0 (S (length speech))) with true.
  rewrite andb_true_l. replace (S (length speech) - 1)%nat with (length speech) by lia.
  destruct speech as [| t speech'] using rev_ind.
  - reflexivity.
  - clear IHspeech'. rewrite length_app. simpl length.
    replace ((START_SPEECH_TOKEN :: speech' ++ [t]) !! (length speech' + 1)%nat)
      with (Some t).
    2:{ change (START_SPEECH_TOKEN :: speech' ++ [t])
          with ((START_SPEECH_TOKEN :: speech') ++ [t]).
        rewrite lookup_app_r by (simpl; lia).
        replace (length speech' + 1 - length (START_SPEECH_TOKEN :: speech'))%nat
          with 0%nat by (simpl; lia).
        reflexivity. }
    assert (Hlast : last (speech' ++ [t]) = Some t) by apply last_snoc.
    destruct (bool_decide_reflect (Some t = Some STOP_SPEECH_TOKEN)) as [Heq | Hne].
    + injection Heq as ->.
      rewrite without_trailing_stop_stop by exact Hlast.
      rewrite removelast_last.
      rewrite omap_lookup_seq by (simpl; rewrite length_app; simpl; lia).
      simpl drop. rewrite drop_0.
      replace (length speech' + 1 - 1)%nat with (length speech') by lia.
      now rewrite take_app_length.
    + rewrite without_trailing_stop_other by (rewrite Hlast; exact Hne).
      rewrite omap_lookup_seq by (simpl; rewrite length_app; simpl; lia).
      simpl drop. rewrite drop_0.
      replace (S (length speech' + 1) - 1)%nat
        with (length (speech' ++ [t])) by (rewrite length_app; simpl; lia).
      apply firstn_all.
Qed.

Lemma decoder_inputs_speech_tokens (rt : Runtime) (conds : VoiceConditionals.t)
    (decoderTokens : list Z) (names : list string) :
  forall inputs tensor,
    decoder_inputs rt conds decoderTokens names = DecoderInputs inputs ->
    In ("speech_tokens"%string, tensor) inputs ->
    tensor = {| tensor_data := decoderTokens;
                tensor_shape := [1; Z.of_nat (length decoderTokens)] |}.
Proof.
  induction names as [| name names IH]; intros inputs tensor Hdec Hin.
  - injection Hdec as <-. destruct Hin.
  - cbn [decoder_inputs] in Hdec.
    destruct (String.eqb_spec name "speech_tokens") as [-> | Hne1].
    { destruct (negb (create_tensor rt _ _)); [discriminate Hdec |].
      destruct (decoder_inputs rt conds decoderTokens names) as [l | bad |];
        try discriminate Hdec.
      injection Hdec as <-. destruct Hin as [[= <-] | Hin]; [reflexivity |].
      now apply (IH l). }
    destruct (String.eqb name "speaker_embeddings").
    { destruct (negb (create_tensor rt _ _)); [discriminate Hdec |].
      destruct (decoder_inputs rt conds decoderTokens names) as [l | bad |];
        try discriminate Hdec.
      injection Hdec as <-. destruct Hin as [[= -> _] | Hin]; [now destruct Hne1 |].
      now apply (IH l). }
    destruct (String.eqb name "speaker_features"); [| discriminate Hdec].
    destruct (negb (create_tensor rt _ _)); [discriminate Hdec |].
    destruct (decoder_inputs rt conds decoderTokens names) as [l | bad |];
      try discriminate Hdec.
    injection Hdec as <-. destruct Hin as [[= -> _] | Hin]; [now destruct Hne1 |].
    now apply (IH l).
Qed.

(** With the three input names of the decoder model, and tensors that can
    be created, the tokens do reach it. *)
Lemma decoder_inputs_standard (rt : Runtime) (conds : VoiceConditionals.t)
    (decoderTokens : list Z) :
  (forall n shape, create_tensor rt n shape = true) ->
  exists others,
    decoder_inputs rt conds decoderTokens
      ["speech_tokens"; "speaker_embeddings"; "speaker_features"]%string
    = DecoderInputs
        (("speech_tokens"%string,
          {| tensor_data := decoderTokens;
             tensor_shape := [1; Z.of_nat (length decoderTokens)] |}) :: others).
Proof. intros Hok. simpl. rewrite !Hok. simpl. eexists. reflexivity. Qed.

(** When the token sampled at step [n] is the stop token, it is the last
    one, and [n] sampled tokens reach the decoder. *)
Lemma stop_at_step (prompt speech : list Z) (n : nat) :
  (forall i, (S i < length speech)%nat -> speech !! i <> Some STOP_SPEECH_TOKEN) ->
  speech !! n = Some STOP_SPEECH_TOKEN ->
  last (START_SPEECH_TOKEN :: speech) = Some STOP_SPEECH_TOKEN
  /\ length (prompt ++ without_trailing_stop speech
               ++ [SILENCE_TOKEN; SILENCE_TOKEN; SILENCE_TOKEN])
     = (length prompt + n + 3)%nat.
Proof.
  intros Hstop Hn.
  assert (Hlen : length speech = S n).
  { apply lookup_lt_Some in Hn as Hlt.
    destruct (Nat.lt_ge_cases (S n) (length speech)) as [Hbig | Hsmall]; [| lia].
    now destruct (Hstop n Hbig). }
  assert (Hlast : last speech = Some STOP_SPEECH_TOKEN).
  { rewrite last_lookup, Hlen. exact Hn. }
  split.
  - change (START_SPEECH_TOKEN :: speech) with ([START_SPEECH_TOKEN] ++ speech).
    now rewrite last_app, Hlast.
  - rewrite !length_app, (without_trailing_stop_stop _ Hlast).
    rewrite removelast_firstn_len, length_take, Hlen. simpl. lia.
Qed.

Variable rt : Runtime.
Variable e : t.
Variable tokenIds : list Z.
Variable config : GenerationConfig.

Abbreviation run := (Generate rt e tokenIds config).

(** C2: whenever [Generate] calls the conditional decoder, the loop has
    run to its end, the generated sequence is the start token followed by
    one sampled token for each language-model run, and the tensor bound to
    [speech_tokens] holds the prompt tokens of the conditionals, then the
    sampled tokens without their trailing stop token, then three silence
    tokens.  In particular, when the token sampled at step 5 is the stop
    token, the decoder input has [|prompt_token| + 5 + 3] tokens. *)
Theorem Generate_decoder_input (inputs : list (string * Tensor)) (tensor : Tensor) :
  decoder_call run = Some inputs ->
  In ("speech_tokens"%string, tensor) inputs ->
  exists speech,
    generated run = START_SPEECH_TOKEN :: speech
    /\ length speech = length (lm_calls run)
    /\ tensor_data tensor
       = VoiceConditionals.promptToken (m_conds e)
           ++ without_trailing_stop speech
           ++ [SILENCE_TOKEN; SILENCE_TOKEN; SILENCE_TOKEN]
    /\ tensor_shape tensor = [1; Z.of_nat (length (tensor_data tensor))]
    /\ (speech !! 5%nat = Some STOP_SPEECH_TOKEN ->
        last (generated run) = Some STOP_SPEECH_TOKEN
        /\ length (tensor_data tensor)
           = (length (VoiceConditionals.promptToken (m_conds e)) + 5 + 3)%nat).
Proof.
  intros Hcall Hin.
  destruct (Generate_inv rt e tokenIds config) as [[_ Hnone] | (st0 & le & Hloop & _ & Hstart & Hend)].
  { rewrite Hnone in Hcall. discriminate Hcall. }
  destruct le as [msg st | a st | st];
    try (rewrite Hend in Hcall; discriminate Hcall).
  destruct Hend as [Hgen Hdec]. specialize (Hdec inputs Hcall).
  apply loop_generated in Hloop as (speech & Hspeech & Hcalls & _ & Hstop).
  rewrite Hstart in Hspeech. simpl in Hspeech.
  rewrite (decoder_inputs_speech_tokens _ _ _ _ _ _ Hdec Hin). simpl.
  exists speech. rewrite Hgen, Hspeech.
  unfold decoder_tokens_of. rewrite speech_tokens_of_start.
  split; [reflexivity |]. split; [exact Hcalls |].
  split; [reflexivity |]. split; [reflexivity |].
  intros Hfive.
  exact (stop_at_step (VoiceConditionals.promptToken (m_conds e)) speech 5 Hstop Hfive).
Qed.

End DecoderInput.

Lemma Generate_decoder_input_witness :
  exists tensor,
    In ("speech_tokens"%string, tensor)
      (default []
         (ChatterboxTTS.decoder_call
            (ChatterboxTTS.Generate Sample.runtime Sample.engine Sample.tokenIds
               Sample.config)))
    /\ tensor_data tensor = [11; 12; 100; 100; 100; 100; 100; 4299; 4299; 4299]
    /\ length (tensor_data tensor) = (2 + 5 + 3)%nat.
Proof.
  pose (tensor := {| tensor_data := [11; 12; 100; 100; 100; 100; 100; 4299; 4299; 4299];
                     tensor_shape := [1; 10] |}).
  pose (inputs :=
          [("speech_tokens"%string, tensor);
           ("speaker_embeddings"%string,
            {| tensor_data := [0; 0]; tensor_shape := [1; 2] |});
           ("speaker_features"%string,
            {| tensor_data := [0; 0; 0; 0]; tensor_shape := [1; 2; 2] |})]).
  assert (Hcall : ChatterboxTTS.decoder_call
                    (ChatterboxTTS.Generate Sample.runtime Sample.engine
                       Sample.tokenIds Sample.config) = Some inputs)
    by (vm_compute; reflexivity).
  exists tensor. rewrite Hcall. split; [left; reflexivity |].
  split; [reflexivity |].
  destruct (Generate_decoder_input Sample.runtime Sample.engine Sample.tokenIds
              Sample.config inputs tensor Hcall (or_introl eq_refl))
    as (speech & Hgen & _ & _ & _ & Hfive).
  assert (Hspeech : speech = [100; 100; 100; 100; 100; 6562]).
  { assert (Hrun : ChatterboxTTS.generated
                     (ChatterboxTTS.Generate Sample.runtime Sample.engine
                        Sample.tokenIds Sample.config)
                   = 6561 :: [100; 100; 100; 100; 100; 6562])
      by (vm_compute; reflexivity).
    rewrite Hrun in Hgen. now injection Hgen as <-. }
  subst speech. exact (proj2 (Hfive eq_refl)).
Defined.

(** ** The inputs of the language model, step by step *)

Section StepInvariants.
Import ChatterboxTTS.

Lemma sum_Z_ones (n : nat) :
  forall l : list LmInputs,
    (n <= length l)%nat ->
    (forall k x, (k < n)%nat -> l !! k = Some x -> seq_axis x = 1) ->
    sum_Z (seq_axis <$> take n l) = Z.of_nat n.
Proof.
  induction n as [| n IH]; intros l Hlen Hone; [reflexivity |].
  destruct l as [| x l]; [simpl in Hlen; lia |].
  cbn [take fmap list_fmap sum_Z fold_right].
  rewrite (Hone 0%nat x) by (reflexivity || lia).
  change (fold_right Z.add 0 (seq_axis <$> take n l)) with (sum_Z (seq_axis <$> take n l)).
  rewrite IH.
  - lia.
  - simpl in Hlen. lia.
  - intros k y Hk Hy. apply (Hone (S k) y); [lia | exact Hy].
Qed.

Variable rt : Runtime.
Variable e : t.
Variable tokenIds : list Z.
Variable config : GenerationConfig.

Abbreviation run := (Generate rt e tokenIds config).

(** C6: the inputs built at a step [S s] after the first, and those of the
    step before.  The sequence axis of [inputs_embeds] is 1; the attention
    mask is one longer than at the step before, and its shape says so;
    [position_ids] has as many entries as the sequence axis and starts at
    the sum of the sequence axes of all earlier steps. *)
Theorem Generate_step_invariants (s : nat) (ins : LmInputs) :
  lm_calls run !! S s = Some ins ->
  exists prev,
    lm_calls run !! s = Some prev
    /\ embedsShape ins !! 1%nat = Some 1
    /\ length (attentionMask ins) = S (length (attentionMask prev))
    /\ maskShape ins !! 1%nat = Some (Z.of_nat (length (attentionMask ins)))
    /\ Z.of_nat (length (positionIds ins)) = seq_axis ins
    /\ positionIds ins !! 0%nat
       = Some (sum_Z (seq_axis <$> take (S s) (lm_calls run))).
Proof.
  intros Hs.
  destruct (Generate_inv rt e tokenIds config)
    as [[Hnil _] | (st0 & le & Hloop & Hcp & _ & _)].
  { rewrite Hnil in Hs. discriminate Hs. }
  pose proof (loop_calls _ _ _ _ _ _ _ _ st0 Hcp _ _ Hloop) as Hcalls.
  set (L0 := add64 _ _) in Hcalls.
  destruct (Hcalls s ins Hs) as (Hrange & Hfirst & Hemb & Hmask & Hshape & Hpos & _).
  assert (Hprev : exists prev, lm_calls run !! s = Some prev
                    /\ length (attentionMask prev) = (Z.to_nat L0 + s)%nat).
  { destruct s as [| s'].
    - eexists. split; [exact Hfirst |]. simpl. rewrite length_replicate. lia.
    - destruct (lookup_lt_is_Some_2 (lm_calls run) (S s')) as [prev Hprev].
      { apply lookup_lt_Some in Hs. lia. }
      exists prev. split; [exact Hprev |].
      destruct (Hcalls s' prev Hprev) as (_ & _ & _ & Hm & _).
      rewrite Hm, length_app, !length_replicate. lia. }
  destruct Hprev as (prev & Hprev & Hlen).
  exists prev. split; [exact Hprev |].
  assert (Haxis : seq_axis ins = 1) by (unfold seq_axis; now rewrite Hemb).
  rewrite Haxis, Hemb, Hmask, Hshape, Hpos, Hlen.
  rewrite length_app, !length_replicate.
  split; [reflexivity |]. split; [lia |].
  split; [simpl; f_equal; lia |]. split; [reflexivity |].
  simpl. f_equal.
  destruct (lm_calls run) as [| c0 tl] eqn:Hlm; [discriminate Hs |].
  simpl in Hfirst. injection Hfirst as ->.
  cbn [take fmap list_fmap sum_Z fold_right].
  change (fold_right Z.add 0 (seq_axis <$> take s tl))
    with (sum_Z (seq_axis <$> take s tl)).
  rewrite sum_Z_ones.
  - reflexivity.
  - simpl in Hs. apply lookup_lt_Some in Hs. lia.
  - intros k x Hk Hx.
    destruct (Hcalls k x Hx) as (_ & _ & Hx1 & _).
    unfold seq_axis. now rewrite Hx1.
Qed.
End StepInvariants.

Lemma Generate_step_invariants_witness :
  exists ins prev,
    ChatterboxTTS.lm_calls
      (ChatterboxTTS.Generate Sample.runtime Sample.engine Sample.tokenIds
         Sample.config) !! 3%nat = Some ins
    /\ ChatterboxTTS.lm_calls
         (ChatterboxTTS.Generate Sample.runtime Sample.engine Sample.tokenIds
            Sample.config) !! 2%nat = Some prev
    /\ embedsShape ins !! 1%nat = Some 1
    /\ length (attentionMask ins) = S (length (attentionMask prev))
    /\ positionIds ins !! 0%nat
       = Some (sum_Z (seq_axis <$> take 3
                 (ChatterboxTTS.lm_calls
                    (ChatterboxTTS.Generate Sample.runtime Sample.engine
                       Sample.tokenIds Sample.config)))).
Proof.
  pose (ins := {| embedsShape := [1; 1; 4]; attentionMask := replicate 10 1;
                  maskShape := [1; 10]; positionIds := [9]; posShape := [1; 1] |}).
  assert (Hs : ChatterboxTTS.lm_calls
                 (ChatterboxTTS.Generate Sample.runtime Sample.engine
                    Sample.tokenIds Sample.config) !! 3%nat = Some ins)
    by (vm_compute; reflexivity).
  destruct (Generate_step_invariants Sample.runtime Sample.engine Sample.tokenIds
              Sample.config 2 ins Hs)
    as (prev & Hprev & Haxis & Hmask & _ & _ & Hpos).
  exists ins, prev. auto.
Defined.

(** ** The prefill step *)

Section Prefill.
Import ChatterboxTTS.

Lemma loop_first_call (rt : Runtime) (config : GenerationConfig)
    (conds : VoiceConditionals.t) (textEmbeddings : list Z)
    (condSeqLen textSeqLen hiddenSize : Z) (remaining : nat) (st : loop_state) :
  currentPosition st = 0 ->
  forall calls e ins,
    generation_loop rt config conds textEmbeddings condSeqLen textSeqLen hiddenSize
      remaining 0 st = (calls, e) ->
    calls !! 0%nat = Some ins ->
    ins = first_inputs condSeqLen textSeqLen hiddenSize
    /\ 0 <= add64 condSeqLen textSeqLen < 2 ^ 60.
Proof.
  intros Hcp calls e ins Hloop Hins.
  destruct remaining as [| r]; simpl in Hloop.
  { injection Hloop as <- <-. discriminate Hins. }
  destruct (loop_body rt config conds textEmbeddings condSeqLen textSeqLen
              hiddenSize 0 st) as [ins0 e0] eqn:Hbody.
  destruct (body_first rt config conds textEmbeddings condSeqLen textSeqLen
              hiddenSize st Hcp ins0 e0 Hbody) as [Hfirst He0].
  assert (Hhead : ins0 = Some ins).
  { destruct e0 as [msg | a | st' | st'].
    1-3: injection Hloop as <- <-; destruct ins0; [exact Hins | discriminate Hins].
    destruct He0 as (-> & _).
    destruct (generation_loop _ _ _ _ _ _ _ _ _ _) as [tr e'].
    injection Hloop as <- <-. exact Hins. }
  subst ins0.
  destruct Hfirst as [Hnone | [Hsome Hrange]]; [discriminate Hnone |].
  injection Hsome as ->. auto.
Qed.

(** The first language-model call of [Generate] takes the conditioning and
    the text at once: its sequence axis is their length [L], its mask has
    [L] ones and its positions count from 0, the sum over no step at all. *)
Lemma Generate_prefill (rt : Runtime) (e : t) (tokenIds : list Z)
    (config : GenerationConfig) (ins : LmInputs) :
  lm_calls (Generate rt e tokenIds config) !! 0%nat = Some ins ->
  0 <= seq_axis ins
  /\ seq_axis ins
     = add64 (default 0 (VoiceConditionals.condEmbShape (m_conds e) !! 1%nat))
         (Z.of_nat (length tokenIds))
  /\ Z.of_nat (length (attentionMask ins)) = seq_axis ins
  /\ Z.of_nat (length (positionIds ins)) = seq_axis ins
  /\ (0 < seq_axis ins -> positionIds ins !! 0%nat = Some 0).
Proof.
  intros Hins.
  destruct (Generate_inv rt e tokenIds config)
    as [[Hnil _] | (st0 & le & Hloop & Hcp & _ & _)].
  { rewrite Hnil in Hins. discriminate Hins. }
  destruct (loop_first_call _ _ _ _ _ _ _ _ st0 Hcp _ _ _ Hloop Hins) as [-> Hrange].
  unfold seq_axis, first_inputs. cbn [embedsShape attentionMask positionIds].
  set (L := add64 _ _) in *. simpl.
  rewrite length_replicate, length_fmap, length_seqZ.
  repeat split; try lia.
  intros Hpos. rewrite list_lookup_fmap, lookup_seqZ_lt by lia. reflexivity.
Qed.
End Prefill.

(** ** Object representations *)

Section Representations.

Lemma Z_of_byte_of_Z (z : Z) : Z_of_byte (byte_of_Z z) = z mod 256.
Proof.
  unfold Z_of_byte, byte_of_Z.
  assert (Hr : 0 <= z mod 256 < 256) by (apply Z.mod_pos_bound; lia).
  destruct (Byte.of_N (Z.to_N (z mod 256))) as [b |] eqn:Hb.
  - simpl. apply Byte.to_of_N in Hb. rewrite Hb. lia.
  - exfalso. apply Byte.of_N_None_iff in Hb. lia.
Qed.

Lemma Z_of_byte_range (b : byte) : 0 <= Z_of_byte b < 256.
Proof.
  unfold Z_of_byte. pose proof (Byte.to_N_bounded b). lia.
Qed.

Lemma length_le_encode (n : nat) : forall z, length (le_encode n z) = n.
Proof. induction n as [| n IH]; intros z; simpl; [reflexivity | now rewrite IH]. Qed.

Lemma le_decode_encode (n : nat) :
  forall z, le_decode (le_encode n z) = z mod 256 ^ Z.of_nat n.
Proof.
  induction n as [| n IH]; intros z.
  - simpl. now rewrite Z.mod_1_r.
  - cbn [le_encode le_decode]. rewrite Z_of_byte_of_Z, IH.
    rewrite Nat2Z.inj_succ, Z.pow_succ_r by lia.
    rewrite (Z.rem_mul_r z 256 (256 ^ Z.of_nat n)) by lia. reflexivity.
Qed.

Lemma le_decode_encode_small (n : nat) (z : Z) :
  0 <= z < 256 ^ Z.of_nat n -> le_decode (le_encode n z) = z.
Proof. intros H. rewrite le_decode_encode. now apply Z.mod_small. Qed.

Lemma to_signed64_mod (z : Z) : in_int64 z -> to_signed64 (z mod 2 ^ 64) = z.
Proof.
  unfold in_int64. intros H. unfold to_signed64.
  rewrite Z.mod_mod by lia.
  destruct (Z.ltb_spec (z mod 2 ^ 64) (2 ^ 63)) as [Hlt | Hge].
  - destruct (Z.neg_nonneg_cases z) as [Hneg | Hpos].
    + rewrite <- (Z.mod_add z 1 (2 ^ 64)) in Hlt by lia.
      rewrite Z.mod_small in Hlt; lia.
    + apply Z.mod_small. lia.
  - destruct (Z.neg_nonneg_cases z) as [Hneg | Hpos].
    + rewrite <- (Z.mod_add z 1 (2 ^ 64)) by lia.
      rewrite Z.mod_small; lia.
    + rewrite Z.mod_small in Hge; lia.
Qed.

Lemma length_encode_elems (width : nat) (l : list Z) :
  length (encode_elems width l) = (length l * width)%nat.
Proof.
  unfold encode_elems. induction l as [| z l IH]; simpl; [reflexivity |].
  now rewrite length_app, length_le_encode, IH.
Qed.

Lemma decode_encode_elems (width : nat) (signed : bool) (l : list Z) :
  forall tail,
    Forall (reads_back width signed) l ->
    decode_elems width signed (length l) (encode_elems width l ++ tail) = l.
Proof.
  induction l as [| z l IH]; intros tail Hall; [reflexivity |].
  apply Forall_cons in Hall as [Hz Hl].
  unfold encode_elems. cbn [map concat length decode_elems].
  rewrite <- app_assoc.
  rewrite take_app_length' by (symmetry; apply length_le_encode).
  rewrite drop_app_length' by (symmetry; apply length_le_encode).
  rewrite le_decode_encode. fold (encode_elems width l).
  rewrite (IH tail Hl). f_equal. exact Hz.
Qed.

Lemma uint32_reads_back (l : list Z) :
  Forall in_uint32 l -> Forall (reads_back 4 false) l.
Proof.
  intros H. eapply Forall_impl; [exact H |].
  intros z Hz. unfold reads_back, in_uint32 in *.
  apply Z.mod_small. change (256 ^ Z.of_nat 4) with (2 ^ 32). lia.
Qed.

Lemma int64_reads_back (l : list Z) :
  Forall in_int64 l -> Forall (reads_back 8 true) l.
Proof.
  intros H. eapply Forall_impl; [exact H |].
  intros z Hz. unfold reads_back.
  change (256 ^ Z.of_nat 8) with (2 ^ 64). now apply to_signed64_mod.
Qed.
End Representations.

(** ** Streams *)

Section Streams.

Lemma stream_read_exact (bs tail : list byte) (n : Z) :
  n = Z.of_nat (length bs) ->
  stream_read n {| rest := bs ++ tail; failbit := false |}
  = (bs, {| rest := tail; failbit := false |}).
Proof.
  intros ->. unfold stream_read. simpl.
  rewrite length_app.
  destruct (Z.leb_spec (Z.of_nat (length bs)) (Z.of_nat (length bs + length tail)));
    [| lia].
  rewrite Nat2Z.id, take_app_length, drop_app_length. reflexivity.
Qed.

Lemma read_scalar_exact (width : nat) (prior z : Z) (tail : list byte) :
  0 <= z < 256 ^ Z.of_nat width ->
  read_scalar width prior
    {| rest := le_encode width z ++ tail; failbit := false |}
  = (z, {| rest := tail; failbit := false |}).
Proof.
  intros Hz. unfold read_scalar.
  rewrite stream_read_exact by now rewrite length_le_encode.
  rewrite length_le_encode.
  rewrite (drop_ge (le_encode width prior)) by (rewrite length_le_encode; lia).
  rewrite app_nil_r, le_decode_encode_small by exact Hz. reflexivity.
Qed.

Lemma read_elems_exact (width : nat) (signed : bool) (l : list Z)
    (tail : list byte) (count nbytes : Z) :
  count = Z.of_nat (length l) ->
  nbytes = Z.of_nat (length l) * Z.of_nat width ->
  Forall (reads_back width signed) l ->
  read_elems width signed count nbytes
    {| rest := encode_elems width l ++ tail; failbit := false |}
  = Ret (l, {| rest := tail; failbit := false |}).
Proof.
  intros -> -> Hall. unfold read_elems.
  rewrite stream_read_exact by (rewrite length_encode_elems; lia).
  rewrite Nat2Z.id, length_encode_elems, Nat.ltb_irrefl, Nat.sub_diag.
  simpl replicate. now rewrite decode_encode_elems.
Qed.
End Streams.

(** ** Saving and loading a record *)

Section SaveLoad.
Import VoiceConditionals.

Lemma readArray_writeArray (width : nat) (signed : bool) (junk : nat -> Z)
    (site : nat) (data shape : list Z) (tail : list byte) :
  (0 < width)%nat ->
  Forall (reads_back width signed) data ->
  Forall (reads_back 8 true) shape ->
  array_fits (Z.of_nat width) data shape ->
  readArray width signed junk site
    {| rest := writeArray width data shape ++ tail; failbit := false |}
  = Ret (data, shape, {| rest := tail; failbit := false |}).
Proof.
  intros Hwidth Hdata Hshape [Hrank Hbytes].
  unfold PTRDIFF_MAX in Hbytes.
  unfold readArray, writeArray. rewrite <- !app_assoc.
  rewrite read_scalar_exact by (change (256 ^ Z.of_nat 4) with (2 ^ 32); lia).
  replace (vector_fits 8 (Z.of_nat (length shape))) with true
    by (symmetry; apply vector_fits_spec; unfold PTRDIFF_MAX; lia).
  simpl negb. cbv iota.
  rewrite (read_elems_exact 8 true shape) by (reflexivity || exact Hshape).
  cbn [mbind outcome_bind].
  rewrite read_scalar_exact by (change (256 ^ Z.of_nat 8) with (2 ^ 64); lia).
  rewrite Z.div_mul by lia.
  replace (vector_fits (Z.of_nat width) (Z.of_nat (length data))) with true
    by (symmetry; apply vector_fits_spec; unfold PTRDIFF_MAX; lia).
  simpl negb. cbv iota.
  rewrite (read_elems_exact width signed data) by (reflexivity || exact Hdata).
  reflexivity.
Qed.

(** Reading what [Save] streams gives the record back, whatever follows
    in the file and whatever the uninitialised locals held. *)
Lemma parse_serialize (junk : nat -> Z) (v : t) (tail : list byte) :
  well_typed v -> representable v ->
  parse junk (serialize v ++ tail) = Ret (Some v).
Proof.
  intros [W1 W2 W3 W4 W5 W6 W7 W8] [R1 R2 R3 R4].
  unfold parse, serialize. rewrite <- !app_assoc.
  rewrite read_scalar_exact by (vm_compute; split; [discriminate | reflexivity]).
  rewrite Z.eqb_refl. simpl negb. cbv iota.
  rewrite read_scalar_exact by (vm_compute; split; [discriminate | reflexivity]).
  rewrite Z.eqb_refl. simpl negb. cbv iota.
  rewrite (readArray_writeArray 4 false)
    by (auto using uint32_reads_back, int64_reads_back || lia).
  cbn [mbind outcome_bind].
  rewrite (readArray_writeArray 8 true)
    by (auto using uint32_reads_back, int64_reads_back || lia).
  cbn [mbind outcome_bind].
  rewrite (readArray_writeArray 4 false)
    by (auto using uint32_reads_back, int64_reads_back || lia).
  cbn [mbind outcome_bind].
  rewrite (readArray_writeArray 4 false)
    by (auto using uint32_reads_back, int64_reads_back || lia).
  cbn [mbind outcome_bind]. simpl failbit. cbv iota.
  now destruct v.
Qed.

Lemma Save_true (fs fs' : FileSystem) (v : t) (path : string) :
  Save fs v path = (Ret true, fs') ->
  IsValid v = true /\ fs_files fs' !! path = Some (serialize v).
Proof.
  unfold Save. destruct (IsValid v); simpl negb; cbv iota; [| discriminate].
  destruct (if Path.has_parent_path path then _ else _) as [[made fs1] |];
    [| discriminate].
  destruct (can_open_for_write fs1 path); simpl negb; cbv iota; [| discriminate].
  intros [= <-]. split; [reflexivity |]. simpl. apply lookup_insert_eq.
Qed.

Lemma Save_can_save (fs : FileSystem) (v : t) (path : string) :
  IsValid v = true -> can_save fs path = true ->
  exists fs', Save fs v path = (Ret true, fs').
Proof.
  unfold Save, can_save. intros -> Hsave. simpl negb. cbv iota.
  destruct (if Path.has_parent_path path then _ else _) as [[made fs1] |];
    [| discriminate].
  rewrite Hsave. simpl. eauto.
Qed.

(** C3: a valid record whose elements and sizes are those of its C++
    types is saved wherever the file system lets a file be written, and
    [Load] of the same path then returns a record equal to it in all four
    arrays and all four shapes. *)
Theorem Save_then_Load (junk : nat -> Z) (fs : FileSystem) (v : t)
    (path : string) :
  IsValid v = true -> well_typed v -> representable v ->
  can_save fs path = true ->
  exists fs',
    Save fs v path = (Ret true, fs')
    /\ Load junk fs' path = Ret (Some v).
Proof.
  intros Hvalid Htyped Hrep Hsave.
  destruct (Save_can_save fs v path Hvalid Hsave) as [fs' Hfs'].
  exists fs'. split; [exact Hfs' |].
  apply Save_true in Hfs' as [_ Hfile].
  unfold Load. rewrite Hfile.
  rewrite <- (app_nil_r (serialize v)). now apply parse_serialize.
Qed.

(** Without the condition on the file system: whenever [Save] reported
    success, [Load] gives the record back. *)
Corollary Load_after_Save (junk : nat -> Z) (fs fs' : FileSystem) (v : t)
    (path : string) :
  well_typed v -> representable v ->
  Save fs v path = (Ret true, fs') ->
  Load junk fs' path = Ret (Some v).
Proof.
  intros Htyped Hrep Hfs'. apply Save_true in Hfs' as [_ Hfile].
  unfold Load. rewrite Hfile.
  rewrite <- (app_nil_r (serialize v)). now apply parse_serialize.
Qed.
End SaveLoad.

Lemma Save_then_Load_witness :
  exists fs',
    VoiceConditionals.Save empty_disk Sample.conds "cache/voice.cond"
      = (Ret true, fs')
    /\ VoiceConditionals.Load (fun _ => 0) fs' "cache/voice.cond"
       = Ret (Some Sample.conds).
Proof.
  apply (Save_then_Load (fun _ => 0) empty_disk Sample.conds "cache/voice.cond").
  - reflexivity.
  - split; simpl; repeat constructor; unfold in_uint32, in_int64; lia.
  - split; split; simpl; unfold PTRDIFF_MAX; lia.
  - vm_compute. reflexivity.
Defined.

(** ** Files that are not cache files *)

Section BadFiles.
Import VoiceConditionals.

Lemma parse_wrong_magic (junk : nat -> Z) (magic : Z) (tail : list byte) :
  0 <= magic < 2 ^ 32 -> magic <> MAGIC ->
  parse junk (le_encode 4 magic ++ tail) = Ret None.
Proof.
  intros Hrange Hne. unfold parse.
  rewrite read_scalar_exact by (change (256 ^ Z.of_nat 4) with (2 ^ 32); lia).
  destruct (Z.eqb_spec magic MAGIC); [contradiction | reflexivity].
Qed.

Lemma parse_wrong_version (junk : nat -> Z) (version : Z) (tail : list byte) :
  0 <= version < 2 ^ 32 -> version <> VERSION ->
  parse junk (le_encode 4 MAGIC ++ le_encode 4 version ++ tail) = Ret None.
Proof.
  intros Hrange Hne. unfold parse.
  rewrite read_scalar_exact by (vm_compute; split; [discriminate | reflexivity]).
  rewrite Z.eqb_refl. simpl negb. cbv iota.
  rewrite read_scalar_exact by (change (256 ^ Z.of_nat 4) with (2 ^ 32); lia).
  destruct (Z.eqb_spec version VERSION); [contradiction | reflexivity].
Qed.

(** A file too short to hold the magic is rejected when the local it was
    to fill did not happen to hold the magic already. *)
Lemma parse_empty_file (junk : nat -> Z) :
  junk 0%nat mod 2 ^ 32 <> MAGIC -> parse junk [] = Ret None.
Proof.
  intros Hne. unfold parse, read_scalar, stream_read. simpl.
  rewrite !Z_of_byte_of_Z.
  match goal with |- context [negb (?m =? MAGIC)] => assert (Hm : m = junk 0%nat mod 2 ^ 32) end.
  { pose proof (le_decode_encode 4 (junk 0%nat)) as H. simpl in H.
    rewrite !Z_of_byte_of_Z in H. exact H. }
  rewrite Hm. destruct (Z.eqb_spec (junk 0%nat mod 2 ^ 32) MAGIC);
    [contradiction | reflexivity].
Qed.

Import VoiceConditionalsCache.

(** When [Load] returns no value, [LoadFromDisk] reports failure and the
    in-memory tier is what it was. *)
Lemma LoadFromDisk_miss (junk : nat -> Z) (fs : FileSystem)
    (c : VoiceConditionalsCache.t) (key : string) :
  Load junk fs (GetCachePath c key) = Ret None ->
  LoadFromDisk junk fs c key = (Ret false, c).
Proof. intros H. unfold LoadFromDisk. now rewrite H. Qed.

Lemma LoadFromDisk_wrong_magic (junk : nat -> Z) (fs : FileSystem)
    (c : VoiceConditionalsCache.t) (key : string) (magic : Z) (tail : list byte) :
  fs_files fs !! GetCachePath c key = Some (le_encode 4 magic ++ tail) ->
  0 <= magic < 2 ^ 32 -> magic <> MAGIC ->
  Load junk fs (GetCachePath c key) = Ret None
  /\ LoadFromDisk junk fs c key = (Ret false, c).
Proof.
  intros Hfile Hrange Hne.
  assert (H : Load junk fs (GetCachePath c key) = Ret None).
  { unfold Load. rewrite Hfile. now apply parse_wrong_magic. }
  split; [exact H | now apply LoadFromDisk_miss].
Qed.

Lemma LoadFromDisk_wrong_version (junk : nat -> Z) (fs : FileSystem)
    (c : VoiceConditionalsCache.t) (key : string) (version : Z) (tail : list byte) :
  fs_files fs !! GetCachePath c key
    = Some (le_encode 4 MAGIC ++ le_encode 4 version ++ tail) ->
  0 <= version < 2 ^ 32 -> version <> VERSION ->
  Load junk fs (GetCachePath c key) = Ret None
  /\ LoadFromDisk junk fs c key = (Ret false, c).
Proof.
  intros Hfile Hrange Hne.
  assert (H : Load junk fs (GetCachePath c key) = Ret None).
  { unfold Load. rewrite Hfile. now apply parse_wrong_version. }
  split; [exact H | now apply LoadFromDisk_miss].
Qed.

(** C7 fails on a cut-off file: the byte count of the first array is used
    to resize the vector before anything checks that the bytes are there,
    the resize throws, and nothing between [Load] and the caller of
    [LoadFromDisk] catches it. *)
Theorem LoadFromDisk_cut_short_file_throws (junk : nat -> Z) :
  Load junk (disk_with "cache/voice.cond" cut_short_file) "cache/voice.cond"
    = Abort LengthError
  /\ LoadFromDisk junk (disk_with "cache/voice.cond" cut_short_file)
       fresh_cache "voice"
     = (Abort LengthError, fresh_cache).
Proof.
  assert (H : parse junk cut_short_file = Abort LengthError).
  { vm_compute. reflexivity. }
  unfold LoadFromDisk, Load.
  replace (GetCachePath fresh_cache "voice") with "cache/voice.cond"%string
    by reflexivity.
  replace (fs_files (disk_with "cache/voice.cond" cut_short_file) !! "cache/voice.cond"%string)
    with (Some cut_short_file) by (symmetry; apply lookup_singleton_eq).
  rewrite H. split; reflexivity.
Qed.

(** The same happens on a file cut right after its header when the
    uninitialised [dataSize] holds a large value. *)
Lemma Load_header_only_file_throws :
  parse junk_big_dataSize header_only_file = Abort LengthError.
Proof. vm_compute. reflexivity. Qed.
End BadFiles.

(** ** What a successful load has read *)

Section Inversion.

Lemma byte_of_Z_of_byte (b : byte) : byte_of_Z (Z_of_byte b) = b.
Proof.
  unfold byte_of_Z. rewrite Z.mod_small by apply Z_of_byte_range.
  unfold Z_of_byte. rewrite N2Z.id, Byte.of_to_N. reflexivity.
Qed.

Lemma byte_of_Z_mod (z : Z) : byte_of_Z (z mod 256) = byte_of_Z z.
Proof. unfold byte_of_Z. now rewrite Z.mod_mod by lia. Qed.

Lemma le_decode_range (bs : list byte) :
  0 <= le_decode bs < 256 ^ Z.of_nat (length bs).
Proof.
  induction bs as [| b bs IH].
  - simpl. lia.
  - cbn [le_decode length]. rewrite Nat2Z.inj_succ, Z.pow_succ_r by lia.
    pose proof (Z_of_byte_range b). lia.
Qed.

Lemma le_encode_decode (bs : list byte) :
  le_encode (length bs) (le_decode bs) = bs.
Proof.
  induction bs as [| b bs IH]; [reflexivity |].
  cbn [le_decode length le_encode].
  pose proof (Z_of_byte_range b) as Hb.
  replace (Z_of_byte b + 256 * le_decode bs)
    with (Z_of_byte b + le_decode bs * 256) by lia.
  f_equal.
  - rewrite <- byte_of_Z_mod, Z.mod_add by lia.
    rewrite Z.mod_small by lia. apply byte_of_Z_of_byte.
  - rewrite Z.div_add by lia.
    rewrite Z.div_small by lia. exact IH.
Qed.

Lemma le_encode_mod (n : nat) (z : Z) :
  le_encode n (z mod 256 ^ Z.of_nat n) = le_encode n z.
Proof.
  rewrite <- le_decode_encode.
  rewrite <- (length_le_encode n z) at 1. apply le_encode_decode.
Qed.

Lemma to_signed64_mod_eq (u : Z) : to_signed64 u mod 2 ^ 64 = u mod 2 ^ 64.
Proof.
  unfold to_signed64. destruct (u mod 2 ^ 64 <? 2 ^ 63).
  - apply Z.mod_mod. lia.
  - rewrite <- (Z.mod_add _ 1 (2 ^ 64)) by lia.
    replace (u mod 2 ^ 64 - 2 ^ 64 + 1 * 2 ^ 64) with (u mod 2 ^ 64) by lia.
    apply Z.mod_mod. lia.
Qed.

Lemma to_signed64_range (u : Z) : in_int64 (to_signed64 u).
Proof.
  unfold to_signed64, in_int64.
  pose proof (Z.mod_pos_bound u (2 ^ 64) ltac:(lia)).
  destruct (Z.ltb_spec (u mod 2 ^ 64) (2 ^ 63)); lia.
Qed.

Lemma le_encode_to_signed64 (u : Z) : le_encode 8 (to_signed64 u) = le_encode 8 u.
Proof.
  rewrite <- (le_encode_mod 8 (to_signed64 u)), <- (le_encode_mod 8 u).
  change (256 ^ Z.of_nat 8) with (2 ^ 64). now rewrite to_signed64_mod_eq.
Qed.

Lemma encode_decode_elems (width : nat) (signed : bool) (count : nat) :
  elem_type width signed ->
  forall bs, length bs = (count * width)%nat ->
    encode_elems width (decode_elems width signed count bs) = bs
    /\ length (decode_elems width signed count bs) = count
    /\ Forall (reads_back width signed) (decode_elems width signed count bs).
Proof.
  intros Hty. induction count as [| c IH]; intros bs Hlen.
  - destruct bs; [| discriminate Hlen]. repeat split. constructor.
  - cbn [decode_elems].
    assert (Htake : length (take width bs) = width) by (rewrite length_take; lia).
    assert (Hdrop : length (drop width bs) = (c * width)%nat)
      by (rewrite length_drop; lia).
    destruct (IH (drop width bs) Hdrop) as (Henc & Hcount & Hall).
    pose proof (le_decode_range (take width bs)) as Hrange. rewrite Htake in Hrange.
    split; [| split].
    + unfold encode_elems in *. cbn [map concat]. rewrite Henc.
      transitivity (take width bs ++ drop width bs); [| apply take_drop].
      f_equal.
      assert (Hplain : le_encode width (le_decode (take width bs)) = take width bs).
      { rewrite <- Htake at 1. apply le_encode_decode. }
      destruct Hty as [[-> ->] | [-> ->]].
      * exact Hplain.
      * now rewrite le_encode_to_signed64.
    + simpl. now rewrite Hcount.
    + constructor; [| exact Hall]. unfold reads_back.
      destruct Hty as [[-> ->] | [-> ->]].
      * apply Z.mod_small. exact Hrange.
      * change (256 ^ Z.of_nat 8) with (2 ^ 64). apply to_signed64_mod.
        apply to_signed64_range.
Qed.

Lemma stream_read_ok (n : Z) (s s' : ifstream) (bs : list byte) :
  0 <= n ->
  stream_read n s = (bs, s') -> failbit s' = false ->
  failbit s = false /\ rest s = bs ++ rest s' /\ Z.of_nat (length bs) = n.
Proof.
  intros Hn. unfold stream_read.
  destruct (failbit s) eqn:Hfail.
  { intros [= <- <-]. congruence. }
  destruct (Z.leb_spec n (Z.of_nat (length (rest s)))) as [Hle | Hgt].
  - intros [= <- <-] _. simpl. rewrite take_drop, length_take.
    repeat split. lia.
  - intros [= <- <-]. discriminate.
Qed.

Lemma read_scalar_ok (width : nat) (prior z : Z) (s s' : ifstream) :
  read_scalar width prior s = (z, s') -> failbit s' = false ->
  failbit s = false /\ rest s = le_encode width z ++ rest s'
  /\ 0 <= z < 256 ^ Z.of_nat width.
Proof.
  unfold read_scalar.
  destruct (stream_read (Z.of_nat width) s) as [bs s1] eqn:Hread.
  intros [= <- <-] Hok.
  destruct (stream_read_ok (Z.of_nat width) s s1 bs (Nat2Z.is_nonneg width) Hread Hok)
    as (Hs & Hrest & Hlen).
  apply Nat2Z.inj in Hlen.
  rewrite drop_ge by (rewrite length_le_encode; lia). rewrite app_nil_r.
  split; [exact Hs |]. split.
  - rewrite Hrest. f_equal. rewrite <- Hlen at 1. symmetry. apply le_encode_decode.
  - rewrite <- Hlen. apply le_decode_range.
Qed.

Lemma read_elems_ok (width : nat) (signed : bool) (count : Z) (s s' : ifstream)
    (l : list Z) :
  elem_type width signed -> 0 <= count ->
  read_elems width signed count (count * Z.of_nat width) s = Ret (l, s') ->
  failbit s' = false ->
  failbit s = false /\ rest s = encode_elems width l ++ rest s'
  /\ Z.of_nat (length l) = count /\ Forall (reads_back width signed) l.
Proof.
  intros Hty Hcount. unfold read_elems.
  destruct (stream_read (count * Z.of_nat width) s) as [bs s1] eqn:Hread.
  destruct (Nat.ltb_spec (Z.to_nat count * width) (length bs)); [discriminate |].
  intros [= <- <-] Hok.
  assert (Hn : 0 <= count * Z.of_nat width) by lia.
  destruct (stream_read_ok _ s s1 bs Hn Hread Hok) as (Hs & Hrest & Hlen).
  assert (Hbs : length bs = (Z.to_nat count * width)%nat) by lia.
  rewrite Hbs, Nat.sub_diag. simpl replicate. rewrite app_nil_r.
  destruct (encode_decode_elems width signed (Z.to_nat count) Hty bs Hbs)
    as (Henc & Hnum & Hall).
  rewrite Henc, Hnum. repeat split; auto. lia.
Qed.

Import VoiceConditionals.

Lemma readArray_ok (width : nat) (signed : bool) (junk : nat -> Z) (site : nat)
    (s s' : ifstream) (data shape : list Z) :
  elem_type width signed ->
  readArray width signed junk site s = Ret (data, shape, s') ->
  failbit s' = false ->
  failbit s = false
  /\ rest s = writeArray width data shape ++ rest s'
  /\ array_fits (Z.of_nat width) data shape
  /\ Forall (reads_back width signed) data
  /\ Forall (reads_back 8 true) shape.
Proof.
  intros Hty. unfold readArray.
  destruct (read_scalar 4 (junk site) s) as [numDims s1] eqn:Hdims.
  destruct (vector_fits 8 numDims) eqn:Hfit1; simpl negb; cbv iota; [| discriminate].
  apply vector_fits_spec in Hfit1 as [Hdims0 _].
  destruct (read_elems 8 true numDims (numDims * 8) s1) as [[shape' s2] | a] eqn:Hshape;
    cbn [mbind outcome_bind]; [| discriminate].
  destruct (read_scalar 8 (junk (S site)) s2) as [dataSize s3] eqn:Hsize.
  destruct (vector_fits (Z.of_nat width) (dataSize / Z.of_nat width)) eqn:Hfit2;
    simpl negb; cbv iota; [| discriminate].
  apply vector_fits_spec in Hfit2 as [Hcount0 Hcount].
  destruct (read_elems width signed (dataSize / Z.of_nat width) dataSize s3)
    as [[data' s4] | a] eqn:Hdata; cbn [mbind outcome_bind]; [| discriminate].
  intros [= <- <- <-] Hok.
  assert (Hwidth : 0 < Z.of_nat width) by (destruct Hty as [[-> _] | [-> _]]; lia).
  (* the stream did not fail before the last read, nor before the others *)
  assert (Hok3 : failbit s3 = false).
  { destruct (failbit s3) eqn:Hf; [| reflexivity].
    unfold read_elems, stream_read in Hdata. rewrite Hf in Hdata.
    simpl in Hdata. injection Hdata as _ <-. congruence. }
  destruct (read_scalar_ok 8 _ _ _ _ Hsize Hok3) as (Hok2 & Hrest2 & Hsize_range).
  (* no overrun and no failure: the byte count is a whole number of elements *)
  assert (Hwhole : dataSize = dataSize / Z.of_nat width * Z.of_nat width).
  { unfold read_elems in Hdata.
    destruct (stream_read dataSize s3) as [bs s5] eqn:Hread.
    destruct (Nat.ltb_spec (Z.to_nat (dataSize / Z.of_nat width) * width) (length bs));
      [discriminate |].
    injection Hdata as _ <-.
    destruct (stream_read_ok dataSize s3 s5 bs ltac:(lia) Hread Hok) as (_ & _ & Hlen).
    pose proof (Z.mul_div_le dataSize (Z.of_nat width) Hwidth). nia. }
  rewrite Hwhole in Hdata at 2.
  destruct (read_elems_ok width signed _ s3 s4 data' Hty Hcount0 Hdata Hok)
    as (_ & Hrest3 & Hlen_data & Hall_data).
  assert (Hdims8 : numDims * 8 = numDims * Z.of_nat 8) by reflexivity.
  rewrite Hdims8 in Hshape.
  destruct (read_elems_ok 8 true numDims s1 s2 shape' (or_intror (conj eq_refl eq_refl))
              Hdims0 Hshape Hok2)
    as (Hok1 & Hrest1 & Hlen_shape & Hall_shape).
  destruct (read_scalar_ok 4 _ _ _ _ Hdims Hok1) as (Hok0 & Hrest0 & Hdims_range).
  split; [exact Hok0 |].
  unfold writeArray, array_fits.
  rewrite Hlen_shape, Hlen_data, <- Hwhole.
  rewrite Hrest0, Hrest1, Hrest2, Hrest3, <- !app_assoc.
  change (256 ^ Z.of_nat 4) with (2 ^ 32) in Hdims_range.
  repeat split; auto; lia.
Qed.

(** A load that returns a record has read its serialisation off the
    front of the file. *)
Lemma parse_ok (junk : nat -> Z) (bytes : list byte) (v : t) :
  parse junk bytes = Ret (Some v) ->
  exists tail,
    bytes = serialize v ++ tail /\ well_typed v /\ representable v.
Proof.
  unfold parse.
  destruct (read_scalar 4 (junk 0%nat) _) as [magic s1] eqn:Hmagic.
  destruct (Z.eqb_spec magic MAGIC) as [-> | _]; simpl negb; cbv iota; [| discriminate].
  destruct (read_scalar 4 (junk 1%nat) s1) as [version s2] eqn:Hversion.
  destruct (Z.eqb_spec version VERSION) as [-> | _]; simpl negb; cbv iota;
    [| discriminate].
  destruct (readArray 4 false junk 2 s2) as [[[ce ces] s3] | a] eqn:H1;
    cbn [mbind outcome_bind]; [| discriminate].
  destruct (readArray 8 true junk 4 s3) as [[[pt pts] s4] | a] eqn:H2;
    cbn [mbind outcome_bind]; [| discriminate].
  destruct (readArray 4 false junk 6 s4) as [[[se ses] s5] | a] eqn:H3;
    cbn [mbind outcome_bind]; [| discriminate].
  destruct (readArray 4 false junk 8 s5) as [[[sf sfs] s6] | a] eqn:H4;
    cbn [mbind outcome_bind]; [| discriminate].
  destruct (failbit s6) eqn:Hok6; [discriminate |].
  intros [= <-].
  assert (Hf : elem_type 4 false) by (left; auto).
  assert (Hi : elem_type 8 true) by (right; auto).
  destruct (readArray_ok _ _ _ _ _ _ _ _ Hf H4 Hok6) as (Hok5 & R4 & F4 & D4 & S4).
  destruct (readArray_ok _ _ _ _ _ _ _ _ Hf H3 Hok5) as (Hok4 & R3 & F3 & D3 & S3).
  destruct (readArray_ok _ _ _ _ _ _ _ _ Hi H2 Hok4) as (Hok3 & R2 & F2 & D2 & S2).
  destruct (readArray_ok _ _ _ _ _ _ _ _ Hf H1 Hok3) as (Hok2 & R1 & F1 & D1 & S1).
  destruct (read_scalar_ok 4 _ _ _ _ Hversion Hok2) as (Hok1 & R0 & _).
  destruct (read_scalar_ok 4 _ _ _ _ Hmagic Hok1) as (_ & Rm & _).
  cbn [rest] in Rm.
  exists (rest s6). split; [| split].
  - unfold serialize. cbn -[le_encode writeArray MAGIC VERSION].
    rewrite Rm, R0, R1, R2, R3, R4, <- !app_assoc. reflexivity.
  - assert (Hu : forall l, Forall (reads_back 4 false) l -> Forall in_uint32 l).
    { intros l H. eapply Forall_impl; [exact H |]. intros z Hz.
      unfold reads_back in Hz. unfold in_uint32. rewrite <- Hz.
      change (256 ^ Z.of_nat 4) with (2 ^ 32). apply Z.mod_pos_bound. lia. }
    assert (Hs : forall l, Forall (reads_back 8 true) l -> Forall in_int64 l).
    { intros l H. eapply Forall_impl; [exact H |]. intros z Hz.
      unfold reads_back in Hz. rewrite <- Hz. apply to_signed64_range. }
    split; simpl; auto.
  - split; simpl; assumption.
Qed.

(** A file that stops before the end of what [Save] wrote never loads as
    a record: the result is no value, or an exception. *)
Theorem parse_truncated (junk : nat -> Z) (v : t) (kept lost : list byte) :
  well_typed v -> representable v ->
  serialize v = kept ++ lost -> lost <> [] ->
  forall v', parse junk kept <> Ret (Some v').
Proof.
  intros Htyped Hrep Hcut Hlost v' Hparse.
  destruct (parse_ok junk kept v' Hparse) as (tail & Hkept & Htyped' & Hrep').
  pose proof (parse_serialize junk v [] Htyped Hrep) as Hv.
  pose proof (parse_serialize junk v' (tail ++ lost) Htyped' Hrep') as Hv'.
  rewrite app_nil_r, Hcut, Hkept, <- app_assoc in Hv.
  rewrite Hv in Hv'. injection Hv' as ->.
  apply (f_equal (@length byte)) in Hcut.
  rewrite Hkept, !length_app in Hcut.
  destruct lost; [now destruct Hlost | simpl in Hcut; lia].
Qed.
End Inversion.

(** ** The two tiers of the cache *)

Section CacheTiers.
Import VoiceConditionalsCache.

Lemma Save_true_file (fs fs' : FileSystem) (v : VoiceConditionals.t)
    (path : string) :
  VoiceConditionals.Save fs v path = (Ret true, fs') ->
  fs_files fs' !! path = Some (VoiceConditionals.serialize v)
  /\ path ∉ fs_dirs fs'.
Proof.
  unfold VoiceConditionals.Save.
  destruct (VoiceConditionals.IsValid v); simpl negb; cbv iota; [| discriminate].
  destruct (if Path.has_parent_path path then _ else _) as [[made fs1] |];
    [| discriminate].
  destruct (can_open_for_write fs1 path) eqn:Hopen; simpl negb; cbv iota;
    [| discriminate].
  intros [= <-]. split; [apply lookup_insert_eq |]. simpl.
  unfold can_open_for_write in Hopen.
  apply andb_true_iff in Hopen as [Hdir _].
  apply negb_true_iff, bool_decide_eq_false in Hdir. exact Hdir.
Qed.

Lemma SaveToDisk_true (fs fs' : FileSystem) (c : t) (key : string)
    (conds : VoiceConditionals.t) :
  SaveToDisk fs c key conds = (Ret true, fs') ->
  fs_files fs' !! (GetCachePath c key)
    = Some (VoiceConditionals.serialize conds)
  /\ GetCachePath c key ∉ fs_dirs fs'.
Proof.
  unfold SaveToDisk. destruct (EnsureCacheDir fs c) as [ok fs1].
  destruct ok; simpl negb; cbv iota; [| discriminate].
  apply Save_true_file.
Qed.

Lemma Put_true_on_disk (fs : FileSystem) (c : t) (key : string)
    (conds : VoiceConditionals.t) :
  fst (fst (Put fs c key conds true)) = Ret true ->
  fs_files (snd (Put fs c key conds true)) !! (GetCachePath c key)
    = Some (VoiceConditionals.serialize conds)
  /\ (GetCachePath c key ∉ fs_dirs (snd (Put fs c key conds true)))
  /\ snd (fst (Put fs c key conds true))
     = with_cache c (<[key := conds]> (m_cache c)).
Proof.
  unfold Put.
  destruct (VoiceConditionals.IsValid conds); simpl negb; cbv iota;
    [| discriminate].
  destruct (SaveToDisk fs _ key conds) as [r fs'] eqn:Hsave. simpl.
  intros ->. apply SaveToDisk_true in Hsave as [Hfile Hdir]. auto.
Qed.

(** X1: [Put] of a valid record makes [Get] return that record under the
    key, whether or not it was asked to persist and whatever became of the
    file: the memory tier is updated before the disk is tried.  The other
    keys keep their records, and without persistence the call reports
    success and leaves the file system alone. *)
Theorem Put_valid_then_Get (fs : FileSystem) (c : t) (key : string)
    (conds : VoiceConditionals.t) (saveToDisk : bool) :
  VoiceConditionals.IsValid conds = true ->
  let '(r, c', fs') := Put fs c key conds saveToDisk in
  Get c' key = Some conds
  /\ (forall k, k <> key -> Get c' k = Get c k)
  /\ (saveToDisk = false -> r = Ret true /\ fs' = fs).
Proof.
  intros Hvalid. unfold Put. rewrite Hvalid. simpl negb. cbv iota.
  destruct saveToDisk.
  - destruct (SaveToDisk fs _ key conds) as [r fs'].
    unfold Get. simpl. split; [apply lookup_insert_eq |].
    split; [| discriminate].
    intros k Hk. now apply lookup_insert_ne.
  - unfold Get. simpl. split; [apply lookup_insert_eq |].
    split; [| auto].
    intros k Hk. now apply lookup_insert_ne.
Qed.

(** X2: a record that [Put] has persisted comes back from the disk: in
    any cache on the same directory, also one whose memory was cleared,
    the file is there and [LoadFromDisk] of the key returns true and stores
    a record equal to the one that was put. *)
Theorem Put_then_LoadFromDisk (junk : nat -> Z) (fs : FileSystem) (c c2 : t)
    (key : string) (conds : VoiceConditionals.t) :
  VoiceConditionals.well_typed conds ->
  VoiceConditionals.representable conds ->
  m_cacheDir c2 = m_cacheDir c ->
  fst (fst (Put fs c key conds true)) = Ret true ->
  ExistsOnDisk (snd (Put fs c key conds true)) c2 key = true
  /\ LoadFromDisk junk (snd (Put fs c key conds true)) c2 key
     = (Ret true, with_cache c2 (<[key := conds]> (m_cache c2))).
Proof.
  intros Htyped Hrep Hdir Hput.
  apply Put_true_on_disk in Hput as (Hfile & _ & _).
  assert (Hpath : GetCachePath c2 key = GetCachePath c key)
    by (unfold GetCachePath; now rewrite Hdir).
  split.
  - unfold ExistsOnDisk, fs_exists. rewrite Hpath, Hfile.
    rewrite bool_decide_eq_true_2 by eauto. reflexivity.
  - unfold LoadFromDisk, VoiceConditionals.Load. rewrite Hpath, Hfile.
    rewrite <- (app_nil_r (VoiceConditionals.serialize conds)).
    now rewrite parse_serialize.
Qed.

(** A file that was removed does not exist any more. *)
Lemma fs_exists_fs_remove (fs : FileSystem) (p : string) :
  fs_exists (fs_remove fs p) p = false.
Proof.
  unfold fs_exists, fs_remove. simpl. rewrite lookup_delete_eq.
  rewrite bool_decide_eq_false_2 by (intros [? ?]; discriminate).
  rewrite bool_decide_eq_false_2; [reflexivity |].
  intros [_ Hn]%elem_of_difference. apply Hn. now apply elem_of_singleton.
Qed.

Lemma fs_remove_changes (fs : FileSystem) (p : string) :
  fs_exists fs p = true -> fs_remove fs p <> fs.
Proof.
  intros Hex Heq. pose proof (fs_exists_fs_remove fs p) as Hrem.
  rewrite Heq in Hrem. congruence.
Qed.

Lemma Has_after_delete (c : t) (key : string) :
  Has (with_cache c (delete key (m_cache c))) key = false.
Proof.
  unfold Has. simpl. rewrite lookup_delete_eq. apply bool_decide_eq_false.
  intros [? ?]; discriminate.
Qed.

Lemma delete_changes (c : t) (key : string) :
  Has c key = true -> with_cache c (delete key (m_cache c)) <> c.
Proof.
  intros Hhas Heq. pose proof (Has_after_delete c key) as Hgone.
  rewrite Heq in Hgone. congruence.
Qed.

(** X3: after [Remove] the key is not in memory, whatever the disk did;
    the other keys keep their records and the other files their contents.
    The call returns true exactly when the key was in memory or its file
    existed and is gone, and false exactly when it changed nothing, be it
    that there was nothing to remove or that the file could not be
    removed. *)
Theorem Remove_spec (removable : string -> bool) (fs : FileSystem) (c : t)
    (key : string) :
  let '(r, c', fs') := Remove removable fs c key in
  Has c' key = false
  /\ (forall k, k <> key -> Get c' k = Get c k)
  /\ (forall p, p <> GetCachePath c key -> fs_files fs' !! p = fs_files fs !! p)
  /\ r = Has c key || (ExistsOnDisk fs c key && removable (GetCachePath c key))
  /\ (r = true <->
      Has c key = true
      \/ (ExistsOnDisk fs c key = true /\ ExistsOnDisk fs' c key = false))
  /\ (r = false <-> c' = c /\ fs' = fs).
Proof.
  unfold Remove, ExistsOnDisk.
  pose proof (fs_exists_fs_remove fs (GetCachePath c key)) as Hrem.
  destruct (Has c key) eqn:Hhas;
    destruct (fs_exists fs (GetCachePath c key)) eqn:Hex;
    destruct (removable (GetCachePath c key)); cbn [andb orb].
  all: split; [first [apply Has_after_delete | exact Hhas] |].
  all: split;
    [first [reflexivity
           | intros k Hk; unfold Get; simpl; now apply lookup_delete_ne] |].
  all: split;
    [first [reflexivity | intros p Hp; now apply lookup_delete_ne] |].
  all: split; [reflexivity |].
  - (* in memory, file removed *)
    split; [split; auto | split; [discriminate |]].
    intros [Hc _]. now apply delete_changes in Hc.
  - (* in memory, file stays *)
    split; [split; auto | split; [discriminate |]].
    intros [Hc _]. now apply delete_changes in Hc.
  - (* in memory, no file *)
    split; [split; auto | split; [discriminate |]].
    intros [Hc _]. now apply delete_changes in Hc.
  - split; [split; auto | split; [discriminate |]].
    intros [Hc _]. now apply delete_changes in Hc.
  - (* not in memory, file removed *)
    split; [split; auto | split; [discriminate |]].
    intros [_ Hfs]. now apply fs_remove_changes in Hfs.
  - (* not in memory, file cannot be removed *)
    split; [| split; auto].
    split; [discriminate | intros [? | [? ?]]; congruence].
  - (* nothing to remove *)
    split; [| split; auto].
    split; [discriminate | intros [? | [? ?]]; congruence].
  - split; [| split; auto].
    split; [discriminate | intros [? | [? ?]]; congruence].
Qed.

(** The header promises false when the key is not found; false is also
    what a key gets whose file is there and cannot be removed. *)
Lemma Remove_false_with_file :
  Remove (fun _ => false) stale_disk fresh_cache "hero"
  = (false, fresh_cache, stale_disk)
  /\ ExistsOnDisk stale_disk fresh_cache "hero" = true.
Proof. split; vm_compute; reflexivity. Qed.

(** X4: [Remove] undoes a persisted [Put] when the file can be removed:
    afterwards the key is neither in memory nor on disk, and
    [LoadFromDisk] of it is a miss that leaves the cache as it is. *)
Theorem Remove_after_Put (removable : string -> bool) (junk : nat -> Z)
    (fs : FileSystem) (c : t) (key : string) (conds : VoiceConditionals.t) :
  fst (fst (Put fs c key conds true)) = Ret true ->
  removable (GetCachePath c key) = true ->
  let '(_, c1, fs1) := Put fs c key conds true in
  let '(r, c2, fs2) := Remove removable fs1 c1 key in
  r = true /\ Has c2 key = false /\ ExistsOnDisk fs2 c2 key = false
  /\ LoadFromDisk junk fs2 c2 key = (Ret false, c2).
Proof.
  intros Hput Hrem.
  apply Put_true_on_disk in Hput as (Hfile & Hdir & Hc1).
  destruct (Put fs c key conds true) as [[r1 c1] fs1].
  cbn [fst snd] in Hfile, Hdir, Hc1.
  assert (Hpath : GetCachePath c1 key = GetCachePath c key)
    by (subst c1; reflexivity).
  assert (Hhas : Has c1 key = true).
  { subst c1. unfold Has. simpl. rewrite lookup_insert_eq.
    apply bool_decide_eq_true. eauto. }
  assert (Hex : fs_exists fs1 (GetCachePath c key) = true).
  { unfold fs_exists. rewrite Hfile. rewrite bool_decide_eq_true_2 by eauto.
    reflexivity. }
  unfold Remove. rewrite Hpath, Hex, Hrem, Hhas. cbn [andb orb].
  split; [reflexivity |]. split.
  { unfold Has. simpl. rewrite lookup_delete_eq. apply bool_decide_eq_false.
    intros [? ?]; discriminate. }
  assert (Hpath' : GetCachePath (with_cache c1 (delete key (m_cache c1))) key
                   = GetCachePath c key) by (rewrite <- Hpath; reflexivity).
  split.
  { unfold ExistsOnDisk, fs_exists. rewrite Hpath'. simpl.
    rewrite lookup_delete_eq.
    rewrite bool_decide_eq_false_2 by (intros [? ?]; discriminate).
    rewrite bool_decide_eq_false_2; [reflexivity |].
    intros [_ Hn]%elem_of_difference. apply Hn. now apply elem_of_singleton. }
  unfold LoadFromDisk, VoiceConditionals.Load. rewrite Hpath'. simpl.
  now rewrite lookup_delete_eq.
Qed.

(** X5: [GetKeys] lists exactly the keys for which [Has] holds, each of
    them once, and [Size] is the number of keys listed. *)
Theorem GetKeys_spec (c : t) :
  (forall key, key ∈ GetKeys c <-> Has c key = true)
  /\ NoDup (GetKeys c)
  /\ Z.of_nat (length (GetKeys c)) = Size c.
Proof.
  unfold GetKeys, Has, Size. split; [| split].
  - intros key. rewrite bool_decide_eq_true.
    rewrite list_elem_of_fmap. split.
    + intros [[k v] [-> Hin]]. apply elem_of_map_to_list in Hin. simpl. eauto.
    + intros [v Hv]. exists (key, v). split; [reflexivity |].
      now apply elem_of_map_to_list.
  - apply NoDup_fst_map_to_list.
  - rewrite length_fmap, length_map_to_list. reflexivity.
Qed.
End CacheTiers.

Lemma Put_valid_then_Get_witness :
  VoiceConditionals.IsValid Sample.conds = true /\
  let '(r, c', fs') :=
    VoiceConditionalsCache.Put locked_disk fresh_cache "voice" Sample.conds true in
  VoiceConditionalsCache.Get c' "voice" = Some Sample.conds
  /\ (forall k, k <> "voice"%string ->
        VoiceConditionalsCache.Get c' k = VoiceConditionalsCache.Get fresh_cache k)
  /\ (true = false -> r = Ret true /\ fs' = locked_disk).
Proof.
  split; [reflexivity |].
  apply (Put_valid_then_Get locked_disk fresh_cache "voice" Sample.conds true).
  reflexivity.
Defined.

Lemma Put_then_LoadFromDisk_witness :
  VoiceConditionalsCache.ExistsOnDisk
    (snd (VoiceConditionalsCache.Put empty_disk fresh_cache "voice" Sample.conds true))
    fresh_cache "voice" = true
  /\ VoiceConditionalsCache.LoadFromDisk (fun _ => 0)
       (snd (VoiceConditionalsCache.Put empty_disk fresh_cache "voice" Sample.conds true))
       fresh_cache "voice"
     = (Ret true,
        VoiceConditionalsCache.with_cache fresh_cache
          (<["voice"%string := Sample.conds]>
             (VoiceConditionalsCache.m_cache fresh_cache))).
Proof.
  assert (Hput : fst (fst (VoiceConditionalsCache.Put empty_disk fresh_cache
                             "voice" Sample.conds true)) = Ret true)
    by (vm_compute; reflexivity).
  apply (Put_then_LoadFromDisk (fun _ => 0) empty_disk fresh_cache fresh_cache
           "voice" Sample.conds).
  - split; simpl; repeat constructor; unfold in_uint32, in_int64; lia.
  - split; split; simpl; unfold PTRDIFF_MAX; lia.
  - reflexivity.
  - exact Hput.
Defined.

Lemma Remove_after_Put_witness :
  let '(_, c1, fs1) :=
    VoiceConditionalsCache.Put empty_disk fresh_cache "voice" Sample.conds true in
  let '(r, c2, fs2) :=
    VoiceConditionalsCache.Remove (fun _ => true) fs1 c1 "voice" in
  r = true /\ VoiceConditionalsCache.Has c2 "voice" = false
  /\ VoiceConditionalsCache.ExistsOnDisk fs2 c2 "voice" = false
  /\ VoiceConditionalsCache.LoadFromDisk (fun _ => 0) fs2 c2 "voice"
     = (Ret false, c2).
Proof.
  assert (Hput : fst (fst (VoiceConditionalsCache.Put empty_disk fresh_cache
                             "voice" Sample.conds true)) = Ret true)
    by (vm_compute; reflexivity).
  apply (Remove_after_Put (fun _ => true) (fun _ => 0) empty_disk fresh_cache
           "voice" Sample.conds Hput).
  reflexivity.
Defined.

(** ** Loading the models *)

Section LoadingModels.
Import OnnxSessionManager ChatterboxTTS.

Lemma LoadModel_cases (create : string -> option Session) (fs : FileSystem)
    (sm : OnnxSessionManager.t) (modelPath name : string) :
  match LoadModel create fs sm modelPath name with
  | (Ret b, sm') =>
      b = true
      /\ (forall n, n <> name -> GetSession sm' n = GetSession sm n)
      /\ (if IsModelLoaded sm name then sm' = sm
          else fs_exists fs modelPath = true
               /\ exists s, create modelPath = Some s
                   /\ GetSession sm' name = Some s)
  | (Abort _, sm') => sm' = sm /\ IsModelLoaded sm name = false
  end.
Proof.
  unfold LoadModel. destruct (IsModelLoaded sm name) eqn:Hloaded.
  { auto. }
  destruct (fs_exists fs modelPath) eqn:Hex; simpl negb; cbv iota; [| auto].
  destruct (create modelPath) as [s |] eqn:Hs; [| auto].
  split; [reflexivity |]. split.
  - intros n Hn. unfold GetSession. simpl. now apply lookup_insert_ne.
  - split; [reflexivity |]. exists s. split; [reflexivity |].
    unfold GetSession. simpl. apply lookup_insert_eq.
Qed.

(** X6: [LoadModel] never returns false: it returns true or throws.  After
    true the name is loaded and every other name has the session it had;
    after a throw the manager is as it was and the name is not loaded. *)
Theorem LoadModel_true_or_throws (create : string -> option Session)
    (fs : FileSystem) (sm : OnnxSessionManager.t) (modelPath name : string) :
  match LoadModel create fs sm modelPath name with
  | (Ret b, sm') =>
      b = true /\ IsModelLoaded sm' name = true
      /\ forall n, n <> name -> GetSession sm' n = GetSession sm n
  | (Abort _, sm') => sm' = sm /\ IsModelLoaded sm name = false
  end.
Proof.
  pose proof (LoadModel_cases create fs sm modelPath name) as H.
  destruct (LoadModel create fs sm modelPath name) as [[b | a] sm']; [| exact H].
  destruct H as (Hb & Hother & Hname). split; [exact Hb |].
  split; [| exact Hother].
  destruct (IsModelLoaded sm name) eqn:Hloaded; [now subst sm' |].
  destruct Hname as (_ & s & _ & Hs). unfold IsModelLoaded.
  unfold GetSession in Hs. rewrite Hs. apply bool_decide_eq_true. eauto.
Qed.

Lemma load_each_sessions (create : string -> option Session) (fs : FileSystem)
    (onnxDir dtype : string) (names : list string) :
  forall sm r sm',
    NoDup names ->
    (forall n, n ∈ names -> IsModelLoaded sm n = false) ->
    load_each create fs onnxDir dtype names sm = (r, sm') ->
    (forall n, n ∉ names -> GetSession sm' n = GetSession sm n)
    /\ (forall name, r <> Ret (Some (FailedToLoadModel name)))
    /\ (r = Ret None ->
        forall n, n ∈ names ->
          fs_exists fs (Path.append onnxDir (GetModelFilename n dtype)) = true
          /\ exists s,
               create (Path.append onnxDir (GetModelFilename n dtype)) = Some s
               /\ GetSession sm' n = Some s).
Proof.
  induction names as [| name names IH]; intros sm r sm' Hnd Hfresh Hrun.
  - simpl in Hrun. injection Hrun as <- <-.
    split; [reflexivity |]. split; [discriminate |].
    intros _ n Hn. inversion Hn.
  - apply NoDup_cons in Hnd as [Hname Hnd].
    simpl in Hrun.
    destruct (fs_exists fs (Path.append onnxDir (GetModelFilename name dtype)))
      eqn:Hex; simpl negb in Hrun; cbv iota in Hrun.
    2:{ injection Hrun as <- <-. split; [reflexivity |].
        split; discriminate. }
    pose proof (LoadModel_cases create fs sm
                  (Path.append onnxDir (GetModelFilename name dtype)) name) as H.
    destruct (LoadModel create fs sm _ name) as [[b | a] sm1].
    2:{ destruct H as [-> _]. injection Hrun as <- <-.
        split; [reflexivity |]. split; discriminate. }
    destruct H as (-> & Hother & Hthis).
    rewrite (Hfresh name) in Hthis by apply list_elem_of_here.
    destruct Hthis as (_ & s & Hs & Hget).
    assert (Hfresh1 : forall n, n ∈ names -> IsModelLoaded sm1 n = false).
    { intros n Hn. assert (n <> name) by (intros ->; contradiction).
      unfold IsModelLoaded. specialize (Hother n ltac:(assumption)).
      unfold GetSession in Hother. rewrite Hother.
      apply (Hfresh n). now apply list_elem_of_further. }
    destruct (IH sm1 r sm' Hnd Hfresh1 Hrun) as (Hout & Hnever & Hall).
    split; [| split; [exact Hnever |]].
    + intros n Hn. rewrite Hout by (intros Hin; apply Hn; now apply list_elem_of_further).
      apply Hother. intros ->. apply Hn. apply list_elem_of_here.
    + intros Hr n Hn. apply elem_of_cons in Hn as [-> | Hn].
      * split; [exact Hex |]. exists s. split; [exact Hs |].
        now rewrite (Hout name Hname).
      * now apply Hall.
Qed.

(** X7: [LoadModels] leaves the engine ready exactly when it returns
    true.  Then the four sessions were created from the files of one
    directory that are named after the model and the requested type, and
    the type is recorded.  In every other case, a throw included, the
    engine is not ready, also if it was before the call, and the recorded
    type is the old one.  The voice is never touched, and the text "failed
    to load model" is never produced. *)
Theorem LoadModels_ready_iff_true (create : string -> option Session)
    (list_dir : string -> list string) (fs : FileSystem) (e : ChatterboxTTS.t)
    (modelDir dtype : string) :
  let '(r, e', msg) := LoadModels create list_dir fs e modelDir dtype in
  (r = Ret true ->
     IsReady e' = true /\ m_dtype e' = dtype
     /\ exists onnxDir,
          forall n, n ∈ modelNames ->
            fs_exists fs (Path.append onnxDir (GetModelFilename n dtype)) = true
            /\ exists s,
                 create (Path.append onnxDir (GetModelFilename n dtype)) = Some s
                 /\ GetSession (m_sessionManager e') n = Some s)
  /\ (r <> Ret true -> IsReady e' = false /\ m_dtype e' = m_dtype e)
  /\ m_conds e' = m_conds e
  /\ (forall name, msg <> Some (FailedToLoadModel name)).
Proof.
  unfold LoadModels.
  set (found := if fs_exists fs (Path.append modelDir "onnx") then _ else _).
  destruct found as [onnxDir | a].
  2:{ split; [discriminate |]. split; [auto |]. split; [reflexivity | discriminate]. }
  destruct (String.eqb onnxDir "" || negb (fs_exists fs onnxDir)).
  { split; [discriminate |]. split; [auto |]. split; [reflexivity | discriminate]. }
  destruct (load_each create fs onnxDir dtype modelNames
              {| m_sessions := ∅ |}) as [r sm] eqn:Hrun.
  apply load_each_sessions in Hrun as (_ & Hnever & Hall).
  2:{ unfold modelNames.
      repeat constructor; intros H; rewrite ?elem_of_cons, ?elem_of_nil in H;
        intuition discriminate. }
  2:{ intros n _. unfold IsModelLoaded. simpl. rewrite lookup_empty.
      apply bool_decide_eq_false. intros [? ?]; discriminate. }
  destruct r as [[msg |] | a].
  - split; [discriminate |]. split; [auto |]. split; [reflexivity |].
    intros name [= ->]. now apply (Hnever name).
  - split.
    + intros _. split; [| split; [reflexivity |]].
      * unfold IsReady, IsModelLoaded. simpl.
        assert (Hin : forall n, n ∈ modelNames ->
                  bool_decide (is_Some (m_sessions sm !! n)) = true).
        { intros n Hn. destruct (Hall eq_refl n Hn) as (_ & s & _ & Hs).
          unfold GetSession in Hs. rewrite Hs. apply bool_decide_eq_true. eauto. }
        rewrite !Hin; [reflexivity | | | |]; unfold modelNames;
          rewrite !elem_of_cons; auto.
      * exists onnxDir. intros n Hn. exact (Hall eq_refl n Hn).
    + split; [congruence |]. split; [reflexivity | discriminate].
  - split; [discriminate |]. split; [auto |]. split; [reflexivity | discriminate].
Qed.
End LoadingModels.

(** ** Preparing a voice *)

Section PreparingVoice.
Import ChatterboxTTS.

Lemma IsReady_speech_encoder (e : t) :
  IsReady e = true ->
  exists s, OnnxSessionManager.GetSession (m_sessionManager e) SPEECH_ENCODER
            = Some s.
Proof.
  unfold IsReady. rewrite !andb_true_iff.
  intros ((((_ & H) & _) & _) & _).
  apply bool_decide_eq_true in H as [s Hs]. now exists s.
Qed.

(** X8: [PrepareConditionals] returns true exactly when the engine is
    ready, the audio loads, its duration is not below five seconds and the
    speech encoder runs and returns at least four outputs.  Then the loader
    and the encoder were each asked once, the encoder on the loaded
    samples; the stored voice is made of the data and shapes of the first
    four outputs, the error text is empty and the engine is still ready. *)
Theorem PrepareConditionals_true_iff (rt : Runtime) (e : t) (audioPath : string) :
  let '(r, e', calls) := PrepareConditionals rt e audioPath in
  (r = true <->
     IsReady e = true
     /\ exists audio outs,
          LoadFile rt audioPath = Some audio
          /\ F32.ltb (AudioData.GetDuration audio) F32.five = false
          /\ speech_encoder rt (AudioData.samples audio) = Some outs
          /\ (4 <= length outs)%nat)
  /\ (r = true ->
      exists audio o0 o1 o2 o3 more,
        LoadFile rt audioPath = Some audio
        /\ speech_encoder rt (AudioData.samples audio)
           = Some (o0 :: o1 :: o2 :: o3 :: more)
        /\ calls = [CallLoadFile audioPath;
                    CallSpeechEncoder (AudioData.samples audio)]
        /\ m_conds e' = conditionals_of o0 o1 o2 o3
        /\ m_lastError e' = NoError
        /\ IsReady e' = true).
Proof.
  unfold PrepareConditionals.
  change (IsReady (set_lastError e NoError)) with (IsReady e).
  destruct (IsReady e) eqn:Hready; simpl negb; cbv iota.
  2:{ split; [split; [discriminate | intros [? _]; discriminate] | discriminate]. }
  destruct (LoadFile rt audioPath) as [audio |] eqn:Hload.
  2:{ split; [split; [discriminate |] | discriminate].
      intros (_ & ? & ? & ? & _). discriminate. }
  destruct (F32.ltb (AudioData.GetDuration audio) F32.five) eqn:Hshort.
  { split; [split; [discriminate |] | discriminate].
    intros (_ & ? & ? & [= <-] & ? & _). congruence. }
  unfold RunSpeechEncoder.
  destruct (IsReady_speech_encoder e Hready) as [s Hs].
  change (m_sessionManager (set_lastError e NoError)) with (m_sessionManager e).
  rewrite Hs.
  destruct (speech_encoder rt (AudioData.samples audio))
    as [[| o0 [| o1 [| o2 [| o3 more]]]] |] eqn:Henc.
  1-4: split; [split; [discriminate |] | discriminate];
       intros (_ & ? & ? & [= <-] & _ & Houts & Hlen); rewrite Henc in Houts;
       injection Houts as <-; simpl in Hlen; lia.
  - split.
    + split; [| reflexivity]. intros _. split; [reflexivity |].
      exists audio, (o0 :: o1 :: o2 :: o3 :: more).
      repeat split; auto. simpl. lia.
    + intros _. exists audio, o0, o1, o2, o3, more.
      repeat split; auto.
  - split; [split; [discriminate |] | discriminate].
    intros (_ & ? & ? & [= <-] & _ & Houts & _). congruence.
Qed.
End PreparingVoice.

(** ** What a call of Generate leaves and returns *)

Section GenerateOutcome.
Import ChatterboxTTS.

Lemma loop_bounds (rt : Runtime) (config : GenerationConfig)
    (conds : VoiceConditionals.t) (textEmbeddings : list Z)
    (condSeqLen textSeqLen hiddenSize : Z) (remaining : nat) :
  forall step st calls e,
    generation_loop rt config conds textEmbeddings condSeqLen textSeqLen
      hiddenSize remaining step st = (calls, e) ->
    (length calls <= remaining)%nat
    /\ (length (generatedTokens (end_state e))
        <= length (generatedTokens st) + length calls)%nat
    /\ exists ts, generatedTokens (end_state e) = generatedTokens st ++ ts.
Proof.
  induction remaining as [| remaining IH]; intros step st calls e Hrun.
  - simpl in Hrun. injection Hrun as <- <-. simpl.
    split; [lia |]. split; [lia |]. exists []. now rewrite app_nil_r.
  - simpl in Hrun.
    destruct (loop_body rt config conds textEmbeddings condSeqLen textSeqLen
                hiddenSize step st) as [ins [msg | a | st' | st']] eqn:Hbody.
    + injection Hrun as <- <-. simpl.
      split; [destruct ins; simpl; lia |]. split; [lia |].
      exists []. now rewrite app_nil_r.
    + injection Hrun as <- <-. simpl.
      split; [destruct ins; simpl; lia |]. split; [lia |].
      exists []. now rewrite app_nil_r.
    + apply body_generated in Hbody as [[i ->] Hgen].
      injection Hrun as <- <-. simpl. rewrite Hgen, length_app. simpl.
      split; [lia |]. split; [lia |]. eauto.
    + apply body_generated in Hbody as [[i ->] (tok & _ & Hgen)].
      destruct (generation_loop _ _ _ _ _ _ _ remaining (S step) st')
        as [tr r] eqn:Hrest.
      injection Hrun as <- <-.
      apply IH in Hrest as (Hlen & Htok & ts & Hts).
      rewrite Hgen, length_app in Htok. simpl in *.
      split; [lia |]. split; [lia |].
      exists (tok :: ts). rewrite Hts, Hgen, <- app_assoc. reflexivity.
Qed.

(** X9: [Generate] changes nothing of the engine but the error text and
    the state of the random generator: the voice, the sessions, the loaded
    flag and the model type are those from before the call, however the
    call ends. *)
Theorem Generate_keeps_voice_and_models (rt : Runtime) (e : t)
    (tokenIds : list Z) (config : GenerationConfig) :
  let e' := engine (Generate rt e tokenIds config) in
  m_conds e' = m_conds e
  /\ m_sessionManager e' = m_sessionManager e
  /\ m_modelsLoaded e' = m_modelsLoaded e
  /\ m_dtype e' = m_dtype e.
Proof.
  unfold Generate.
  destruct (negb (IsReady _)); [now repeat split |].
  destruct (negb (VoiceConditionals.IsValid _)); [now repeat split |].
  destruct (VoiceConditionals.is_empty tokenIds); [now repeat split |].
  destruct (seed config =? 0);
    (destruct (OnnxSessionManager.GetSession _ LANGUAGE_MODEL);
       [| now repeat split];
     destruct (OnnxSessionManager.GetSession _ EMBED_TOKENS);
       [| now repeat split];
     destruct (OnnxSessionManager.GetSession _ COND_DECODER);
       [| now repeat split];
     destruct (_ || _); [now repeat split |];
     destruct (VoiceConditionals.is_empty (RunEmbedTokens rt tokenIds));
       [now repeat split |];
     destruct (generation_loop _ _ _ _ _ _ _ _ _ _) as [calls [msg st | a st | st]];
       [now repeat split | now repeat split |];
     destruct (decoder_inputs _ _ _ _) as [ins | bad |];
       [destruct (conditional_decoder rt ins) | |]; now repeat split).
Qed.

(** X10: the language model runs at most [maxNewTokens] times in a call
    of [Generate], not at all when that number is zero or negative; a
    token is generated by each run at most, so the generated sequence is
    never longer than one plus the number of runs, and when there is one
    it starts with the start token. *)
Theorem Generate_bounded (rt : Runtime) (e : t) (tokenIds : list Z)
    (config : GenerationConfig) :
  let run := Generate rt e tokenIds config in
  (length (lm_calls run) <= Z.to_nat (maxNewTokens config))%nat
  /\ (length (generated run) <= 1 + length (lm_calls run))%nat
  /\ (generated run = [] \/ exists ts, generated run = START_SPEECH_TOKEN :: ts).
Proof.
  assert (Hearly : forall e0 msg,
            (length (lm_calls (fail_with e0 msg [] []))
               <= Z.to_nat (maxNewTokens config))%nat
            /\ (length (generated (fail_with e0 msg [] []))
                  <= 1 + length (lm_calls (fail_with e0 msg [] [])))%nat
            /\ (generated (fail_with e0 msg [] []) = []
                \/ exists ts, generated (fail_with e0 msg [] [])
                              = START_SPEECH_TOKEN :: ts)).
  { intros. simpl. split; [lia |]. split; [lia |]. now left. }
  unfold Generate.
  destruct (negb (IsReady _)); [apply Hearly |].
  destruct (negb (VoiceConditionals.IsValid _)); [apply Hearly |].
  destruct (VoiceConditionals.is_empty tokenIds); [apply Hearly |].
  set (e1 := if seed config =? 0 then _ else _).
  destruct (OnnxSessionManager.GetSession _ LANGUAGE_MODEL); [| apply Hearly].
  destruct (OnnxSessionManager.GetSession _ EMBED_TOKENS); [| apply Hearly].
  destruct (OnnxSessionManager.GetSession _ COND_DECODER); [| apply Hearly].
  destruct (_ || _).
  { simpl. split; [lia |]. split; [lia |]. right. now exists []. }
  destruct (VoiceConditionals.is_empty (RunEmbedTokens rt tokenIds)).
  { simpl. split; [lia |]. split; [lia |]. right. now exists []. }
  destruct (generation_loop _ _ _ _ _ _ _ _ _ _) as [calls le] eqn:Hloop.
  apply loop_bounds in Hloop as (Hcalls & Hlen & ts & Hts).
  simpl in Hlen, Hts.
  assert (Hall : (length calls <= Z.to_nat (maxNewTokens config))%nat
                 /\ (length (generatedTokens (end_state le)) <= 1 + length calls)%nat
                 /\ (generatedTokens (end_state le) = []
                     \/ exists ts, generatedTokens (end_state le)
                                   = START_SPEECH_TOKEN :: ts)).
  { split; [exact Hcalls |]. split; [lia |]. right. now exists ts. }
  destruct le as [msg st | a st | st]; [exact Hall | exact Hall |].
  destruct (decoder_inputs _ _ _ _) as [ins | bad |];
    [destruct (conditional_decoder rt ins) | |]; exact Hall.
Qed.

(** X11: audio that is not empty comes out of [Generate] only when the
    engine was ready, the voice valid and the token list not empty, the
    text embeddings were produced, the decoder ran, and the error text is
    left empty. *)
Theorem Generate_audio_only_when_prepared (rt : Runtime) (e : t)
    (tokenIds : list Z) (config : GenerationConfig) (audio : list Z) :
  returned (Generate rt e tokenIds config) = Ret audio ->
  audio <> [] ->
  IsReady e = true
  /\ VoiceConditionals.IsValid (m_conds e) = true
  /\ tokenIds <> []
  /\ RunEmbedTokens rt tokenIds <> []
  /\ (exists ins, decoder_call (Generate rt e tokenIds config) = Some ins
                  /\ conditional_decoder rt ins = Some audio)
  /\ m_lastError (engine (Generate rt e tokenIds config)) = NoError.
Proof.
  unfold Generate.
  change (IsReady (set_lastError e NoError)) with (IsReady e).
  change (m_conds (set_lastError e NoError)) with (m_conds e).
  destruct (IsReady e); simpl negb; cbv iota;
    [| intros [= <-] H; now contradiction H].
  destruct (VoiceConditionals.IsValid (m_conds e)); simpl negb; cbv iota;
    [| intros [= <-] H; now contradiction H].
  destruct tokenIds as [| tok toks]; simpl VoiceConditionals.is_empty; cbv iota;
    [intros [= <-] H; now contradiction H |].
  destruct (seed config =? 0);
    (destruct (OnnxSessionManager.GetSession _ LANGUAGE_MODEL);
       [| intros [= <-] H; now contradiction H];
     destruct (OnnxSessionManager.GetSession _ EMBED_TOKENS);
       [| intros [= <-] H; now contradiction H];
     destruct (OnnxSessionManager.GetSession _ COND_DECODER);
       [| intros [= <-] H; now contradiction H];
     destruct (_ || _); [discriminate |];
     destruct (RunEmbedTokens rt (tok :: toks)) as [| x xs] eqn:Hemb;
       simpl VoiceConditionals.is_empty; cbv iota;
       [intros [= <-] H; now contradiction H |];
     destruct (generation_loop _ _ _ _ _ _ _ _ _ _) as [calls [msg st | a st | st]];
       [intros [= <-] H; now contradiction H | discriminate |];
     destruct (decoder_inputs _ _ _ _) as [ins | bad |];
       [| intros [= <-] H; now contradiction H | discriminate];
     destruct (conditional_decoder rt ins) as [out |] eqn:Hdec;
       [| intros [= <-] H; now contradiction H];
     intros [= <-] _; simpl;
     repeat split; try discriminate; eauto).
Qed.

(** X12: with a seed other than zero, what [Generate] returns, the runs
    of the language model, the tokens generated and the input of the
    decoder do not depend on the state in which the random generator was
    before the call. *)
Theorem Generate_seeded_forgets_generator (rt : Runtime) (e : t) (r1 r2 : Z)
    (tokenIds : list Z) (config : GenerationConfig) :
  seed config <> 0 ->
  let run1 := Generate rt (set_rng e r1) tokenIds config in
  let run2 := Generate rt (set_rng e r2) tokenIds config in
  returned run1 = returned run2
  /\ lm_calls run1 = lm_calls run2
  /\ generated run1 = generated run2
  /\ decoder_call run1 = decoder_call run2
  /\ (lm_calls run1 <> [] -> engine run1 = engine run2).
Proof.
  intros Hseed. apply Z.eqb_neq in Hseed.
  unfold Generate. rewrite Hseed.
  change (IsReady (set_lastError (set_rng e r1) NoError)) with (IsReady e).
  change (IsReady (set_lastError (set_rng e r2) NoError)) with (IsReady e).
  change (m_conds (set_lastError (set_rng e r1) NoError)) with (m_conds e).
  change (m_conds (set_lastError (set_rng e r2) NoError)) with (m_conds e).
  change (set_rng (set_lastError (set_rng e r2) NoError) (rng_seed rt (seed config)))
    with (set_rng (set_lastError (set_rng e r1) NoError) (rng_seed rt (seed config))).
  destruct (negb (IsReady e)); [repeat split; intros H; now contradiction H |].
  destruct (negb (VoiceConditionals.IsValid (m_conds e)));
    [repeat split; intros H; now contradiction H |].
  destruct (VoiceConditionals.is_empty tokenIds);
    [repeat split; intros H; now contradiction H |].
  repeat split.
Qed.
End GenerateOutcome.

Lemma Generate_audio_only_when_prepared_witness :
  ChatterboxTTS.IsReady Sample.engine = true
  /\ VoiceConditionals.IsValid (ChatterboxTTS.m_conds Sample.engine) = true
  /\ Sample.tokenIds <> []
  /\ RunEmbedTokens Sample.runtime Sample.tokenIds <> []
  /\ (exists ins,
        ChatterboxTTS.decoder_call
          (ChatterboxTTS.Generate Sample.runtime Sample.engine Sample.tokenIds
             Sample.config) = Some ins
        /\ conditional_decoder Sample.runtime ins = Some [0; 0; 0])
  /\ ChatterboxTTS.m_lastError
       (ChatterboxTTS.engine
          (ChatterboxTTS.Generate Sample.runtime Sample.engine Sample.tokenIds
             Sample.config)) = ChatterboxTTS.NoError.
Proof.
  assert (Hrun : ChatterboxTTS.returned
                   (ChatterboxTTS.Generate Sample.runtime Sample.engine
                      Sample.tokenIds Sample.config) = Ret [0; 0; 0])
    by (vm_compute; reflexivity).
  apply (Generate_audio_only_when_prepared Sample.runtime Sample.engine
           Sample.tokenIds Sample.config [0; 0; 0] Hrun).
  discriminate.
Defined.

Lemma Generate_seeded_forgets_generator_witness :
  let run1 :=
    ChatterboxTTS.Generate Sample.runtime (ChatterboxTTS.set_rng Sample.engine 1)
      Sample.tokenIds seeded_config in
  let run2 :=
    ChatterboxTTS.Generate Sample.runtime (ChatterboxTTS.set_rng Sample.engine 2)
      Sample.tokenIds seeded_config in
  ChatterboxTTS.returned run1 = ChatterboxTTS.returned run2
  /\ ChatterboxTTS.lm_calls run1 = ChatterboxTTS.lm_calls run2
  /\ ChatterboxTTS.generated run1 = ChatterboxTTS.generated run2
  /\ ChatterboxTTS.decoder_call run1 = ChatterboxTTS.decoder_call run2
  /\ (ChatterboxTTS.lm_calls run1 <> [] ->
      ChatterboxTTS.engine run1 = ChatterboxTTS.engine run2).
Proof.
  apply (Generate_seeded_forgets_generator Sample.runtime Sample.engine 1 2
           Sample.tokenIds seeded_config).
  discriminate.
Defined.

(** ** Resolving a voice *)

Section ResolvingVoice.
Import VoiceConditionalsCache Main.

Lemma LoadFromDisk_true (junk : nat -> Z) (fs : FileSystem) (c c' : t)
    (key : string) :
  LoadFromDisk junk fs c key = (Ret true, c') ->
  exists conds, Get c' key = Some conds.
Proof.
  unfold LoadFromDisk.
  destruct (VoiceConditionals.Load junk fs (GetCachePath c key))
    as [[conds |] | a]; [| discriminate | discriminate].
  intros [= <-]. exists conds. unfold Get. simpl. apply lookup_insert_eq.
Qed.




(** All eight assignments give the voice that a successful
    [RunSpeechEncoder] stores. *)
Lemma assign_first_all (o0 o1 o2 o3 : Tensor) (v : VoiceConditionals.t) :
  ChatterboxTTS.assign_first 8 o0 o1 o2 o3 v
  = {| VoiceConditionals.condEmb := tensor_data o0;
       VoiceConditionals.promptToken := tensor_data o1;
       VoiceConditionals.speakerEmbeddings := tensor_data o2;
       VoiceConditionals.speakerFeatures := tensor_data o3;
       VoiceConditionals.condEmbShape := tensor_shape o0;
       VoiceConditionals.promptTokenShape := tensor_shape o1;
       VoiceConditionals.speakerEmbeddingsShape := tensor_shape o2;
       VoiceConditionals.speakerFeaturesShape := tensor_shape o3 |}.
Proof. reflexivity. Qed.


Lemma process_voice_true (rt : Runtime) (fs : FileSystem)
    (tts : ChatterboxTTS.t) (cache : t) (voicePath key : string) :
  res_returned (process_voice rt fs tts cache voicePath key) = Ret true ->
  VoiceConditionals.IsValid
    (ChatterboxTTS.m_conds (res_engine (process_voice rt fs tts cache voicePath key)))
    = true ->
  Get (res_cache (process_voice rt fs tts cache voicePath key)) key
  = Some (ChatterboxTTS.m_conds
            (res_engine (process_voice rt fs tts cache voicePath key))).
Proof.
  unfold process_voice.
  destruct (String.eqb (actualPath fs voicePath key) ""); [discriminate |].
  destruct (ChatterboxTTS.PrepareConditionals rt tts _) as [[ok tts'] calls].
  destruct ok; simpl negb; cbv iota; [| discriminate].
  unfold Put.
  destruct (VoiceConditionals.IsValid (ChatterboxTTS.m_conds tts')) eqn:Hvalid;
    simpl negb; cbv iota.
  - destruct (SaveToDisk fs _ key _) as [r fs']. simpl. intros _ _.
    unfold Get. simpl. apply lookup_insert_eq.
  - simpl. intros _ Hv. congruence.
Qed.


(** X14: once [ResolveVoice] has returned true and left a valid voice in
    the engine, every path with the same key resolves to that voice from
    memory: whatever the file system holds and whatever the file behind
    the new path is, the call returns true, sets the voice found in the
    earlier call, and asks neither the disk nor the models.  Two files
    with the same stem in different folders are one voice to the cache. *)
Theorem ResolveVoice_same_key_hits (rt rt' : Runtime) (junk junk' : nat -> Z)
    (fs fs' : FileSystem) (tts tts' : ChatterboxTTS.t) (cache : t)
    (voicePath voicePath' : string) :
  res_returned (ResolveVoice rt junk fs tts cache voicePath) = Ret true ->
  VoiceConditionals.IsValid
    (ChatterboxTTS.m_conds (res_engine (ResolveVoice rt junk fs tts cache voicePath)))
    = true ->
  ExtractKey voicePath' = ExtractKey voicePath ->
  ResolveVoice rt' junk' fs' tts'
    (res_cache (ResolveVoice rt junk fs tts cache voicePath)) voicePath'
  = {| res_returned := Ret true;
       res_engine :=
         ChatterboxTTS.SetConditionals tts'
           (ChatterboxTTS.m_conds
              (res_engine (ResolveVoice rt junk fs tts cache voicePath)));
       res_cache := res_cache (ResolveVoice rt junk fs tts cache voicePath);
       res_fs := fs'; res_calls := [] |}.
Proof.
  intros Htrue Hvalid Hkey.
  assert (Hget : Get (res_cache (ResolveVoice rt junk fs tts cache voicePath))
                   (ExtractKey voicePath)
                 = Some (ChatterboxTTS.m_conds
                           (res_engine (ResolveVoice rt junk fs tts cache voicePath)))).
  { revert Htrue Hvalid. unfold ResolveVoice.
    destruct (Get cache (ExtractKey voicePath)) as [conds |] eqn:Hhit;
      [intros _ _; exact Hhit |].
    destruct (ExistsOnDisk fs cache (ExtractKey voicePath));
      [| apply process_voice_true].
    destruct (LoadFromDisk junk fs cache (ExtractKey voicePath))
      as [[[|] | a] cache'] eqn:Hload.
    - apply LoadFromDisk_true in Hload as [conds Hget]. rewrite Hget.
      intros _ _. exact Hget.
    - apply process_voice_true.
    - discriminate. }
  unfold ResolveVoice at 1. rewrite Hkey, Hget. reflexivity.
Qed.
End ResolvingVoice.


(** The exception is real: with a speech encoder that throws while its
    second output is read, [ResolveVoice] returns false and the engine
    holds a voice that is neither the old one nor a complete new one. *)
Lemma ResolveVoice_false_mixes_voices :
  Main.res_returned
    (Main.ResolveVoice throwing_runtime (fun _ => 0) voice_disk Sample.engine
       fresh_cache "a/hero.wav") = Ret false
  /\ ChatterboxTTS.m_conds
       (Main.res_engine
          (Main.ResolveVoice throwing_runtime (fun _ => 0) voice_disk
             Sample.engine fresh_cache "a/hero.wav"))
     = ChatterboxTTS.assign_promptToken [7]
         (ChatterboxTTS.assign_condEmbShape [1; 1]
            (ChatterboxTTS.assign_condEmb [7]
               (ChatterboxTTS.m_conds Sample.engine)))
  /\ ChatterboxTTS.m_conds
       (Main.res_engine
          (Main.ResolveVoice throwing_runtime (fun _ => 0) voice_disk
             Sample.engine fresh_cache "a/hero.wav"))
     <> ChatterboxTTS.m_conds Sample.engine.
Proof.
  split; [vm_compute; reflexivity |].
  split; [vm_compute; reflexivity |].
  vm_compute. discriminate.
Qed.

Lemma ResolveVoice_same_key_hits_witness :
  Main.ResolveVoice Sample.runtime (fun _ => 0) empty_disk Sample.engine
    (Main.res_cache
       (Main.ResolveVoice voice_runtime (fun _ => 0) voice_disk Sample.engine
          fresh_cache "a/hero.wav"))
    "b/hero.xwm"
  = {| Main.res_returned := Ret true;
       Main.res_engine :=
         ChatterboxTTS.SetConditionals Sample.engine
           (ChatterboxTTS.m_conds
              (Main.res_engine
                 (Main.ResolveVoice voice_runtime (fun _ => 0) voice_disk
                    Sample.engine fresh_cache "a/hero.wav")));
       Main.res_cache :=
         Main.res_cache
           (Main.ResolveVoice voice_runtime (fun _ => 0) voice_disk
              Sample.engine fresh_cache "a/hero.wav");
       Main.res_fs := empty_disk; Main.res_calls := [] |}.
Proof.
  assert (Hrun : Main.res_returned
                   (Main.ResolveVoice voice_runtime (fun _ => 0) voice_disk
                      Sample.engine fresh_cache "a/hero.wav") = Ret true)
    by (vm_compute; reflexivity).
  assert (Hvalid : VoiceConditionals.IsValid
                     (ChatterboxTTS.m_conds
                        (Main.res_engine
                           (Main.ResolveVoice voice_runtime (fun _ => 0) voice_disk
                              Sample.engine fresh_cache "a/hero.wav"))) = true)
    by (vm_compute; reflexivity).
  assert (Hkey : VoiceConditionalsCache.ExtractKey "b/hero.xwm"
                 = VoiceConditionalsCache.ExtractKey "a/hero.wav")
    by (vm_compute; reflexivity).
  exact (ResolveVoice_same_key_hits voice_runtime Sample.runtime (fun _ => 0)
           (fun _ => 0) voice_disk empty_disk Sample.engine Sample.engine
           fresh_cache "a/hero.wav" "b/hero.xwm" Hrun Hvalid Hkey).
Defined.

(** ** Sampling a token *)

Section Sampling.
Import ChatterboxTTS.

Lemma sample_scan_range (r : spec_float) (probs : list spec_float) :
  forall cumSum i k,
    sample_scan r cumSum i probs = Some k ->
    i <= k < i + Z.of_nat (length probs).
Proof.
  induction probs as [| p probs IH]; intros cumSum i k; simpl; [discriminate |].
  destruct (F32.leb r (F32.add cumSum p)).
  - intros [= <-]. lia.
  - intros H. apply IH in H. lia.
Qed.

(** X15: for probabilities that are not empty, [SampleToken] returns an
    index into them, whatever the number drawn and whatever the
    probabilities are or add up to; for no probabilities at all it returns
    -1, which is no index. *)
Theorem SampleToken_range (r : spec_float) (probs : list spec_float) :
  Z.of_nat (length probs) < 2 ^ 63 ->
  match probs with
  | [] => SampleToken r probs = -1
  | _ => 0 <= SampleToken r probs < Z.of_nat (length probs)
  end.
Proof.
  intros Hlen. destruct probs as [| p probs]; [reflexivity |].
  unfold SampleToken.
  destruct (sample_scan r F32.zero 0 (p :: probs)) as [k |] eqn:Hscan.
  - apply sample_scan_range in Hscan. lia.
  - unfold to_signed64.
    rewrite Z.mod_small by (simpl length in *; lia).
    destruct (_ <? _) eqn:Hlt; [simpl length; lia |].
    apply Z.ltb_ge in Hlt. simpl length in *. lia.
Qed.
End Sampling.

Lemma SampleToken_range_witness :
  0 <= ChatterboxTTS.SampleToken F32.one [F32.zero; F32.zero; F32.zero]
    < Z.of_nat (length [F32.zero; F32.zero; F32.zero]).
Proof.
  apply (SampleToken_range F32.one [F32.zero; F32.zero; F32.zero]).
  reflexivity.
Defined.

(** ** Text normalisation *)

Section Normalisation.
Import Text.

Lemma isspace_toupper (c : ascii) : islower c = true -> isspace (toupper c) = false.
Proof.
  destruct c as [[] [] [] [] [] [] [] []]; try discriminate; reflexivity.
Qed.

Lemma islower_not_space (c : ascii) : islower c = true -> isspace c = false.
Proof.
  destruct c as [[] [] [] [] [] [] [] []]; try discriminate; reflexivity.
Qed.

Lemma capitalize_nonspace (s : list ascii) :
  existsb nonspace (capitalize s) = existsb nonspace s.
Proof.
  destruct s as [| c r]; [reflexivity |]. simpl.
  destruct (islower c) eqn:Hc; [| reflexivity].
  simpl. unfold nonspace at 1 3.
  now rewrite (isspace_toupper c Hc), (islower_not_space c Hc).
Qed.

Lemma collapse_nonspace (s : list ascii) :
  forall b, existsb nonspace (collapse b s) = existsb nonspace s.
Proof.
  induction s as [| c r IH]; intros b; [reflexivity |]. simpl.
  unfold nonspace at 2. destruct (isspace c) eqn:Hc; simpl.
  - destruct b; simpl; now rewrite IH.
  - unfold nonspace at 1. rewrite Hc. reflexivity.
Qed.

Lemma replace_from_nonspace (old new : list ascii) (s : list ascii) :
  existsb nonspace new = true ->
  forall skip,
    existsb nonspace (drop skip s) = true ->
    existsb nonspace (replace_from old new skip s) = true.
Proof.
  intros Hnew. induction s as [| c r IH]; intros skip.
  - now rewrite drop_nil.
  - destruct skip as [| k]; simpl.
    + destruct (is_prefix old (c :: r)).
      * intros _. rewrite existsb_app, Hnew. reflexivity.
      * simpl. destruct (nonspace c); [reflexivity |]. simpl.
        intros H. apply (IH 0%nat). exact H.
    + apply IH.
Qed.

Lemma is_prefix_spaces (old s : list ascii) :
  existsb nonspace old = true -> existsb nonspace s = false ->
  is_prefix old s = false.
Proof.
  revert s. induction old as [| a old IH]; intros s; [discriminate |].
  destruct s as [| b s]; [reflexivity |]. simpl.
  intros Hold Hs. apply orb_false_iff in Hs as [Hb Hs].
  destruct (Ascii.eqb_spec a b) as [-> |]; [| reflexivity]. simpl.
  rewrite Hb in Hold. simpl in Hold. now apply IH.
Qed.

Lemma replace_from_spaces (old new : list ascii) (s : list ascii) :
  existsb nonspace old = true -> existsb nonspace s = false ->
  replace_from old new 0 s = s.
Proof.
  intros Hold. induction s as [| c r IH]; [reflexivity |].
  intros Hs. simpl replace_from.
  rewrite (is_prefix_spaces old (c :: r) Hold Hs).
  simpl in Hs. apply orb_false_iff in Hs as [_ Hr]. now rewrite IH.
Qed.

Lemma replace_uncommon_nonspace (s : list ascii) :
  existsb nonspace (replace_uncommon s) = existsb nonspace s
  /\ (existsb nonspace s = false -> replace_uncommon s = s).
Proof.
  unfold replace_uncommon.
  assert (Hall : Forall (fun p => existsb nonspace (fst p) = true
                                  /\ existsb nonspace (snd p) = true)
                   replacements)
    by (repeat constructor).
  revert s. induction Hall as [| [old new] l [Hold Hnew] _ IH]; intros s.
  - split; reflexivity.
  - simpl in Hold, Hnew. simpl fold_left.
    destruct (IH (replace_from old new 0 s)) as [IH1 IH2].
    destruct (existsb nonspace s) eqn:Hs.
    + split; [| discriminate]. rewrite IH1.
      now apply replace_from_nonspace.
    + rewrite (replace_from_spaces old new s Hold Hs) in *.
      split; [now rewrite IH1 |]. intros _. now apply IH2.
Qed.

Lemma rstrip_spaces (s : list ascii) :
  existsb nonspace s = false -> rstrip s = [].
Proof.
  induction s as [| c r IH]; [reflexivity |]. simpl.
  intros H. apply orb_false_iff in H as [Hc Hr]. rewrite (IH Hr).
  unfold nonspace in Hc. apply negb_false_iff in Hc. now rewrite Hc.
Qed.

Lemma rstrip_last (s : list ascii) :
  existsb nonspace s = true ->
  exists body c, rstrip s = body ++ [c] /\ isspace c = false.
Proof.
  induction s as [| c r IH]; [discriminate |]. simpl.
  destruct (existsb nonspace r) eqn:Hr.
  - intros _. destruct (IH eq_refl) as (body & d & Hd & Hsp). rewrite Hd.
    exists (c :: body), d. split; [| exact Hsp].
    destruct body; reflexivity.
  - rewrite orb_false_r. intros Hc. rewrite (rstrip_spaces r Hr).
    unfold nonspace in Hc. apply negb_true_iff in Hc. rewrite Hc.
    exists [], c. auto.
Qed.

Lemma add_period_ending (s : list ascii) :
  s <> [] ->
  exists body c, add_period s = body ++ [c] /\ is_ending c = true.
Proof.
  intros Hs. unfold add_period.
  destruct (last s) as [c |] eqn:Hlast.
  - destruct (is_ending c) eqn:Hc.
    + apply last_Some in Hlast as [body ->]. eauto.
    + exists s, "."%char. auto.
  - apply last_None in Hlast. contradiction.
Qed.

Lemma normalised_ending (s : list ascii) :
  if forallb isspace s
  then add_period (rstrip (replace_uncommon s)) = []
  else exists body c,
         add_period (rstrip (replace_uncommon s)) = body ++ [c]
         /\ is_ending c = true.
Proof.
  assert (Hall : forallb isspace s = negb (existsb nonspace s)).
  { induction s as [| c r IH]; [reflexivity |]. simpl. rewrite IH.
    unfold nonspace. now destruct (isspace c), (existsb _ r). }
  rewrite Hall. destruct (replace_uncommon_nonspace s) as [H1 H2].
  destruct (existsb nonspace s) eqn:Hs; simpl.
  - apply add_period_ending.
    assert (Hs' : existsb nonspace (replace_uncommon s) = true) by congruence.
    apply rstrip_last in Hs' as (body & c & -> & _).
    now destruct body.
  - rewrite (H2 eq_refl), (rstrip_spaces s Hs). reflexivity.
Qed.

Lemma forallb_isspace_capitalize (s : list ascii) :
  forallb isspace (capitalize s) = forallb isspace s.
Proof.
  destruct s as [| c r]; [reflexivity |]. simpl.
  destruct (islower c) eqn:Hc; [| reflexivity]. simpl.
  now rewrite (isspace_toupper c Hc), (islower_not_space c Hc).
Qed.

Lemma forallb_isspace_collapse (s : list ascii) :
  forall b, forallb isspace (collapse b s) = forallb isspace s.
Proof.
  induction s as [| c r IH]; intros b; [reflexivity |]. simpl.
  destruct (isspace c) eqn:Hc; simpl.
  - destruct b; simpl; now rewrite IH.
  - now rewrite Hc.
Qed.

(** X16: both normalisers answer the empty text with the default
    sentence, and a text that is all white space with the empty text: no
    sentence is substituted then.  Every other text comes out ending in
    one of the characters . ! ? - and the comma. *)
Theorem normalised_text_ending (text : string) :
  let chars := list_ascii_of_string text in
  let ends (out : string) :=
    if String.eqb text "" then out = default_text
    else if forallb isspace chars then out = ""%string
    else exists body c,
           list_ascii_of_string out = body ++ [c] /\ is_ending c = true in
  ends (NormalizeTextForTTS text) /\ ends (NormalizeText text).
Proof.
  cbv zeta. unfold NormalizeTextForTTS, NormalizeText.
  destruct (String.eqb text ""); [split; reflexivity |].
  pose proof (normalised_ending
                (collapse false (capitalize (list_ascii_of_string text)))) as H1.
  pose proof (normalised_ending (capitalize (list_ascii_of_string text))) as H2.
  rewrite forallb_isspace_collapse in H1.
  rewrite forallb_isspace_capitalize in H1, H2.
  destruct (forallb isspace (list_ascii_of_string text)).
  - rewrite H1, H2. split; reflexivity.
  - split; rewrite list_ascii_of_string_of_list_ascii; assumption.
Qed.

Lemma replace_from_Forall (P : ascii -> Prop) (old new s : list ascii) :
  Forall P new -> Forall P s ->
  forall skip, Forall P (replace_from old new skip s).
Proof.
  intros Hnew Hs. induction Hs as [| c r Hc Hr IH]; intros skip; [constructor |].
  destruct skip as [| k]; simpl; [| apply IH].
  destruct (is_prefix old (c :: r)).
  - apply Forall_app. split; [exact Hnew | apply IH].
  - constructor; [exact Hc | apply IH].
Qed.

Lemma replace_colon (s : list ascii) :
  Forall (fun c => c <> ":"%char) (replace_from [":"%char] [","%char] 0 s).
Proof.
  induction s as [| c r IH]; [constructor |].
  cbn [replace_from is_prefix length Nat.sub app].
  destruct (Ascii.eqb_spec ":" c) as [<- | Hc]; cbn [andb].
  - constructor; [discriminate | exact IH].
  - constructor; [congruence | exact IH].
Qed.

Lemma rstrip_Forall (P : ascii -> Prop) (s : list ascii) :
  Forall P s -> Forall P (rstrip s).
Proof.
  induction 1 as [| c r Hc Hr IH]; [constructor |]. simpl.
  destruct (rstrip r) as [| d r'].
  - destruct (isspace c); repeat constructor; exact Hc.
  - constructor; assumption.
Qed.

Lemma normalised_no_colon (s : list ascii) :
  Forall (fun c => c <> ":"%char) (add_period (rstrip (replace_uncommon s))).
Proof.
  assert (Hrep : Forall (fun c => c <> ":"%char) (replace_uncommon s)).
  { unfold replace_uncommon, replacements. simpl fold_left.
    do 7 (apply replace_from_Forall; [repeat constructor; discriminate |]).
    apply replace_colon. }
  apply (rstrip_Forall _ _) in Hrep.
  unfold add_period. destruct (last _) as [c |]; [| exact Hrep].
  destruct (is_ending c); [exact Hrep |].
  apply Forall_app. split; [exact Hrep |]. repeat constructor. discriminate.
Qed.

(** X17: no text comes out of the normalisers with a colon in it. *)
Theorem normalised_text_has_no_colon (text : string) :
  Forall (fun c => c <> ":"%char) (list_ascii_of_string (NormalizeTextForTTS text))
  /\ Forall (fun c => c <> ":"%char) (list_ascii_of_string (NormalizeText text)).
Proof.
  unfold NormalizeTextForTTS, NormalizeText.
  destruct (String.eqb text "").
  - split; repeat constructor; discriminate.
  - rewrite !list_ascii_of_string_of_list_ascii.
    split; apply normalised_no_colon.
Qed.
End Normalisation.

(** ** Tensor utilities *)

Section Tensors.
Import TensorUtils.

(** X18: when [offset + count] stays in the range of [size_t], the slice
    is cut to the elements that the tensor has: [ExtractFloatSlice]
    returns the [count] elements from [offset] on, or as many of them as
    there are, and reads nothing else. *)
Theorem ExtractFloatSlice_clipped (data : list Z) (offset count : Z) :
  0 <= offset -> 0 <= count -> offset + count < 2 ^ 64 ->
  ExtractFloatSlice data offset count
  = Ret (take (Z.to_nat count) (drop (Z.to_nat offset) data)).
Proof.
  intros Hoff Hcount Hsum. unfold ExtractFloatSlice.
  rewrite (Z.mod_small (offset + count)) by lia.
  destruct (Z.ltb_spec (Z.of_nat (length data)) (offset + count)) as [Hout | Hin].
  - destruct (Z.ltb_spec offset (Z.of_nat (length data))) as [Hlt | Hge].
    + destruct (Z.eqb_spec (Z.of_nat (length data) - offset) 0); [lia |].
      destruct (Z.ltb_spec (Z.of_nat (length data))
                  (offset + (Z.of_nat (length data) - offset))); [lia |].
      f_equal. rewrite !take_ge; [reflexivity | |]; rewrite length_drop; lia.
    + simpl. f_equal. rewrite drop_ge by lia. now rewrite take_nil.
  - destruct (Z.eqb_spec count 0) as [-> | Hne]; [reflexivity |].
    destruct (Z.ltb_spec (Z.of_nat (length data)) (offset + count)); [lia |].
    reflexivity.
Qed.

Lemma fold_left_product (shape : list Z) :
  forall a,
    0 <= a -> Forall (fun d => 0 < d) shape ->
    a * fold_right Z.mul 1 shape < 2 ^ 64 ->
    fold_left (fun a b => (a * (b mod 2 ^ 64)) mod 2 ^ 64) shape a
    = a * fold_right Z.mul 1 shape.
Proof.
  induction shape as [| d shape IH]; intros a Ha Hpos Hprod; simpl.
  - lia.
  - apply Forall_cons in Hpos as [Hd Hpos].
    assert (Hrest : 0 < fold_right Z.mul 1 shape).
    { clear -Hpos. induction Hpos; simpl; lia. }
    simpl in Hprod.
    destruct (Z.eq_dec a 0) as [-> | Hne].
    + rewrite Z.mul_0_l, Z.mod_0_l by lia. rewrite IH; [lia | lia | exact Hpos | lia].
    + assert (a * d < 2 ^ 64) by nia.
      assert (d < 2 ^ 64) by nia.
      rewrite (Z.mod_small d) by lia.
      rewrite (Z.mod_small (a * d)) by nia.
      rewrite IH; [lia | nia | exact Hpos | lia].
Qed.

(** X19: [GetElementCount] is the product of the dimensions for every
    shape with dimensions that are not negative and a product below 2^64,
    except for the shape of a scalar, the empty one, which it counts as
    no element. *)
Theorem GetElementCount_product (shape : list Z) :
  Forall (fun d => 0 <= d) shape ->
  fold_right Z.mul 1 shape < 2 ^ 64 ->
  GetElementCount shape
  = match shape with [] => 0 | _ => fold_right Z.mul 1 shape end.
Proof.
  intros Hdims Hprod. unfold GetElementCount.
  destruct shape as [| d shape]; [reflexivity |].
  simpl VoiceConditionals.is_empty. cbv iota.
  destruct (existsb (Z.eqb 0) (d :: shape)) eqn:Hzero.
  - apply existsb_exists in Hzero as (z & Hin & Hz).
    apply Z.eqb_eq in Hz. subst z. symmetry.
    clear -Hin. induction (d :: shape) as [| x l IH]; [inversion Hin |].
    simpl. destruct Hin as [-> | Hin]; [lia |]. rewrite IH by exact Hin. lia.
  - rewrite fold_left_product; [lia | lia | | lia].
    apply Forall_forall. intros x Hx.
    assert (Hx0 : 0 <= x) by (rewrite Forall_forall in Hdims; now apply Hdims).
    destruct (Z.eq_dec x 0) as [-> | Hne]; [| lia].
    assert (existsb (Z.eqb 0) (d :: shape) = true); [| congruence].
    apply existsb_exists. exists 0. split; [| reflexivity].
    now apply list_elem_of_In.
Qed.
End Tensors.

Lemma ExtractFloatSlice_clipped_witness :
  TensorUtils.ExtractFloatSlice [10; 20; 30; 40] 2 6
  = Ret (take (Z.to_nat 6) (drop (Z.to_nat 2) [10; 20; 30; 40])).
Proof.
  apply (ExtractFloatSlice_clipped [10; 20; 30; 40] 2 6); lia.
Defined.

Lemma GetElementCount_product_witness :
  TensorUtils.GetElementCount [1; 2; 4]
  = match [1; 2; 4] with [] => 0 | _ => fold_right Z.mul 1 [1; 2; 4] end.
Proof.
  apply (GetElementCount_product [1; 2; 4]).
  - repeat constructor; lia.
  - reflexivity.
Defined.

(** ** Top-k filtering *)

Section TopK.
Import ChatterboxTTS.

Lemma compare_cont_Eq (m1 m2 : positive) :
  PosDef.Pos.compare_cont Eq m1 m2 = Pos.compare m1 m2.
Proof. reflexivity. Qed.

Lemma ltb_trans (x y z : spec_float) :
  F32.ltb x y = true -> F32.ltb y z = true -> F32.ltb x z = true.
Proof.
  unfold F32.ltb, SFltb.
  destruct x as [sx | sx | | sx mx ex], y as [sy | sy | | sy my ey],
    z as [sz | sz | | sz mz ez]; simpl;
    try discriminate; try (destruct sx, sy, sz; simpl; congruence).
  all: destruct sx, sy, sz; simpl; try congruence.
  all: change (PosDef.Pos.compare_cont Eq) with Pos.compare.
  all: destruct (Z.compare_spec ex ey); destruct (Z.compare_spec ey ez);
       destruct (Z.compare_spec ex ez); simpl; try congruence; try lia.
  all: subst; destruct (Pos.compare_spec mx my); destruct (Pos.compare_spec my mz);
       destruct (Pos.compare_spec mx mz); simpl; try congruence; try lia.
Qed.

Lemma ltb_irrefl (x : spec_float) : F32.ltb x x = false.
Proof.
  unfold F32.ltb, SFltb. destruct x as [s | s | | s m e]; simpl;
    try reflexivity; try (destruct s; reflexivity).
  change (PosDef.Pos.compare_cont Eq) with Pos.compare.
  rewrite Z.compare_refl, Pos.compare_refl. now destruct s.
Qed.

Lemma ltb_asym (x y : spec_float) : F32.ltb x y = true -> F32.ltb y x = false.
Proof.
  intros Hxy. destruct (F32.ltb y x) eqn:Hyx; [| reflexivity].
  rewrite <- (ltb_irrefl x). symmetry. now apply (ltb_trans x y x).
Qed.

Lemma insert_desc_Forall (P : spec_float -> Prop) (x : spec_float)
    (l : list spec_float) :
  P x -> Forall P l -> Forall P (insert_desc x l).
Proof.
  intros Hx. induction 1 as [| y r Hy Hr IH]; simpl; [now repeat constructor |].
  destruct (F32.ltb y x); repeat constructor; assumption.
Qed.

Lemma insert_desc_descending (x : spec_float) (l : list spec_float) :
  descending l -> descending (insert_desc x l).
Proof.
  induction l as [| y r IH]; simpl; [intros _; split; [constructor | exact I] |].
  intros [Hy Hr]. destruct (F32.ltb y x) eqn:Hyx; simpl.
  - split; [| split; assumption].
    constructor; [now apply ltb_asym |].
    eapply Forall_impl; [exact Hy |]. intros z Hz. simpl in Hz.
    destruct (F32.ltb x z) eqn:Hxz; [| reflexivity].
    rewrite <- Hz. symmetry. now apply (ltb_trans y x z).
  - split; [| now apply IH].
    apply insert_desc_Forall; assumption.
Qed.

Lemma sort_desc_descending (l : list spec_float) : descending (sort_desc l).
Proof.
  induction l as [| x l IH]; simpl; [exact I |].
  now apply insert_desc_descending.
Qed.

Lemma count_of_insert_desc (f : spec_float -> bool) (x : spec_float)
    (l : list spec_float) :
  count_of f (insert_desc x l) = count_of f (x :: l).
Proof.
  unfold count_of. induction l as [| y r IH]; [reflexivity |]. simpl.
  destruct (F32.ltb y x); [reflexivity |]. simpl in *.
  destruct (f y), (f x); simpl in *; lia.
Qed.

Lemma count_of_sort_desc (f : spec_float -> bool) (l : list spec_float) :
  count_of f (sort_desc l) = count_of f l.
Proof.
  induction l as [| x l IH]; [reflexivity |]. simpl sort_desc.
  rewrite count_of_insert_desc. unfold count_of in *. simpl.
  destruct (f x); simpl; lia.
Qed.

Lemma length_insert_desc (x : spec_float) (l : list spec_float) :
  length (insert_desc x l) = S (length l).
Proof.
  induction l as [| y r IH]; [reflexivity |]. simpl.
  destruct (F32.ltb y x); simpl; lia.
Qed.

Lemma length_sort_desc (l : list spec_float) : length (sort_desc l) = length l.
Proof.
  induction l as [| x l IH]; [reflexivity |]. simpl.
  now rewrite length_insert_desc, IH.
Qed.

Lemma elem_of_insert_desc (z x : spec_float) (l : list spec_float) :
  z ∈ insert_desc x l -> z = x \/ z ∈ l.
Proof.
  induction l as [| y r IH]; simpl.
  - intros H. apply list_elem_of_singleton in H. auto.
  - destruct (F32.ltb y x).
    + intros H. apply elem_of_cons in H. exact H.
    + intros H. apply elem_of_cons in H as [-> | H].
      * right. apply list_elem_of_here.
      * apply IH in H as [-> | H]; [now left | right].
        now apply list_elem_of_further.
Qed.

Lemma elem_of_sort_desc (z : spec_float) (l : list spec_float) :
  z ∈ sort_desc l -> z ∈ l.
Proof.
  induction l as [| x l IH]; simpl; [trivial |].
  intros H. apply elem_of_insert_desc in H as [-> | H].
  - apply list_elem_of_here.
  - apply list_elem_of_further. now apply IH.
Qed.

(** In a descending list, the element at a position is not above the
    ones before it and not below the ones after it. *)
Lemma descending_counts (s : list spec_float) :
  descending s ->
  forall j t, s !! j = Some t ->
    (S j <= count_of (fun x => negb (F32.ltb x t)) s)%nat
    /\ (count_of (fun x => F32.ltb t x) s <= j)%nat.
Proof.
  unfold count_of.
  induction s as [| x r IH]; intros Hs j t Hj; [discriminate |].
  destruct Hs as [Hx Hr]. destruct j as [| j]; simpl in Hj.
  - injection Hj as ->. simpl. rewrite ltb_irrefl. simpl. split; [lia |].
    assert (Hnone : List.filter (fun x => F32.ltb t x) r = []).
    { clear -Hx. induction Hx as [| y r Hy _ IH]; [reflexivity |].
      simpl. now rewrite Hy. }
    rewrite Hnone. simpl. lia.
  - destruct (IH Hr j t Hj) as [IH1 IH2]. simpl.
    assert (Hxt : F32.ltb x t = false).
    { rewrite Forall_forall in Hx. apply Hx. now apply list_elem_of_lookup_2 in Hj. }
    rewrite Hxt. simpl. split; [lia |].
    destruct (F32.ltb t x); simpl; lia.
Qed.

(** X20: for [k] above zero and below the number of logits, none of
    them a NaN, [ApplyTopK] takes one of the logits as threshold, with at
    least [k] logits not below it and fewer than [k] above it; it sets
    the logits below the threshold to minus infinity and returns every
    other logit as it was, in its place. *)
Theorem ApplyTopK_keeps_k_largest (logits : list spec_float) (k : Z) :
  0 < k < to_int (Z.of_nat (length logits)) ->
  existsb is_nan logits = false ->
  exists out threshold,
    ApplyTopK logits k = Some out
    /\ threshold ∈ logits
    /\ (Z.to_nat k <= count_of (fun x => negb (F32.ltb x threshold)) logits)%nat
    /\ (count_of (fun x => F32.ltb threshold x) logits < Z.to_nat k)%nat
    /\ length out = length logits
    /\ forall i x, logits !! i = Some x ->
         out !! i = Some (if F32.ltb x threshold then S754_infinity true else x).
Proof.
  intros [Hk0 Hk] Hnan.
  assert (Hlen : k <= Z.of_nat (length logits)).
  { unfold to_int in Hk.
    pose proof (Z.mod_le (Z.of_nat (length logits) + 2 ^ 31) (2 ^ 32)
                  ltac:(lia) ltac:(lia)). lia. }
  unfold ApplyTopK.
  replace ((k <=? 0) || (to_int (Z.of_nat (length logits)) <=? k)) with false
    by (symmetry; apply orb_false_iff; split; apply Z.leb_gt; lia).
  rewrite Hnan.
  destruct (sort_desc logits !! Z.to_nat (k - 1)) as [t |] eqn:Ht.
  2:{ apply lookup_ge_None in Ht. rewrite length_sort_desc in Ht. lia. }
  simpl default. eexists; exists t. split; [reflexivity |].
  destruct (descending_counts _ (sort_desc_descending logits) _ _ Ht) as [H1 H2].
  rewrite count_of_sort_desc in H1, H2.
  split; [apply elem_of_sort_desc; now apply list_elem_of_lookup_2 in Ht |].
  split; [lia |]. split; [lia |].
  split; [apply length_fmap |].
  intros i x Hx. rewrite list_lookup_fmap, Hx. reflexivity.
Qed.
End TopK.

Lemma ApplyTopK_keeps_k_largest_witness :
  exists out threshold,
    ChatterboxTTS.ApplyTopK [F32.zero; F32.five; F32.one] 2 = Some out
    /\ threshold ∈ [F32.zero; F32.five; F32.one]
    /\ (Z.to_nat 2 <= count_of (fun x => negb (F32.ltb x threshold))
                        [F32.zero; F32.five; F32.one])%nat
    /\ (count_of (fun x => F32.ltb threshold x) [F32.zero; F32.five; F32.one]
         < Z.to_nat 2)%nat
    /\ length out = length [F32.zero; F32.five; F32.one]
    /\ forall i x, [F32.zero; F32.five; F32.one] !! i = Some x ->
         out !! i = Some (if F32.ltb x threshold then S754_infinity true else x).
Proof.
  apply (ApplyTopK_keeps_k_largest [F32.zero; F32.five; F32.one] 2).
  - split; [lia | reflexivity].
  - reflexivity.
Defined.

(** ** Writing WAV files *)

Section WavFiles.
Import WavWriter.

Lemma length_format_part (format : WavFormat) :
  length (format_part format) = 32%nat.
Proof. unfold format_part. rewrite !length_app, !length_le_encode. reflexivity. Qed.

Lemma length_WriteHeader (dataSize : Z) (format : WavFormat) :
  length (WriteHeader dataSize format) = 44%nat.
Proof.
  unfold WriteHeader.
  rewrite !length_app, !length_le_encode, length_format_part. reflexivity.
Qed.

(** The two size fields of a file that starts with a header. *)
Lemma header_fields (dataSize : Z) (format : WavFormat) (data : list byte) :
  le_decode (take 4 (drop 4 (WriteHeader dataSize format ++ data)))
    = (36 + dataSize) mod 2 ^ 32
  /\ le_decode (take 4 (drop 40 (WriteHeader dataSize format ++ data)))
      = dataSize mod 2 ^ 32
  /\ drop 44 (WriteHeader dataSize format ++ data) = data.
Proof.
  unfold WriteHeader. rewrite <- !app_assoc.
  split; [| split].
  - rewrite drop_app_length' by (now rewrite length_le_encode).
    rewrite take_app_length' by (now rewrite length_le_encode).
    apply (le_decode_encode 4).
  - rewrite (app_assoc (le_encode 4 RIFF_HEADER)).
    rewrite (app_assoc (_ ++ _) (format_part format)).
    rewrite drop_app_length'
      by (rewrite !length_app, !length_le_encode, length_format_part; reflexivity).
    rewrite take_app_length' by (now rewrite length_le_encode).
    apply (le_decode_encode 4).
  - rewrite (app_assoc (le_encode 4 RIFF_HEADER)).
    rewrite (app_assoc (_ ++ _) (format_part format)).
    rewrite (app_assoc (_ ++ _) (le_encode 4 dataSize)).
    apply drop_app_length'.
    rewrite !length_app, !length_le_encode, length_format_part. reflexivity.
Qed.

Lemma WriteFile_true (fs : FileSystem) (path : string) (samples : list Z)
    (format : WavFormat) :
  fst (WriteFile fs path samples format) = Ret true ->
  samples <> []
  /\ exists fs1,
       can_open_for_write fs1 path = true
       /\ (if Path.has_parent_path path
           then exists made, create_directories fs (Path.parent_path path)
                             = Some (made, fs1)
           else fs1 = fs)
       /\ snd (WriteFile fs path samples format)
          = fs_write fs1 path
              (WriteHeader ((Z.of_nat (length samples) * 2) mod 2 ^ 32) format
                 ++ take (Z.to_nat ((Z.of_nat (length samples) * 2) mod 2 ^ 32))
                      (encode_elems 2 samples)).
Proof.
  unfold WriteFile. destruct samples as [| z samples]; [discriminate |].
  simpl VoiceConditionals.is_empty. cbv iota.
  destruct (Path.has_parent_path path).
  - destruct (create_directories fs (Path.parent_path path)) as [[made fs1] |];
      [| discriminate].
    destruct (can_open_for_write fs1 path) eqn:Hopen; [| discriminate].
    intros _. split; [discriminate |]. exists fs1. eauto.
  - destruct (can_open_for_write fs path) eqn:Hopen; [| discriminate].
    intros _. split; [discriminate |]. exists fs. eauto.
Qed.

(** X21: a file that [WriteFile] reports written starts with a 44-byte
    header whose two size fields agree with the file: the data size is the
    number of bytes after the header, and the RIFF size is the length of
    the file less eight, as far as 32 bits hold it.  For fewer than 2^31
    samples the bytes after the header are the samples, two bytes each,
    least significant first.  A file is only written for samples that are
    not empty. *)
Theorem WriteFile_header_agrees (fs : FileSystem) (path : string)
    (samples : list Z) (format : WavFormat) :
  fst (WriteFile fs path samples format) = Ret true ->
  samples <> []
  /\ exists file,
       fs_files (snd (WriteFile fs path samples format)) !! path = Some file
       /\ le_decode (take 4 (drop 40 file)) = Z.of_nat (length file) - 44
       /\ le_decode (take 4 (drop 4 file))
          = (Z.of_nat (length file) - 8) mod 2 ^ 32
       /\ (Z.of_nat (length samples) < 2 ^ 31 ->
           drop 44 file = encode_elems 2 samples).
Proof.
  intros Htrue.
  destruct (WriteFile_true fs path samples format Htrue)
    as (Hne & fs1 & _ & _ & ->).
  split; [exact Hne |].
  set (dataSize := (Z.of_nat (length samples) * 2) mod 2 ^ 32).
  assert (Hrange : 0 <= dataSize < 2 ^ 32) by (apply Z.mod_pos_bound; lia).
  assert (Hle : dataSize <= Z.of_nat (length samples) * 2)
    by (apply Z.mod_le; lia).
  eexists. split; [apply lookup_insert_eq |].
  destruct (header_fields dataSize format
              (take (Z.to_nat dataSize) (encode_elems 2 samples)))
    as (Hriff & Hdata & Hrest).
  rewrite Hriff, Hdata, Hrest.
  rewrite length_app, length_WriteHeader, length_take, length_encode_elems.
  rewrite (Z.mod_small dataSize) by lia.
  assert (Hsamples : samples <> []) by exact Hne.
  assert (0 < Z.of_nat (length samples))
    by (destruct samples; [contradiction | simpl; lia]).
  split; [lia |]. split.
  - f_equal. lia.
  - intros Hn. rewrite take_ge; [reflexivity |].
    rewrite length_encode_elems. subst dataSize.
    rewrite Z.mod_small by lia. lia.
Qed.

Lemma fs_write_twice (fs : FileSystem) (p : string) (a b : list byte) :
  fs_write (fs_write fs p a) p b = fs_write fs p b.
Proof. unfold fs_write. simpl. now rewrite insert_insert_eq. Qed.

Lemma contents_fs_write (fs : FileSystem) (p : string) (a : list byte) :
  contents (fs_write fs p a) p = a.
Proof. unfold contents, fs_write. simpl. now rewrite lookup_insert_eq. Qed.

(** The state of a streaming session after some chunks. *)
Lemma WriteSamples_fold (conv : Z -> Z) (fs1 : FileSystem) (path : string)
    (format : WavFormat) (chunks : list (list Z)) :
  forall (done : list Z),
    fold_left
      (fun '(w, fs) chunk =>
         let '(_, w', fs') := WriteSamples conv fs w chunk in (w', fs'))
      chunks
      ({| m_file := Some path; m_format := format;
          m_samplesWritten := Z.of_nat (length done) mod 2 ^ 64 |},
       fs_write fs1 path (WriteHeader 0 format ++ encode_elems 2 (conv <$> done)))
    = ({| m_file := Some path; m_format := format;
          m_samplesWritten :=
            Z.of_nat (length (done ++ concat chunks)) mod 2 ^ 64 |},
       fs_write fs1 path
         (WriteHeader 0 format
            ++ encode_elems 2 (conv <$> (done ++ concat chunks)))).
Proof.
  induction chunks as [| chunk chunks IH]; intros done.
  - simpl. now rewrite app_nil_r.
  - cbn [fold_left concat]. unfold WriteSamples at 2. cbn [m_file m_format m_samplesWritten].
    rewrite contents_fs_write, fs_write_twice.
    rewrite Zplus_mod_idemp_l.
    replace (Z.of_nat (length done) + Z.of_nat (length chunk))
      with (Z.of_nat (length (done ++ chunk)))
      by (rewrite length_app; lia).
    replace (_ ++ encode_elems 2 (conv <$> chunk))
      with (WriteHeader 0 format ++ encode_elems 2 (conv <$> (done ++ chunk))).
    2:{ rewrite <- app_assoc. f_equal. unfold encode_elems.
        now rewrite fmap_app, map_app, concat_app. }
    rewrite IH, <- app_assoc. reflexivity.
Qed.

(** Patching the two size fields turns the placeholder header into the
    header of the data size. *)
Lemma patch_header (dataSize : Z) (format : WavFormat) (data : list byte) :
  write_at 40 (le_encode 4 dataSize)
    (write_at 4 (le_encode 4 (36 + dataSize)) (WriteHeader 0 format ++ data))
  = WriteHeader dataSize format ++ data.
Proof.
  assert (H4 : forall z, length (le_encode 4 z) = 4%nat)
    by (intros; apply length_le_encode).
  assert (Hhead : forall (n : nat) (a b : list byte),
            length a = n -> resize n x00 (a ++ b) = a).
  { intros n a b <-. rewrite resize_le by (rewrite length_app; lia).
    apply take_app_length. }
  assert (Htail : forall (n : nat) (a b : list byte),
            length a = n -> drop n (a ++ b) = b).
  { intros n a b <-. apply drop_app_length. }
  unfold write_at, WriteHeader. rewrite !H4. rewrite <- !app_assoc.
  rewrite (Hhead 4%nat) by apply H4.
  rewrite (app_assoc (le_encode 4 RIFF_HEADER) (le_encode 4 (36 + 0))).
  rewrite (Htail (4 + 4)%nat) by (rewrite length_app, !H4; reflexivity).
  rewrite (app_assoc (le_encode 4 RIFF_HEADER)).
  rewrite (app_assoc (_ ++ _) (format_part format)).
  rewrite (Hhead 40%nat)
    by (rewrite !length_app, !H4, length_format_part; reflexivity).
  rewrite (app_assoc (_ ++ _) (le_encode 4 0)).
  rewrite (Htail (40 + 4)%nat)
    by (rewrite !length_app, !H4, length_format_part; reflexivity).
  rewrite <- !app_assoc. reflexivity.
Qed.

(** X22: streaming and writing at once give the same file.  With no file
    open before, [Open], a [WriteSamples] for each chunk and [Close] leave
    the file system that [WriteFile] leaves for the chunks taken together,
    and the two report the same, provided that there is a sample and
    fewer than 2^31 of them. *)
Theorem streaming_equals_WriteFile (FloatToInt16 : Z -> Z) (fs : FileSystem)
    (w : WavWriter.t) (path : string) (format : WavFormat)
    (chunks : list (list Z)) :
  m_file w = None ->
  concat chunks <> [] ->
  Z.of_nat (length (concat chunks)) < 2 ^ 31 ->
  stream_chunks FloatToInt16 fs w path format chunks
  = WriteFile_float FloatToInt16 fs path (concat chunks) format.
Proof.
  intros Hidle Hne Hlen.
  unfold stream_chunks, WriteFile_float, WriteFile, Open, Close.
  rewrite Hidle.
  destruct (FloatToInt16 <$> concat chunks) as [| z zs] eqn:Hconv.
  { apply fmap_nil_inv in Hconv. contradiction. }
  simpl VoiceConditionals.is_empty. cbv iota. rewrite <- Hconv. clear z zs Hconv.
  destruct (if Path.has_parent_path path then _ else _) as [[made fs1] |];
    [| reflexivity].
  destruct (can_open_for_write fs1 path); simpl negb; cbv iota; [| reflexivity].
  assert (Hfold :
    fold_left
      (fun '(w, fs) chunk =>
         let '(_, w', fs') := WriteSamples FloatToInt16 fs w chunk in (w', fs'))
      chunks
      ({| m_file := Some path; m_format := format; m_samplesWritten := 0 |},
       fs_write fs1 path (WriteHeader 0 format))
    = ({| m_file := Some path; m_format := format;
          m_samplesWritten := Z.of_nat (length (concat chunks)) mod 2 ^ 64 |},
       fs_write fs1 path
         (WriteHeader 0 format
            ++ encode_elems 2 (FloatToInt16 <$> concat chunks)))).
  { rewrite <- (app_nil_r (WriteHeader 0 format)) at 1.
    exact (WriteSamples_fold FloatToInt16 fs1 path format chunks []). }
  rewrite Hfold. clear Hfold.
  cbn [snd m_file]. unfold UpdateHeader. cbn [m_file m_samplesWritten].
  rewrite contents_fs_write, fs_write_twice.
  rewrite length_fmap.
  rewrite (Z.mod_small (Z.of_nat (length (concat chunks)))) by lia.
  rewrite (Z.mod_small (Z.of_nat (length (concat chunks)) * 2)) by lia.
  rewrite patch_header.
  rewrite take_ge; [reflexivity |].
  rewrite length_encode_elems, length_fmap. lia.
Qed.
End WavFiles.

Lemma WriteFile_header_agrees_witness :
  [1; -2; 3] <> []
  /\ exists file,
       fs_files (snd (WavWriter.WriteFile empty_disk "out.wav" [1; -2; 3]
                        WavWriter.default_format)) !! "out.wav"%string
         = Some file
       /\ le_decode (take 4 (drop 40 file)) = Z.of_nat (length file) - 44
       /\ le_decode (take 4 (drop 4 file))
          = (Z.of_nat (length file) - 8) mod 2 ^ 32
       /\ (Z.of_nat (length [1; -2; 3]) < 2 ^ 31 ->
           drop 44 file = encode_elems 2 [1; -2; 3]).
Proof.
  assert (Htrue : fst (WavWriter.WriteFile empty_disk "out.wav" [1; -2; 3]
                         WavWriter.default_format) = Ret true)
    by (vm_compute; reflexivity).
  exact (WriteFile_header_agrees empty_disk "out.wav" [1; -2; 3]
           WavWriter.default_format Htrue).
Defined.

Lemma streaming_equals_WriteFile_witness :
  stream_chunks (fun z => z) empty_disk idle_writer "out.wav"
    WavWriter.default_format [[1; -2]; [3]]
  = WavWriter.WriteFile_float (fun z => z) empty_disk "out.wav"
      (concat [[1; -2]; [3]]) WavWriter.default_format.
Proof.
  apply (streaming_equals_WriteFile (fun z => z) empty_disk idle_writer
           "out.wav" WavWriter.default_format [[1; -2]; [3]]).
  - reflexivity.
  - discriminate.
  - reflexivity.
Defined.

(** ** Clearing the cache *)

Section ClearingCache.
Import VoiceConditionalsCache.

Variable removable : string -> bool.

Lemma clear_entries_spec (entries : list string) :
  forall fs,
    (forall p, p ∈ entries -> removable p = true) ->
    (forall p, fs_files (clear_entries removable fs entries) !! p = None
               \/ fs_files (clear_entries removable fs entries) !! p
                  = fs_files fs !! p)
    /\ (forall p, p ∈ entries -> Path.extension p = ".cond"%string ->
          fs_files (clear_entries removable fs entries) !! p = None)
    /\ (forall p, p ∉ entries \/ Path.extension p <> ".cond"%string ->
          fs_files (clear_entries removable fs entries) !! p = fs_files fs !! p)
    /\ (forall p, p ∈ fs_dirs fs ->
          p ∈ fs_dirs (clear_entries removable fs entries)
          \/ fs_files (clear_entries removable fs entries) !! p = None)
    /\ (forall p, p ∈ fs_dirs (clear_entries removable fs entries) ->
          p ∈ fs_dirs fs).
Proof.
  induction entries as [| entry entries IH]; intros fs Hrem.
  - simpl. repeat split; auto. intros p Hp. inversion Hp.
  - assert (Hrem' : forall p, p ∈ entries -> removable p = true)
      by (intros p Hp; apply Hrem; now apply list_elem_of_further).
    simpl clear_entries.
    destruct (is_regular_file fs entry && String.eqb (Path.extension entry) ".cond")
      eqn:Hsel.
    + rewrite (Hrem entry) by apply list_elem_of_here.
      apply andb_true_iff in Hsel as [_ Hext]. apply String.eqb_eq in Hext.
      destruct (IH (fs_remove fs entry) Hrem') as (H1 & H2 & H3 & H4 & H5).
      split; [| split; [| split; [| split]]].
      * intros p. destruct (H1 p) as [Hp | Hp]; [now left |].
        rewrite Hp. simpl. destruct (decide (p = entry)) as [-> | Hne].
        -- left. apply lookup_delete_eq.
        -- right. now apply lookup_delete_ne.
      * intros p Hp Hpext. apply elem_of_cons in Hp as [-> | Hp]; [| now apply H2].
        destruct (H1 entry) as [Hnone | Hsame]; [exact Hnone |].
        rewrite Hsame. simpl. apply lookup_delete_eq.
      * intros p Hp. rewrite H3.
        -- simpl. apply lookup_delete_ne. intros ->.
           destruct Hp as [Hp | Hp]; [| contradiction].
           apply Hp, list_elem_of_here.
        -- destruct Hp as [Hp | Hp]; [left | now right].
           intros Hin. apply Hp. now apply list_elem_of_further.
      * intros p Hp. destruct (decide (p = entry)) as [-> | Hne].
        -- right. destruct (H1 entry) as [Hnone | Hsame]; [exact Hnone |].
           rewrite Hsame. simpl. apply lookup_delete_eq.
        -- apply H4. simpl. apply elem_of_difference. split; [exact Hp |].
           intros Hin. apply elem_of_singleton in Hin. contradiction.
      * intros p Hp. apply H5 in Hp. simpl in Hp.
        now apply elem_of_difference in Hp as [Hp _].
    + destruct (IH fs Hrem') as (H1 & H2 & H3 & H4 & H5).
      split; [exact H1 |]. split; [| split; [| split; [exact H4 | exact H5]]].
      * intros p Hp Hpext. apply elem_of_cons in Hp as [-> | Hp]; [| now apply H2].
        destruct (H1 entry) as [Hnone | Hsame]; [exact Hnone |].
        rewrite Hsame. apply andb_false_iff in Hsel as [Hreg | Hext].
        -- unfold is_regular_file in Hreg. apply bool_decide_eq_false in Hreg.
           destruct (fs_files fs !! entry) eqn:Hfile; [| reflexivity].
           exfalso. apply Hreg. eauto.
        -- rewrite Hpext in Hext. discriminate.
      * intros p Hp. apply H3.
        destruct Hp as [Hp | Hp]; [left | now right].
        intros Hin. apply Hp. now apply list_elem_of_further.
Qed.

Lemma load_entries_nothing (junk : nat -> Z) (fs : FileSystem) (c : t)
    (entries : list string) (loaded : Z) :
  (forall p, p ∈ entries -> Path.extension p = ".cond"%string ->
     fs_files fs !! p = None) ->
  load_entries junk fs c entries loaded = (Ret loaded, c).
Proof.
  induction entries as [| entry entries IH]; intros Hnone; [reflexivity |].
  simpl.
  replace (is_regular_file fs entry && String.eqb (Path.extension entry) ".cond")
    with false.
  - apply IH. intros p Hp. apply Hnone. now apply list_elem_of_further.
  - symmetry. apply andb_false_iff.
    destruct (String.eqb_spec (Path.extension entry) ".cond") as [Hext | Hext];
      [left | now right].
    unfold is_regular_file.
    rewrite (Hnone entry (list_elem_of_here _ _) Hext).
    apply bool_decide_eq_false. intros [? ?]; discriminate.
Qed.

(** X23: [Clear] empties both tiers when the cache directory is there
    and its entries can be removed: no key is in memory afterwards, no
    entry with the extension .cond is a file any more, every other file
    is as it was, and [LoadAllFromDisk] then loads nothing and leaves the
    memory empty. *)
Theorem Clear_empties_both_tiers (list_dir : string -> list string)
    (junk : nat -> Z) (fs : FileSystem) (c : t) :
  m_cacheDir c ∈ fs_dirs fs ->
  (forall p, p ∈ list_dir (m_cacheDir c) -> removable p = true) ->
  let '(r, c', fs') := Clear removable list_dir fs c in
  r = Ret tt
  /\ (forall key, Has c' key = false)
  /\ (forall p, p ∈ list_dir (m_cacheDir c) ->
        Path.extension p = ".cond"%string -> fs_files fs' !! p = None)
  /\ (forall p, p ∉ list_dir (m_cacheDir c) \/ Path.extension p <> ".cond"%string ->
        fs_files fs' !! p = fs_files fs !! p)
  /\ LoadAllFromDisk junk list_dir fs' c' = (Ret 0, c').
Proof.
  intros Hdir Hrem. unfold Clear.
  assert (Hmem : forall key, Has (ClearMemory c) key = false).
  { intros key. unfold Has, ClearMemory. simpl. rewrite lookup_empty.
    apply bool_decide_eq_false. intros [? ?]; discriminate. }
  assert (Hex : fs_exists fs (m_cacheDir c) = true).
  { unfold fs_exists. rewrite (bool_decide_eq_true_2 (_ ∈ _)) by exact Hdir.
    apply orb_true_r. }
  rewrite Hex, bool_decide_eq_true_2 by exact Hdir.
  destruct (clear_entries_spec (list_dir (m_cacheDir c)) fs Hrem)
    as (H1 & H2 & H3 & H4 & H5).
  split; [reflexivity |]. split; [exact Hmem |].
  split; [exact H2 |]. split; [exact H3 |].
  unfold LoadAllFromDisk.
  change (m_cacheDir (ClearMemory c)) with (m_cacheDir c).
  destruct (fs_exists (clear_entries removable fs (list_dir (m_cacheDir c)))
              (m_cacheDir c)) eqn:Hex'; [| reflexivity].
  simpl negb. cbv iota.
  rewrite bool_decide_eq_true_2.
  - now apply load_entries_nothing.
  - destruct (H4 (m_cacheDir c) Hdir) as [Hin | Hgone]; [exact Hin |].
    unfold fs_exists in Hex'. rewrite Hgone in Hex'.
    rewrite bool_decide_eq_false_2 in Hex' by (intros [? ?]; discriminate).
    simpl in Hex'. now apply bool_decide_eq_true in Hex'.
Qed.
End ClearingCache.

(** ** Loading a whole cache directory *)

Section LoadingDirectory.
Import VoiceConditionalsCache.

Lemma list_ascii_of_string_app (s1 s2 : string) :
  list_ascii_of_string (s1 ++ s2)
  = list_ascii_of_string s1 ++ list_ascii_of_string s2.
Proof. induction s1 as [| c s1 IH]; simpl; [reflexivity | now rewrite IH]. Qed.

Lemma filename_chars_after_sep (p q : list ascii) :
  existsb Path.is_sep q = false ->
  p = [] \/ (exists c, last p = Some c /\ Path.is_sep c = true) ->
  Path.filename_chars (p ++ q) = q.
Proof.
  intros Hq. induction p as [| c r IH]; intros Hp.
  - now apply filename_chars_id.
  - destruct Hp as [Hp | (d & Hlast & Hd)]; [discriminate |].
    cbn [app Path.filename_chars]. rewrite existsb_app, Hq, orb_false_r.
    destruct r as [| c' r'].
    + simpl in Hlast. injection Hlast as ->. simpl. now rewrite Hd.
    + assert (Hr : existsb Path.is_sep (c' :: r') = true).
      { apply existsb_exists. exists d. split; [| exact Hd].
        apply list_elem_of_In. apply last_Some_elem_of. exact Hlast. }
      rewrite Hr. apply IH. right. exists d. split; [exact Hlast | exact Hd].
Qed.

Lemma rfind_dot_app (k t : list ascii) :
  Path.rfind_dot t = None ->
  Path.rfind_dot (k ++ "."%char :: t) = Some (length k).
Proof.
  intros Ht. induction k as [| c k IH]; simpl.
  - now rewrite Ht.
  - now rewrite IH.
Qed.

(** The file of a key that is a plain name has that key as its stem and
    .cond as its extension. *)
Lemma GetCachePath_stem (c : t) (key : string) :
  Path.has_parent_path key = false -> key <> ""%string ->
  Path.stem (GetCachePath c key) = key
  /\ Path.extension (GetCachePath c key) = ".cond"%string.
Proof.
  intros Hsep Hne.
  set (k := list_ascii_of_string key).
  assert (Hk : existsb Path.is_sep k = false) by exact Hsep.
  assert (Hk0 : k <> []).
  { intros H. apply Hne. rewrite <- (string_of_list_ascii_of_string key).
    fold k. now rewrite H. }
  set (q := k ++ list_ascii_of_string ".cond").
  assert (Hq : existsb Path.is_sep q = false).
  { unfold q. rewrite existsb_app, Hk. reflexivity. }
  assert (Hfile : Path.filename_chars (list_ascii_of_string (GetCachePath c key)) = q).
  { unfold GetCachePath, Path.append.
    replace (Path.is_absolute (key ++ ".cond")) with false.
    2:{ unfold Path.is_absolute. rewrite list_ascii_of_string_app. fold k.
        destruct k as [| c0 k']; [contradiction |]. simpl in Hk |- *.
        now apply orb_false_iff in Hk as [-> _]. }
    destruct (String.eqb (m_cacheDir c) "").
    { rewrite list_ascii_of_string_app. fold k. now apply filename_chars_id. }
    destruct (Path.ends_with_sep (m_cacheDir c)) eqn:Hend.
    - rewrite !list_ascii_of_string_app. fold k. apply filename_chars_after_sep;
        [exact Hq |].
      unfold Path.ends_with_sep in Hend.
      destruct (last (list_ascii_of_string (m_cacheDir c))) as [d |] eqn:Hlast;
        [| discriminate].
      right. exists d. auto.
    - rewrite !list_ascii_of_string_app. fold k.
      rewrite app_assoc. apply filename_chars_after_sep; [exact Hq |].
      right. exists "/"%char. split; [| reflexivity].
      simpl. apply last_snoc. }
  assert (Hext : Path.find_extension q = Some (length k)).
  { unfold Path.find_extension, q.
    destruct k as [| c0 k'] eqn:Hkeq; [contradiction |].
    cbn [app].
    replace (Nat.leb (length (c0 :: k' ++ list_ascii_of_string ".cond")) 2)
      with false
      by (symmetry; apply Nat.leb_gt; simpl; rewrite length_app; simpl; lia).
    cbn [andb].
    change (c0 :: k' ++ list_ascii_of_string ".cond")
      with ((c0 :: k') ++ "."%char :: list_ascii_of_string "cond").
    rewrite rfind_dot_app by reflexivity. reflexivity. }
  unfold Path.stem, Path.extension, Path.stem_chars.
  rewrite Hfile, Hext. unfold q.
  rewrite take_app_length, drop_app_length. split; [| reflexivity].
  apply string_of_list_ascii_of_string.
Qed.

Lemma Put_keeps_dirs (fs : FileSystem) (c : t) (key : string)
    (conds : VoiceConditionals.t) (saveToDisk : bool) (p : string) :
  p ∈ fs_dirs fs -> p ∈ fs_dirs (snd (Put fs c key conds saveToDisk)).
Proof.
  intros Hp. unfold Put.
  destruct (negb (VoiceConditionals.IsValid conds)); [exact Hp |].
  destruct saveToDisk; [| exact Hp].
  unfold SaveToDisk, EnsureCacheDir.
  assert (Hmk : forall fs0 d made fs1,
            p ∈ fs_dirs fs0 -> create_directories fs0 d = Some (made, fs1) ->
            p ∈ fs_dirs fs1).
  { intros fs0 d made fs1 Hin. unfold create_directories.
    destruct (bool_decide (d ∈ fs_dirs fs0)); [now intros [= _ <-] |].
    destruct (_ || _); [discriminate |]. intros [= _ <-]. simpl.
    apply elem_of_union. now right. }
  assert (Hsave : forall fs0, p ∈ fs_dirs fs0 ->
            p ∈ fs_dirs (snd (VoiceConditionals.Save fs0 conds
                                (GetCachePath (with_cache c (<[key:=conds]> (m_cache c)))
                                   key)))).
  { intros fs0 Hin. unfold VoiceConditionals.Save.
    destruct (negb (VoiceConditionals.IsValid conds)); [exact Hin |].
    destruct (Path.has_parent_path _).
    - destruct (create_directories fs0 _) as [[made fs1] |] eqn:Hc; [| exact Hin].
      apply (Hmk _ _ _ _ Hin) in Hc.
      destruct (negb (can_open_for_write fs1 _)); exact Hc.
    - destruct (negb (can_open_for_write fs0 _)); exact Hin. }
  destruct (fs_exists fs _).
  - simpl negb. cbv iota.
    destruct (VoiceConditionals.Save fs conds _) as [r fs'] eqn:Hs.
    specialize (Hsave fs Hp). rewrite Hs in Hsave. exact Hsave.
  - destruct (create_directories fs _) as [[[|] fs1] |] eqn:Hc; simpl negb;
      cbv iota; try exact Hp.
    apply (Hmk _ _ _ _ Hp) in Hc.
    destruct (VoiceConditionals.Save fs1 conds _) as [r fs'] eqn:Hs.
    specialize (Hsave fs1 Hc). rewrite Hs in Hsave. exact Hsave.
Qed.

Lemma load_entries_keeps (junk : nat -> Z) (fs : FileSystem) (key : string)
    (conds : VoiceConditionals.t) (c0 : t) :
  VoiceConditionals.Load junk fs (GetCachePath c0 key) = Ret (Some conds) ->
  forall entries c loaded,
    m_cacheDir c = m_cacheDir c0 ->
    (forall e, e ∈ entries -> forall a,
       VoiceConditionals.Load junk fs (GetCachePath c0 (Path.stem e)) <> Abort a) ->
    exists n c',
      load_entries junk fs c entries loaded = (Ret n, c')
      /\ m_cacheDir c' = m_cacheDir c0
      /\ loaded <= n
      /\ (Get c key = Some conds -> Get c' key = Some conds)
      /\ (forall e, e ∈ entries -> is_regular_file fs e = true ->
            Path.extension e = ".cond"%string -> Path.stem e = key ->
            Get c' key = Some conds /\ loaded + 1 <= n).
Proof.
  intros Hfile. induction entries as [| entry entries IH]; intros c loaded Hdir Hok.
  - exists loaded, c. simpl.
    split; [reflexivity |]. split; [exact Hdir |]. split; [lia |].
    split; [auto |]. intros e He. inversion He.
  - assert (Hok' : forall e, e ∈ entries -> forall a,
              VoiceConditionals.Load junk fs (GetCachePath c0 (Path.stem e))
              <> Abort a)
      by (intros e He; apply Hok; now apply list_elem_of_further).
    simpl load_entries.
    destruct (is_regular_file fs entry && String.eqb (Path.extension entry) ".cond")
      eqn:Hsel.
    + unfold LoadFromDisk.
      assert (Hpath : GetCachePath c (Path.stem entry)
                      = GetCachePath c0 (Path.stem entry))
        by (unfold GetCachePath; now rewrite Hdir).
      rewrite Hpath.
      destruct (VoiceConditionals.Load junk fs (GetCachePath c0 (Path.stem entry)))
        as [[v |] | a] eqn:Hload.
      * destruct (IH (with_cache c (<[Path.stem entry := v]> (m_cache c)))
                    (loaded + 1) Hdir Hok') as (n & c' & Hrun & Hd & Hn & Hkeep & Hfind).
        exists n, c'. split; [exact Hrun |]. split; [exact Hd |]. split; [lia |].
        assert (Hstep : Path.stem entry = key ->
                  Get (with_cache c (<[Path.stem entry := v]> (m_cache c))) key
                  = Some conds).
        { intros Hst. rewrite Hst in Hload. rewrite Hfile in Hload.
          injection Hload as <-. unfold Get. simpl. rewrite Hst.
          apply lookup_insert_eq. }
        split.
        -- intros Hget. apply Hkeep.
           destruct (decide (Path.stem entry = key)) as [Hst | Hst];
             [now apply Hstep |].
           unfold Get. simpl. rewrite lookup_insert_ne by exact Hst. exact Hget.
        -- intros e He Hreg Hext Hst.
           apply elem_of_cons in He as [-> | He].
           ++ split; [apply Hkeep; now apply Hstep | lia].
           ++ destruct (Hfind e He Hreg Hext Hst) as [Hg Hle]. split; [exact Hg | lia].
      * destruct (IH c loaded Hdir Hok') as (n & c' & Hrun & Hd & Hn & Hkeep & Hfind).
        exists n, c'. split; [exact Hrun |]. split; [exact Hd |]. split; [lia |].
        split; [exact Hkeep |].
        intros e He Hreg Hext Hst. apply elem_of_cons in He as [-> | He].
        -- rewrite Hst, Hfile in Hload. discriminate.
        -- exact (Hfind e He Hreg Hext Hst).
      * exfalso. apply (Hok entry (list_elem_of_here _ _) a). exact Hload.
    + destruct (IH c loaded Hdir Hok') as (n & c' & Hrun & Hd & Hn & Hkeep & Hfind).
      exists n, c'. split; [exact Hrun |]. split; [exact Hd |]. split; [lia |].
      split; [exact Hkeep |].
      intros e He Hreg Hext Hst. apply elem_of_cons in He as [-> | He].
      -- rewrite Hreg, Hext in Hsel. discriminate.
      -- exact (Hfind e He Hreg Hext Hst).
Qed.

(** X24: [LoadAllFromDisk] restores what [Put] persisted.  Let the cache
    directory be there, the key a plain name, and [Put] of a record whose
    elements and sizes are those of its C++ types have returned true.
    Then for a cache on the same directory, in whose listing the file of
    the key is and no file makes [Load] throw, [LoadAllFromDisk] returns a
    count of at least one and a memory in which the key has a record equal
    to the one that was put. *)
Theorem LoadAllFromDisk_restores_Put (junk : nat -> Z)
    (list_dir : string -> list string) (fs : FileSystem) (c c2 : t)
    (key : string) (conds : VoiceConditionals.t) :
  VoiceConditionals.well_typed conds ->
  VoiceConditionals.representable conds ->
  Path.has_parent_path key = false -> key <> ""%string ->
  m_cacheDir c ∈ fs_dirs fs ->
  m_cacheDir c2 = m_cacheDir c ->
  fst (fst (Put fs c key conds true)) = Ret true ->
  GetCachePath c key ∈ list_dir (m_cacheDir c) ->
  (forall e, e ∈ list_dir (m_cacheDir c) -> forall a,
     VoiceConditionals.Load junk (snd (Put fs c key conds true))
       (GetCachePath c (Path.stem e)) <> Abort a) ->
  exists n c',
    LoadAllFromDisk junk list_dir (snd (Put fs c key conds true)) c2 = (Ret n, c')
    /\ 1 <= n
    /\ Get c' key = Some conds.
Proof.
  intros Htyped Hrep Hsep Hne Hdir Hsame Hput Hlisted Hok.
  pose proof (Put_keeps_dirs fs c key conds true _ Hdir) as Hdir'.
  apply Put_true_on_disk in Hput as (Hfile & _ & _).
  set (fs' := snd (Put fs c key conds true)) in *.
  assert (Hload : VoiceConditionals.Load junk fs' (GetCachePath c key)
                  = Ret (Some conds)).
  { unfold VoiceConditionals.Load. rewrite Hfile.
    rewrite <- (app_nil_r (VoiceConditionals.serialize conds)).
    now apply parse_serialize. }
  unfold LoadAllFromDisk. rewrite Hsame.
  replace (fs_exists fs' (m_cacheDir c)) with true.
  2:{ symmetry. unfold fs_exists.
      rewrite (bool_decide_eq_true_2 (_ ∈ _)) by exact Hdir'. apply orb_true_r. }
  simpl negb. cbv iota. rewrite bool_decide_eq_true_2 by exact Hdir'.
  destruct (load_entries_keeps junk fs' key conds c Hload
              (list_dir (m_cacheDir c)) c2 0 Hsame Hok)
    as (n & c' & Hrun & _ & _ & _ & Hfind).
  exists n, c'. split; [exact Hrun |].
  destruct (GetCachePath_stem c key Hsep Hne) as [Hstem Hext].
  destruct (Hfind (GetCachePath c key) Hlisted) as [Hget Hn];
    [| exact Hext | exact Hstem | split; [lia | exact Hget]].
  unfold is_regular_file. rewrite Hfile. apply bool_decide_eq_true. eauto.
Qed.
End LoadingDirectory.

Lemma Clear_empties_both_tiers_witness :
  let '(r, c', fs') :=
    VoiceConditionalsCache.Clear (fun _ => true)
      (fun _ => ["cache/voice.cond"%string])
      (disk_with "cache/voice.cond" []) fresh_cache in
  r = Ret tt
  /\ (forall key, VoiceConditionalsCache.Has c' key = false)
  /\ (forall p, p ∈ ["cache/voice.cond"%string] ->
        Path.extension p = ".cond"%string -> fs_files fs' !! p = None)
  /\ (forall p, p ∉ ["cache/voice.cond"%string]
               \/ Path.extension p <> ".cond"%string ->
        fs_files fs' !! p
        = fs_files (disk_with "cache/voice.cond" []) !! p)
  /\ VoiceConditionalsCache.LoadAllFromDisk (fun _ => 0)
       (fun _ => ["cache/voice.cond"%string]) fs' c' = (Ret 0, c').
Proof.
  apply (Clear_empties_both_tiers (fun _ => true)
           (fun _ => ["cache/voice.cond"%string]) (fun _ => 0)
           (disk_with "cache/voice.cond" []) fresh_cache).
  - vm_compute. reflexivity.
  - reflexivity.
Defined.

Lemma LoadAllFromDisk_restores_Put_witness :
  exists n c',
    VoiceConditionalsCache.LoadAllFromDisk (fun _ => 0)
      (fun _ => ["cache/readme.txt"; "cache/voice.cond"]%string)
      (snd (VoiceConditionalsCache.Put (disk_with "cache/readme.txt" [])
              fresh_cache "voice" Sample.conds true))
      fresh_cache = (Ret n, c')
    /\ 1 <= n
    /\ VoiceConditionalsCache.Get c' "voice" = Some Sample.conds.
Proof.
  assert (Hput : fst (fst (VoiceConditionalsCache.Put
                             (disk_with "cache/readme.txt" []) fresh_cache
                             "voice" Sample.conds true)) = Ret true)
    by (vm_compute; reflexivity).
  assert (H1 : VoiceConditionals.Load (fun _ => 0)
                 (snd (VoiceConditionalsCache.Put
                         (disk_with "cache/readme.txt" []) fresh_cache
                         "voice" Sample.conds true))
                 (VoiceConditionalsCache.GetCachePath fresh_cache
                    (Path.stem "cache/readme.txt")) = Ret None)
    by (vm_compute; reflexivity).
  assert (H2 : VoiceConditionals.Load (fun _ => 0)
                 (snd (VoiceConditionalsCache.Put
                         (disk_with "cache/readme.txt" []) fresh_cache
                         "voice" Sample.conds true))
                 (VoiceConditionalsCache.GetCachePath fresh_cache
                    (Path.stem "cache/voice.cond")) = Ret (Some Sample.conds))
    by (vm_compute; reflexivity).
  apply (LoadAllFromDisk_restores_Put (fun _ => 0)
           (fun _ => ["cache/readme.txt"; "cache/voice.cond"]%string)
           (disk_with "cache/readme.txt" []) fresh_cache fresh_cache
           "voice" Sample.conds).
  - split; simpl; repeat constructor; unfold in_uint32, in_int64; lia.
  - split; split; simpl; unfold PTRDIFF_MAX; lia.
  - reflexivity.
  - discriminate.
  - vm_compute. reflexivity.
  - reflexivity.
  - exact Hput.
  - apply list_elem_of_further, list_elem_of_here.
  - intros e He a. apply elem_of_cons in He as [-> | He].
    + rewrite H1. discriminate.
    + apply list_elem_of_singleton in He as ->. rewrite H2. discriminate.
Defined.

(** ** Calls that succeed *)

Lemma LoadModels_ready_iff_true_witness :
  fst (fst (ChatterboxTTS.LoadModels (fun p => Some {| session_model := p |})
              (fun _ => []) models_disk Sample.engine "models" "q4"))
    = Ret true
  /\ ChatterboxTTS.IsReady
       (snd (fst (ChatterboxTTS.LoadModels
                    (fun p => Some {| session_model := p |})
                    (fun _ => []) models_disk Sample.engine "models" "q4")))
     = true.
Proof.
  assert (Hr : fst (fst (ChatterboxTTS.LoadModels
                           (fun p => Some {| session_model := p |})
                           (fun _ => []) models_disk Sample.engine "models" "q4"))
               = Ret true)
    by (vm_compute; reflexivity).
  split; [exact Hr |].
  pose proof (LoadModels_ready_iff_true (fun p => Some {| session_model := p |})
                (fun _ => []) models_disk Sample.engine "models" "q4") as H.
  destruct (ChatterboxTTS.LoadModels _ _ _ _ _ _) as [[r e'] msg].
  destruct H as [H _]. now apply H.
Defined.

Lemma PrepareConditionals_true_iff_witness :
  fst (fst (ChatterboxTTS.PrepareConditionals voice_runtime Sample.engine
              "a/hero.wav")) = true
  /\ ChatterboxTTS.m_conds
       (snd (fst (ChatterboxTTS.PrepareConditionals voice_runtime Sample.engine
                    "a/hero.wav"))) = Sample.conds.
Proof.
  assert (Hr : fst (fst (ChatterboxTTS.PrepareConditionals voice_runtime
                           Sample.engine "a/hero.wav")) = true)
    by (vm_compute; reflexivity).
  split; [exact Hr |].
  pose proof (PrepareConditionals_true_iff voice_runtime Sample.engine
                "a/hero.wav") as H.
  destruct (ChatterboxTTS.PrepareConditionals _ _ _) as [[r e'] calls].
  destruct H as [_ H]. simpl in Hr.
  destruct (H Hr) as (audio & o0 & o1 & o2 & o3 & more & _ & Henc & _ & Hconds & _).
  simpl. rewrite Hconds. injection Henc as <- <- <- <- _. reflexivity.
Defined.
